(** * FAO_DAG: the readiness-driven evaluation engine of src/FAO_DAG.hpp

    A shallow embedding of the C++ class [FAO_DAG] and a verification of its
    traversal scheduler, its evaluation pipelines and its boundary
    operations.

    Conventions of the embedding
    - a pointer to an [FAO] is the identity of a node object, a [nat]; the
      objects live in a store [gmap nat FAO] and dereferencing a pointer that is not
      in the store is undefined behaviour ([Undefined]);
    - [int] values are [Z], [size_t] values are [N]; the increment of a
      [size_t] counter wraps modulo [2^64];
    - [double] is the kernel's binary64 [float];
    - [std::map] is [gmap], [std::vector] and [std::queue] are [list]
      ([push] appends at the back, [front]/[pop] take the head);
    - a member function that mutates the engine or the nodes takes the old
      engine and store and returns the new ones inside [outcome];
    - the [while] loop of [traverse_graph] runs on a budget of iterations
      ([fuel]); the theorems give a budget that is enough. *)

From Stdlib Require Import ZArith Floats Uint63.
From stdpp Require Import gmap list relations.

(** ** Outcomes of running engine code *)

Inductive outcome (A : Type) : Type :=
| Done (a : A)      (* normal return *)
| AssertFail        (* a failed [assert]: the process aborts *)
| Undefined         (* undefined behaviour: bad dereference, out-of-bounds *)
| OutOfFuel.        (* the loop budget of the model ran out *)
Arguments Done {A} a.
Arguments AssertFail {A}.
Arguments Undefined {A}.
Arguments OutOfFuel {A}.

#[export] Instance outcome_ret : MRet outcome := @Done.
#[export] Instance outcome_bind : MBind outcome := λ A B k x,
  match x with
  | Done a => k a
  | AssertFail => AssertFail
  | Undefined => Undefined
  | OutOfFuel => OutOfFuel
  end.

(** Dereference of something that may be missing. *)
Definition deref {A} (o : option A) : outcome A :=
  match o with Some a => Done a | None => Undefined end.

(** C's [assert]. *)
Definition assert (b : bool) : outcome unit :=
  if b then Done tt else AssertFail.

(** ** Machine integers *)

(** [++] on a [size_t]. *)
Definition size_t_succ (c : N) : N := ((c + 1) mod 2 ^ 64)%N.

(** [++] on an [int] (two's complement wrap-around). *)
Definition int_succ (z : Z) : Z := ((z + 1 + 2 ^ 31) mod 2 ^ 32 - 2 ^ 31)%Z.

(** Conversion [int] to [double], as in [total / count]. *)
Definition double_of_int (z : Z) : float :=
  if (z <? 0)%Z then PrimFloat.opp (PrimFloat.of_uint63 (Uint63.of_Z (- z)))
  else PrimFloat.of_uint63 (Uint63.of_Z z).

(** [m[k]] on a [std::map]: a missing key is inserted with the default. *)
Definition map_subscript `{Countable K} {V} (dflt : V) (m : gmap K V) (k : K)
    : V * gmap K V :=
  match m !! k with
  | Some v => (v, m)
  | None => (dflt, <[k := dflt]> m)
  end.

(** ** Nodes (class [FAO], declared in FAO.hpp) *)

Abbreviation node := nat (only parsing).

(** Modelled from the spec: the class [FAO] is declared in FAO.hpp, which
    is not under src/. These are the members the engine reads or writes:
    the two buffers, the two ordered lists of edge ids, the shape declared
    for each position of either list, and the two offset maps. The virtual
    member functions [forward_eval], [adjoint_eval] and [get_elem_length]
    are the fields [forward_kernel], [adjoint_kernel] and
    [get_elem_length]: each object carries its own. *)
Record FAO := mkFAO {
  input_data : list float;
  output_data : list float;
  input_edges : list Z;
  output_edges : list Z;
  input_sizes : list (list N);
  output_sizes : list (list N);
  input_offsets : gmap Z N;
  output_offsets : gmap Z N;
  forward_kernel : list float → list float;
  adjoint_kernel : list float → list float;
  get_elem_length : list N → N;
}.

Definition set_input_data (v : list float) (f : FAO) : FAO :=
  mkFAO v (output_data f) (input_edges f) (output_edges f) (input_sizes f)
    (output_sizes f) (input_offsets f) (output_offsets f) (forward_kernel f)
    (adjoint_kernel f) (get_elem_length f).

Definition set_output_data (v : list float) (f : FAO) : FAO :=
  mkFAO (input_data f) v (input_edges f) (output_edges f) (input_sizes f)
    (output_sizes f) (input_offsets f) (output_offsets f) (forward_kernel f)
    (adjoint_kernel f) (get_elem_length f).

Definition set_input_offsets (m : gmap Z N) (f : FAO) : FAO :=
  mkFAO (input_data f) (output_data f) (input_edges f) (output_edges f)
    (input_sizes f) (output_sizes f) m (output_offsets f) (forward_kernel f)
    (adjoint_kernel f) (get_elem_length f).

Definition set_output_offsets (m : gmap Z N) (f : FAO) : FAO :=
  mkFAO (input_data f) (output_data f) (input_edges f) (output_edges f)
    (input_sizes f) (output_sizes f) (input_offsets f) m (forward_kernel f)
    (adjoint_kernel f) (get_elem_length f).

(** Modelled from the spec: [FAO::forward_eval] is not under src/; the
    node's forward kernel reads its input buffer and writes its output
    buffer. *)
Definition FAO_forward_eval (f : FAO) : FAO :=
  set_output_data (forward_kernel f (input_data f)) f.

(** Modelled from the spec: [FAO::adjoint_eval] is not under src/; the
    adjoint kernel swaps the roles, it reads the output buffer and writes
    the input buffer. *)
Definition FAO_adjoint_eval (f : FAO) : FAO :=
  set_input_data (adjoint_kernel f (output_data f)) f.

(** The remaining member functions of [FAO] that the engine calls,
    [alloc_data], [init_offset_maps] and [free_data], are parameters. *)
Class FAO_lifecycle := {
  alloc_data : FAO → FAO;
  init_offset_maps : FAO → FAO;
  free_data : FAO → FAO;
}.

(** Modelled from the spec: [gsl::vector_subvec_memcpy] is not under src/;
    it copies exactly [len] scalars from [src] at [soff] to [dst] at
    [doff]. Leaving either buffer is undefined behaviour ([None]). *)
Definition vector_subvec_memcpy (dst : list float) (doff : nat)
    (src : list float) (soff len : nat) : option (list float) :=
  if decide (doff + len ≤ length dst ∧ soff + len ≤ length src)
  then Some (take doff dst ++ take len (drop soff src) ++ drop (doff + len) dst)
  else None.

(** ** The engine (class [FAO_DAG]) *)

Record FAO_DAG := mkDAG {
  start_node : node;
  end_node : node;
  edges : gmap Z (node * node);
  ready_queue : list node;
  eval_map : gmap node N;
  forward_evals : Z;
  adjoint_evals : Z;
  total_forward_eval_time : float;
  total_adjoint_eval_time : float;
}.

Definition set_ready_queue (q : list node) (d : FAO_DAG) : FAO_DAG :=
  mkDAG (start_node d) (end_node d) (edges d) q (eval_map d) (forward_evals d)
    (adjoint_evals d) (total_forward_eval_time d) (total_adjoint_eval_time d).

Definition set_eval_map (m : gmap node N) (d : FAO_DAG) : FAO_DAG :=
  mkDAG (start_node d) (end_node d) (edges d) (ready_queue d) m
    (forward_evals d) (adjoint_evals d) (total_forward_eval_time d)
    (total_adjoint_eval_time d).

(** A per-node visitor (the [std::function] argument of [traverse_graph]):
    it may read and write the node objects. *)
Definition visitor : Type := node → gmap node FAO → outcome (gmap node FAO).

(** [eval_map[p]++] *)
Definition eval_map_incr (m : gmap node N) (p : node) : gmap node N :=
  <[p := size_t_succ (default 0%N (m !! p))]> m.

(** A range-based [for] loop whose body may fail. *)
Fixpoint for_each {S X : Type} (body : S → X → outcome S) (s : S)
    (xs : list X) : outcome S :=
  match xs with
  | [] => Done s
  | x :: rest => s' ← body s x; for_each body s' rest
  end.

(** The body of the inner [for] loop of [traverse_graph] (lines 96-111). A
    missing edge id makes [edges[edge_idx]] a pair of null pointers, whose
    dereference is undefined. *)
Definition visit_edge (forward : bool) (h : gmap node FAO) (d : FAO_DAG)
    (edge_idx : Z) : outcome FAO_DAG :=
  edge ← deref (edges d !! edge_idx);
  let nd := if forward then edge.2 else edge.1 in
  let d1 := set_eval_map (eval_map_incr (eval_map d) nd) d in
  fao ← deref (h !! nd);
  let node_inputs_count :=
    N.of_nat (length (if forward then input_edges fao else output_edges fao)) in
  if decide (default 0%N (eval_map d1 !! nd) = node_inputs_count)
  then Done (set_ready_queue (ready_queue d1 ++ [nd]) d1)
  else Done d1.

(** The body of the [while] loop of [traverse_graph] (lines 83-112), with
    [curr] the front of the queue and [rest] what [pop] leaves. *)
Definition traverse_body (node_fn : visitor) (forward : bool) (curr : node)
    (rest : list node) (d : FAO_DAG) (h : gmap node FAO)
    : outcome (FAO_DAG * gmap node FAO) :=
  let d1 := set_ready_queue rest d in
  h1 ← node_fn curr h;
  let d2 := set_eval_map (eval_map_incr (eval_map d1) curr) d1 in
  fao ← deref (h1 !! curr);
  let child_edges := if forward then output_edges fao else input_edges fao in
  d3 ← for_each (visit_edge forward h1) d2 child_edges;
  Done (d3, h1).

(** The [while] loop of [traverse_graph] (lines 82-113). [log] records, in
    order, the nodes the visitor was applied to; it is not part of the
    program. *)
Fixpoint traverse_loop (fuel : nat) (node_fn : visitor) (forward : bool)
    (d : FAO_DAG) (h : gmap node FAO) (log : list node)
    : outcome (FAO_DAG * gmap node FAO * list node) :=
  match ready_queue d with
  | [] => Done (d, h, log)
  | curr :: rest =>
      match fuel with
      | O => OutOfFuel
      | S fuel' =>
          '(d', h') ← traverse_body node_fn forward curr rest d h;
          traverse_loop fuel' node_fn forward d' h' (log ++ [curr])
      end
  end.

(** The state of the [while] loop after its first [n] iterations (or at
    its exit, when that comes earlier). *)
Fixpoint traverse_steps (n : nat) (node_fn : visitor) (forward : bool)
    (d : FAO_DAG) (h : gmap node FAO) (log : list node)
    : outcome (FAO_DAG * gmap node FAO * list node) :=
  match n with
  | O => Done (d, h, log)
  | S n' =>
      match ready_queue d with
      | [] => Done (d, h, log)
      | curr :: rest =>
          '(d', h') ← traverse_body node_fn forward curr rest d h;
          traverse_steps n' node_fn forward d' h' (log ++ [curr])
      end
  end.

(** [FAO_DAG::traverse_graph] (lines 69-115). *)
Definition traverse_graph (fuel : nat) (node_fn : visitor) (forward : bool)
    (d : FAO_DAG) (h : gmap node FAO)
    : outcome (FAO_DAG * gmap node FAO * list node) :=
  let start := if forward then start_node d else end_node d in
  '(d', h', log) ← traverse_loop fuel node_fn forward
                     (set_ready_queue (ready_queue d ++ [start]) d) h [];
  Done (set_eval_map ∅ d', h', log).

(** *** Boundary buffers *)

(** A pointer to one of the two buffers of a node. *)
Inductive buffer_role := InputData | OutputData.

Definition get_forward_input (d : FAO_DAG) : node * buffer_role :=
  (start_node d, InputData).

Definition get_forward_output (d : FAO_DAG) : node * buffer_role :=
  (end_node d, OutputData).

Definition get_adjoint_input (d : FAO_DAG) : node * buffer_role :=
  get_forward_output d.

Definition get_adjoint_output (d : FAO_DAG) : node * buffer_role :=
  get_forward_input d.

Definition buffer_of (r : buffer_role) (f : FAO) : list float :=
  match r with InputData => input_data f | OutputData => output_data f end.

Definition set_buffer (r : buffer_role) (v : list float) (f : FAO) : FAO :=
  match r with
  | InputData => set_input_data v f
  | OutputData => set_output_data v f
  end.

(** What a buffer pointer points to. *)
Definition read_buffer (p : node * buffer_role) (h : gmap node FAO)
    : option (list float) :=
  buffer_of p.2 <$> h !! p.1.

(** Modelled from the spec: [gsl::vector_memcpy] into a buffer is not under
    src/; it marshals a flat array into the buffer, filling the [size]
    elements of the buffer from the start of the array. *)
Definition vector_memcpy_from_array (buf arr : list float) : list float :=
  take (length buf) arr.

(** Modelled from the spec: [gsl::vector_memcpy] out of a buffer is not
    under src/; it marshals the [size] elements of the buffer into the start
    of the flat array. *)
Definition vector_memcpy_to_array (arr buf : list float) : list float :=
  buf ++ drop (length buf) arr.

(** [FAO_DAG::copy_input] (lines 118-127). *)
Definition copy_input (input : list float) (forward : bool) (d : FAO_DAG)
    (h : gmap node FAO) : outcome (gmap node FAO) :=
  let input_vec := if forward then get_forward_input d else get_adjoint_input d in
  f ← deref (h !! input_vec.1);
  _ ← assert (bool_decide (length input = length (buffer_of input_vec.2 f)));
  Done (<[input_vec.1 :=
            set_buffer input_vec.2
              (vector_memcpy_from_array (buffer_of input_vec.2 f) input) f]> h).

(** [FAO_DAG::copy_output] (lines 129-138): the result is the new content
    of the array [output]. *)
Definition copy_output (output : list float) (forward : bool) (d : FAO_DAG)
    (h : gmap node FAO) : outcome (list float) :=
  let output_vec :=
    if forward then get_forward_output d else get_adjoint_output d in
  f ← deref (h !! output_vec.1);
  _ ← assert (bool_decide (length output = length (buffer_of output_vec.2 f)));
  Done (vector_memcpy_to_array output (buffer_of output_vec.2 f)).

(** *** Evaluation *)

(** One iteration of the copy loop of the forward visitor (lines 166-173). *)
Definition propagate_forward (E : gmap Z (node * node)) (nd : node)
    (h : gmap node FAO) (i : nat) : outcome (gmap node FAO) :=
  f ← deref (h !! nd);
  edge_idx ← deref (output_edges f !! i);
  edge ← deref (E !! edge_idx);
  let target := edge.2 in
  shape ← deref (output_sizes f !! i);
  let len := get_elem_length f shape in
  let '(node_offset, offs) := map_subscript 0%N (output_offsets f) edge_idx in
  let h1 := <[nd := set_output_offsets offs f]> h in
  t ← deref (h1 !! target);
  let '(target_offset, toffs) := map_subscript 0%N (input_offsets t) edge_idx in
  let t1 := set_input_offsets toffs t in
  let h2 := <[target := t1]> h1 in
  src ← deref (h2 !! nd);
  buf ← deref (vector_subvec_memcpy (input_data t1) (N.to_nat target_offset)
                 (output_data src) (N.to_nat node_offset) (N.to_nat len));
  Done (<[target := set_input_data buf t1]> h2).

(** The visitor of [forward_eval] (lines 162-175). *)
Definition node_eval_forward (E : gmap Z (node * node)) : visitor := λ nd h,
  f ← deref (h !! nd);
  for_each (propagate_forward E nd) (<[nd := FAO_forward_eval f]> h)
    (seq 0 (length (output_edges f))).

(** One iteration of the copy loop of the adjoint visitor (lines 190-197). *)
Definition propagate_adjoint (E : gmap Z (node * node)) (nd : node)
    (h : gmap node FAO) (i : nat) : outcome (gmap node FAO) :=
  f ← deref (h !! nd);
  edge_idx ← deref (input_edges f !! i);
  edge ← deref (E !! edge_idx);
  let target := edge.1 in
  shape ← deref (input_sizes f !! i);
  let len := get_elem_length f shape in
  let '(node_offset, offs) := map_subscript 0%N (input_offsets f) edge_idx in
  let h1 := <[nd := set_input_offsets offs f]> h in
  t ← deref (h1 !! target);
  let '(target_offset, toffs) := map_subscript 0%N (output_offsets t) edge_idx in
  let t1 := set_output_offsets toffs t in
  let h2 := <[target := t1]> h1 in
  src ← deref (h2 !! nd);
  buf ← deref (vector_subvec_memcpy (output_data t1) (N.to_nat target_offset)
                 (input_data src) (N.to_nat node_offset) (N.to_nat len));
  Done (<[target := set_output_data buf t1]> h2).

(** The visitor of [adjoint_eval] (lines 186-199). *)
Definition node_eval_adjoint (E : gmap Z (node * node)) : visitor := λ nd h,
  f ← deref (h !! nd);
  for_each (propagate_adjoint E nd) (<[nd := FAO_adjoint_eval f]> h)
    (seq 0 (length (input_edges f))).

(** [FAO_DAG::forward_eval] (lines 161-182); [t0] and [t1] are the two
    readings of the timer. *)
Definition forward_eval (fuel : nat) (t0 t1 : float) (d : FAO_DAG)
    (h : gmap node FAO) : outcome (FAO_DAG * gmap node FAO) :=
  '(d', h', _) ← traverse_graph fuel (node_eval_forward (edges d)) true d h;
  Done (mkDAG (start_node d') (end_node d') (edges d') (ready_queue d')
          (eval_map d') (int_succ (forward_evals d')) (adjoint_evals d')
          (total_forward_eval_time d' + (t1 - t0))%float
          (total_adjoint_eval_time d'), h').

(** [FAO_DAG::adjoint_eval] (lines 185-206). *)
Definition adjoint_eval (fuel : nat) (t0 t1 : float) (d : FAO_DAG)
    (h : gmap node FAO) : outcome (FAO_DAG * gmap node FAO) :=
  '(d', h', _) ← traverse_graph fuel (node_eval_adjoint (edges d)) false d h;
  Done (mkDAG (start_node d') (end_node d') (edges d') (ready_queue d')
          (eval_map d') (forward_evals d') (int_succ (adjoint_evals d'))
          (total_forward_eval_time d')
          (total_adjoint_eval_time d' + (t1 - t0))%float, h').

(** *** Construction and teardown *)

(** The allocation visitor of the constructor (lines 51-54). *)
Definition node_alloc `{FAO_lifecycle} : visitor := λ nd h,
  f ← deref (h !! nd);
  Done (<[nd := init_offset_maps (alloc_data f)]> h).

(** The constructor (lines 45-56). *)
Definition FAO_DAG_new `{FAO_lifecycle} (fuel : nat) (start_node end_node : node)
    (edges : gmap Z (node * node)) (h : gmap node FAO)
    : outcome (FAO_DAG * gmap node FAO) :=
  let d := mkDAG start_node end_node edges [] ∅ 0 0 0 0 in
  '(d', h', _) ← traverse_graph fuel node_alloc true d h;
  Done (d', h').

(** The deallocation visitor of the destructor (line 65). *)
Definition node_free `{FAO_lifecycle} : visitor := λ nd h,
  f ← deref (h !! nd);
  Done (<[nd := free_data f]> h).

(** What the destructor prints (lines 60-63): the two call counts and the
    two average times. *)
Record report := mkReport {
  rep_forward_evals : Z;
  rep_avg_forward_eval_time : float;
  rep_adjoint_evals : Z;
  rep_avg_adjoint_eval_time : float;
}.

Definition teardown_report (d : FAO_DAG) : report :=
  mkReport (forward_evals d)
    (total_forward_eval_time d / double_of_int (forward_evals d))%float
    (adjoint_evals d)
    (total_adjoint_eval_time d / double_of_int (adjoint_evals d))%float.

(** The destructor (lines 58-67). *)
Definition FAO_DAG_delete `{FAO_lifecycle} (fuel : nat) (d : FAO_DAG)
    (h : gmap node FAO) : outcome (report * gmap node FAO) :=
  let printed := teardown_report d in
  '(_, h', _) ← traverse_graph fuel node_free true d h;
  Done (printed, h').

(** ** The host's use of the engine *)

(** A call of the host on a constructed engine. *)
Inductive call :=
| CallForwardEval (t0 t1 : float)
| CallAdjointEval (t0 t1 : float)
| CallCopyInput (input : list float) (forward : bool)
| CallCopyOutput (output : list float) (forward : bool).

Definition run_call (fuel : nat) (s : FAO_DAG * gmap node FAO) (c : call)
    : outcome (FAO_DAG * gmap node FAO) :=
  match c with
  | CallForwardEval t0 t1 => forward_eval fuel t0 t1 s.1 s.2
  | CallAdjointEval t0 t1 => adjoint_eval fuel t0 t1 s.1 s.2
  | CallCopyInput input forward =>
      h' ← copy_input input forward s.1 s.2; Done (s.1, h')
  | CallCopyOutput output forward =>
      _ ← copy_output output forward s.1 s.2; Done s
  end.

(** Consecutive traversals of one engine, each with its own visitor and
    direction; the result carries the visit log of each. *)
Fixpoint traverse_passes (fuel : nat) (passes : list (visitor * bool))
    (d : FAO_DAG) (h : gmap node FAO)
    : outcome (FAO_DAG * gmap node FAO * list (list node)) :=
  match passes with
  | [] => Done (d, h, [])
  | pass :: rest =>
      '(d1, h1, log) ← traverse_graph fuel pass.1 pass.2 d h;
      '(d2, h2, logs) ← traverse_passes fuel rest d1 h1;
      Done (d2, h2, log :: logs)
  end.

(** Two engines on the same graph. *)
Definition same_graph (d d' : FAO_DAG) : Prop :=
  start_node d' = start_node d ∧ end_node d' = end_node d ∧
  edges d' = edges d.

(** The image of a result. *)
Definition outcome_map {A B} (g : A → B) (o : outcome A) : outcome B :=
  x ← o; Done (g x).

(** ** Graphs: the declared invariants of the topology *)

(** The far end and the near end of an edge in a direction of travel. *)
Definition far_end (forward : bool) (edge : node * node) : node :=
  if forward then edge.2 else edge.1.

Definition near_end (forward : bool) (edge : node * node) : node :=
  if forward then edge.1 else edge.2.

(** The edge lists a node declares: the one it propagates along ([outs])
    and the one it waits for ([ins]) in a direction of travel. *)
Definition outs (forward : bool) (h : gmap node FAO) (v : node) : list Z :=
  match h !! v with
  | Some f => if forward then output_edges f else input_edges f
  | None => []
  end.

Definition ins (forward : bool) (h : gmap node FAO) (v : node) : list Z :=
  match h !! v with
  | Some f => if forward then input_edges f else output_edges f
  | None => []
  end.

(** [u] is the source and [v] the destination of some edge of the table. *)
Definition edge_rel (E : gmap Z (node * node)) (u v : node) : Prop :=
  ∃ e, E !! e = Some (u, v).

(** One step of travel: along an edge when forward, against it otherwise. *)
Definition dstep (forward : bool) (E : gmap Z (node * node)) (u v : node)
    : Prop :=
  if forward then edge_rel E u v else edge_rel E v u.

(** Where a traversal is seeded. *)
Definition seed (forward : bool) (d : FAO_DAG) : node :=
  if forward then start_node d else end_node d.

(** The nodes a traversal can reach from its seed. *)
Definition reachable (forward : bool) (d : FAO_DAG) (v : node) : Prop :=
  rtc (dstep forward (edges d)) (seed forward d) v.

(** The edge-id lists of the nodes agree with the edge table: every end of
    an edge is a node of the store, and each node lists, without repeats,
    exactly the edges that leave it and exactly the edges that enter it. *)
Record lists_consistent (E : gmap Z (node * node)) (h : gmap node FAO)
    : Prop := {
  lc_live : ∀ e u v, E !! e = Some (u, v) → is_Some (h !! u) ∧ is_Some (h !! v);
  lc_out_nodup : ∀ u f, h !! u = Some f → NoDup (output_edges f);
  lc_out : ∀ u f e, h !! u = Some f →
    e ∈ output_edges f ↔ ∃ v, E !! e = Some (u, v);
  lc_in_nodup : ∀ v f, h !! v = Some f → NoDup (input_edges f);
  lc_in : ∀ v f e, h !! v = Some f →
    e ∈ input_edges f ↔ ∃ u, E !! e = Some (u, v);
}.

(** The invariants the engine trusts, for one direction of travel: the
    lists are consistent with the table, the graph is acyclic, the seed is
    a node, every edge into a reachable node comes from a reachable node
    (so that the declared count of a node is the number of arrivals it
    will see), and the table has fewer entries than a [size_t] counts. *)
Record well_formed (forward : bool) (d : FAO_DAG) (h : gmap node FAO)
    : Prop := {
  wf_lists : lists_consistent (edges d) h;
  wf_acyclic : ∀ v, ¬ tc (edge_rel (edges d)) v v;
  wf_seed : is_Some (h !! seed forward d);
  wf_fed : ∀ u v, dstep forward (edges d) u v →
    reachable forward d v → reachable forward d u;
  wf_size : (N.of_nat (size (edges d)) + 1 < 2 ^ 64)%N;
}.

(** No traversal is under way. *)
Definition idle (d : FAO_DAG) : Prop :=
  ready_queue d = [] ∧ eval_map d = ∅.

(** Two stores hold the same nodes with the same edge lists. *)
Definition edge_lists (f : FAO) : list Z * list Z :=
  (input_edges f, output_edges f).

Definition same_topology (h h' : gmap node FAO) : Prop :=
  ∀ p, edge_lists <$> h' !! p = edge_lists <$> h !! p.

(** A visitor that returns on every node of the store and leaves the edge
    lists alone. *)
Definition visitor_ok (h0 : gmap node FAO) (node_fn : visitor) : Prop :=
  ∀ nd h, same_topology h0 h → is_Some (h !! nd) →
    ∃ h', node_fn nd h = Done h' ∧ same_topology h0 h'.

(** The invariant of the scheduler. [L] lists the edges whose arrival has
    been counted, [V] the nodes visited so far, [Q] is the queue and [M] the
    arrival counters: no node is pushed twice; the pushed nodes are the
    reachable ones whose waited-for edges have all arrived; a counter holds
    the arrivals of its node, plus one once the node was visited. *)
Record sched_inv (forward : bool) (E : gmap Z (node * node))
    (h0 : gmap node FAO) (root : node) (L : list Z) (V Q : list node)
    (M : gmap node N) : Prop := {
  si_nodup : NoDup (V ++ Q);
  si_mem : ∀ v, v ∈ V ++ Q ↔
    rtc (dstep forward E) root v ∧ ∀ e, e ∈ ins forward h0 v → e ∈ L;
  si_cnt : ∀ v, default 0%N (M !! v) =
    N.of_nat (length (filter (.∈ L) (ins forward h0 v)) +
              (if decide (v ∈ V) then 1 else 0));
}.

(** ** The two evaluation visitors as one *)

(** The members a visitor uses, named by their role in the direction of
    travel: a node propagates from its own buffer ([output_data] when
    forward) into the far buffer of the node at the other end of the edge
    ([input_data] when forward). *)
Definition own_edges (forward : bool) (f : FAO) : list Z :=
  if forward then output_edges f else input_edges f.
Definition own_sizes (forward : bool) (f : FAO) : list (list N) :=
  if forward then output_sizes f else input_sizes f.
Definition own_offsets (forward : bool) (f : FAO) : gmap Z N :=
  if forward then output_offsets f else input_offsets f.
Definition far_offsets (forward : bool) (f : FAO) : gmap Z N :=
  if forward then input_offsets f else output_offsets f.
Definition own_data (forward : bool) (f : FAO) : list float :=
  if forward then output_data f else input_data f.
Definition far_data (forward : bool) (f : FAO) : list float :=
  if forward then input_data f else output_data f.
Definition set_own_offsets (forward : bool) (m : gmap Z N) (f : FAO) : FAO :=
  if forward then set_output_offsets m f else set_input_offsets m f.
Definition set_far_offsets (forward : bool) (m : gmap Z N) (f : FAO) : FAO :=
  if forward then set_input_offsets m f else set_output_offsets m f.
Definition set_far_data (forward : bool) (v : list float) (f : FAO) : FAO :=
  if forward then set_input_data v f else set_output_data v f.
Definition kernel (forward : bool) (f : FAO) : list float → list float :=
  if forward then forward_kernel f else adjoint_kernel f.
Definition run_kernel (forward : bool) (f : FAO) : FAO :=
  if forward then FAO_forward_eval f else FAO_adjoint_eval f.

(** [propagate true] is [propagate_forward], [propagate false] is
    [propagate_adjoint]. *)
Definition propagate (forward : bool) (E : gmap Z (node * node)) (nd : node)
    (h : gmap node FAO) (i : nat) : outcome (gmap node FAO) :=
  f ← deref (h !! nd);
  edge_idx ← deref (own_edges forward f !! i);
  edge ← deref (E !! edge_idx);
  let target := far_end forward edge in
  shape ← deref (own_sizes forward f !! i);
  let len := get_elem_length f shape in
  let '(node_offset, offs) :=
    map_subscript 0%N (own_offsets forward f) edge_idx in
  let h1 := <[nd := set_own_offsets forward offs f]> h in
  t ← deref (h1 !! target);
  let '(target_offset, toffs) :=
    map_subscript 0%N (far_offsets forward t) edge_idx in
  let t1 := set_far_offsets forward toffs t in
  let h2 := <[target := t1]> h1 in
  src ← deref (h2 !! nd);
  buf ← deref (vector_subvec_memcpy (far_data forward t1)
                 (N.to_nat target_offset) (own_data forward src)
                 (N.to_nat node_offset) (N.to_nat len));
  Done (<[target := set_far_data forward buf t1]> h2).

(** [node_eval true] is [node_eval_forward], [node_eval false] is
    [node_eval_adjoint]. *)
Definition node_eval (forward : bool) (E : gmap Z (node * node)) : visitor :=
  λ nd h,
  f ← deref (h !! nd);
  for_each (propagate forward E nd) (<[nd := run_kernel forward f]> h)
    (seq 0 (length (own_edges forward f))).

(** What the copy for position [i] of a node's edge list moves: [x_len]
    scalars from index [x_from] of the node's own buffer to index [x_to] of
    the far buffer of node [x_target]. The length comes from the shape the
    sending node declares at position [i]. *)
Record xfer := mkXfer {
  x_target : node;
  x_len : nat;
  x_from : nat;
  x_to : nat;
}.

Definition edge_xfer (forward : bool) (E : gmap Z (node * node))
    (h : gmap node FAO) (f : FAO) (i : nat) : option xfer :=
  e ← own_edges forward f !! i;
  edge ← E !! e;
  shape ← own_sizes forward f !! i;
  off ← own_offsets forward f !! e;
  tf ← h !! far_end forward edge;
  toff ← far_offsets forward tf !! e;
  Some (mkXfer (far_end forward edge) (N.to_nat (get_elem_length f shape))
          (N.to_nat off) (N.to_nat toff)).

(** The index [j] of the far buffer of node [p] is written by transfer [x]. *)
Definition x_covers (x : xfer) (p : node) (j : nat) : Prop :=
  x_target x = p ∧ x_to x ≤ j < x_to x + x_len x.

(** ** Layouts *)

(** A node without the content of its buffers. *)
Definition erase_data (f : FAO) : FAO :=
  set_input_data [] (set_output_data [] f).

(** Two nodes that differ at most in the content of their buffers. *)
Definition same_shape (f f' : FAO) : Prop :=
  erase_data f = erase_data f' ∧
  length (input_data f) = length (input_data f') ∧
  length (output_data f) = length (output_data f').

(** Two stores that differ at most in the content of the buffers. *)
Definition same_layout (h h' : gmap node FAO) : Prop :=
  ∀ p, option_Forall2 same_shape (h !! p) (h' !! p).

(** The layout the lifecycle manager is to establish (spec 4.2), for one
    direction of travel: a kernel fills its buffer exactly; every position
    of an edge list has a shape and both offsets, and its transfer stays
    inside both buffers; the transfers of two different positions never
    write the same cell. *)
Record layout_ok (forward : bool) (E : gmap Z (node * node))
    (h : gmap node FAO) : Prop := {
  lo_kernel : ∀ u f v, h !! u = Some f →
    length v = length (far_data forward f) →
    length (kernel forward f v) = length (own_data forward f);
  lo_xfer : ∀ u f i, h !! u = Some f → i < length (own_edges forward f) →
    ∃ x tf, edge_xfer forward E h f i = Some x ∧
      h !! x_target x = Some tf ∧
      x_from x + x_len x ≤ length (own_data forward f) ∧
      x_to x + x_len x ≤ length (far_data forward tf);
  lo_disjoint : ∀ u f i x u' f' i' x' p j,
    h !! u = Some f → edge_xfer forward E h f i = Some x →
    h !! u' = Some f' → edge_xfer forward E h f' i' = Some x' →
    (u, i) ≠ (u', i') → x_covers x p j → ¬ x_covers x' p j;
}.

(** Node [c] holds the result of its kernel and all its far ends hold what
    it propagates: applying the visitor to [c] again would change nothing. *)
Definition settled (forward : bool) (E : gmap Z (node * node))
    (h : gmap node FAO) (c : node) : Prop :=
  ∃ f, h !! c = Some f ∧
    own_data forward f = kernel forward f (far_data forward f) ∧
    ∀ i, i < length (own_edges forward f) →
      ∃ x tf, edge_xfer forward E h f i = Some x ∧
        h !! x_target x = Some tf ∧
        x_from x + x_len x ≤ length (own_data forward f) ∧
        x_to x + x_len x ≤ length (far_data forward tf) ∧
        ∀ k, k < x_len x →
          far_data forward tf !! (x_to x + k) =
          own_data forward f !! (x_from x + k).

(** Cell [j] of the far buffer of node [p]. *)
Definition far_cell (forward : bool) (h : gmap node FAO) (p : node) (j : nat)
    : option float :=
  f ← h !! p; far_data forward f !! j.

(** ** Redeclaring shapes *)

Definition set_input_sizes (s : list (list N)) (f : FAO) : FAO :=
  mkFAO (input_data f) (output_data f) (input_edges f) (output_edges f) s
    (output_sizes f) (input_offsets f) (output_offsets f) (forward_kernel f)
    (adjoint_kernel f) (get_elem_length f).

Definition set_output_sizes (s : list (list N)) (f : FAO) : FAO :=
  mkFAO (input_data f) (output_data f) (input_edges f) (output_edges f)
    (input_sizes f) s (input_offsets f) (output_offsets f) (forward_kernel f)
    (adjoint_kernel f) (get_elem_length f).

(** Replace the shapes a node declares for the edges it receives from in a
    direction of travel ([input_sizes] when forward). *)
Definition redeclare_far (forward : bool) (s : list (list N)) (f : FAO) : FAO :=
  if forward then set_input_sizes s f else set_output_sizes s f.

(** ** Executable checks of the invariants *)

(** The edge lists agree with the edge table. *)
Definition lists_consistentb (E : gmap Z (node * node)) (h : gmap node FAO)
    : bool :=
  bool_decide (map_Forall (λ _ pr, is_Some (h !! pr.1) ∧ is_Some (h !! pr.2)) E)
  && bool_decide (map_Forall (λ u f,
       NoDup (output_edges f) ∧ NoDup (input_edges f) ∧
       Forall (λ e, fst <$> E !! e = Some u) (output_edges f) ∧
       Forall (λ e, snd <$> E !! e = Some u) (input_edges f)) h)
  && bool_decide (map_Forall (λ e pr,
       e ∈ outs true h pr.1 ∧ e ∈ ins true h pr.2) E).

(** A numbering of the nodes that grows along every edge. *)
Definition ranked (rank : node → nat) (E : gmap Z (node * node)) : Prop :=
  map_Forall (λ _ pr, rank pr.1 < rank pr.2) E.

(** The nodes reached from [root] in at most [n] steps of travel. *)
Definition reach_step (forward : bool) (E : gmap Z (node * node))
    (X : gset node) : gset node :=
  X ∪ list_to_set
        (omap (λ ep, if decide (near_end forward ep.2 ∈ X)
                     then Some (far_end forward ep.2) else None)
           (map_to_list E)).

Fixpoint reach_set (forward : bool) (E : gmap Z (node * node)) (root : node)
    (n : nat) : gset node :=
  match n with
  | O => {[root]}
  | S n' => reach_step forward E (reach_set forward E root n')
  end.

(** Every edge starts at a node the traversal reaches. *)
Definition all_fedb (forward : bool) (E : gmap Z (node * node)) (root : node)
    : bool :=
  bool_decide (map_Forall (λ _ pr,
    near_end forward pr ∈ reach_set forward E root (size E)) E).

Definition well_formedb (forward : bool) (rank : node → nat) (d : FAO_DAG)
    (h : gmap node FAO) : bool :=
  lists_consistentb (edges d) h
  && bool_decide (ranked rank (edges d))
  && bool_decide (is_Some (h !! seed forward d))
  && all_fedb forward (edges d) (seed forward d)
  && bool_decide (N.of_nat (size (edges d)) + 1 < 2 ^ 64)%N.

(** Executable check of the layout: every transfer is defined and stays
    inside both buffers, and two transfers into the same node do not
    overlap. *)
Definition xfer_fitsb (forward : bool) (E : gmap Z (node * node))
    (h : gmap node FAO) (f : FAO) (i : nat) : bool :=
  match edge_xfer forward E h f i with
  | Some x =>
      match h !! x_target x with
      | Some tf =>
          bool_decide (x_from x + x_len x ≤ length (own_data forward f) ∧
                       x_to x + x_len x ≤ length (far_data forward tf))
      | None => false
      end
  | None => false
  end.

Definition all_xfers (forward : bool) (E : gmap Z (node * node))
    (h : gmap node FAO) : list (node * nat * xfer) :=
  uf ← map_to_list h;
  i ← seq 0 (length (own_edges forward uf.2));
  match edge_xfer forward E h uf.2 i with
  | Some x => [(uf.1, i, x)]
  | None => []
  end.

Definition xfers_apart (a b : node * nat * xfer) : Prop :=
  a.1 = b.1 ∨ x_target a.2 ≠ x_target b.2 ∨
  x_to a.2 + x_len a.2 ≤ x_to b.2 ∨ x_to b.2 + x_len b.2 ≤ x_to a.2.

Definition layout_okb (forward : bool) (E : gmap Z (node * node))
    (h : gmap node FAO) : bool :=
  bool_decide (map_Forall (λ _ f,
    Forall (λ i, xfer_fitsb forward E h f i = true)
      (seq 0 (length (own_edges forward f)))) h)
  && bool_decide (Forall (λ a, Forall (xfers_apart a) (all_xfers forward E h))
                    (all_xfers forward E h)).

(** Every kernel returns as many values as it is given, and the two
    buffers of every node have the same length. *)
Definition kernels_keep_length (forward : bool) (h : gmap node FAO) : Prop :=
  map_Forall (λ _ f,
    length (far_data forward f) = length (own_data forward f) ∧
    ∀ v, length (kernel forward f v) = length v) h.

(** ** Example graphs *)

(** A node with empty buffers and identity kernels. *)
Definition bare_node (ins outs : list Z) : FAO :=
  mkFAO [] [] ins outs [] [] ∅ ∅ (λ x, x) (λ x, x) (λ _, 0%N).

(** The diamond 0 → {1, 2} → 3. *)
Definition diamond_edges : gmap Z (node * node) :=
  list_to_map [(0%Z, (0, 1)); (1%Z, (0, 2)); (2%Z, (1, 3)); (3%Z, (2, 3))].

Definition diamond_nodes : gmap node FAO :=
  list_to_map [(0, bare_node [] [0; 1]%Z); (1, bare_node [0%Z] [2%Z]);
               (2, bare_node [1%Z] [3%Z]); (3, bare_node [2; 3]%Z [])].

Definition diamond : FAO_DAG := mkDAG 0 3 diamond_edges [] ∅ 0 0 0 0.

(** The visitor that does nothing. *)
Definition node_skip : visitor := λ _ h, Done h.

(** Lifecycle functions that only touch the buffers and the offset maps. *)
#[export] Instance clearing_lifecycle : FAO_lifecycle := {|
  alloc_data f := f;
  init_offset_maps f := f;
  free_data f := set_input_data [] (set_output_data [] f);
|}.

(** The element count of a shape: the product of its dimensions. *)
Definition shape_elems (shape : list N) : N := foldr N.mul 1%N shape.

(** The chain 0 → 1 → 2 on vectors of two elements, edge 10 from 0 to 1
    and edge 11 from 1 to 2: node 0 doubles, node 1 adds one, node 2
    negates (forward); the adjoint kernels double, copy and negate. *)
Definition chain_edges : gmap Z (node * node) :=
  list_to_map [(10%Z, (0, 1)); (11%Z, (1, 2))].

Definition chain_a : FAO :=
  mkFAO [1.5; 2]%float [0; 0]%float [] [10%Z] [] [[2%N]] ∅ {[10%Z := 0%N]}
    (fmap (λ x, x * 2)%float) (fmap (λ x, x * 2)%float) shape_elems.

Definition chain_b : FAO :=
  mkFAO [0; 0]%float [0; 0]%float [10%Z] [11%Z] [[2%N]] [[2%N]]
    {[10%Z := 0%N]} {[11%Z := 0%N]}
    (fmap (λ x, x + 1)%float) (λ x, x) shape_elems.

Definition chain_c : FAO :=
  mkFAO [0; 0]%float [0; 0]%float [11%Z] [] [[2%N]] [] {[11%Z := 0%N]} ∅
    (fmap (λ x, - x)%float) (fmap (λ x, - x)%float) shape_elems.

Definition chain_nodes : gmap node FAO :=
  list_to_map [(0, chain_a); (1, chain_b); (2, chain_c)].

Definition chain : FAO_DAG := mkDAG 0 2 chain_edges [] ∅ 0 0 0 0.

(** The chain engine after some host calls (the chain itself if they fail). *)
Definition chain_after (cs : list call) : FAO_DAG * gmap node FAO :=
  match for_each (run_call 5) (chain, chain_nodes) cs with
  | Done s => s
  | _ => (chain, chain_nodes)
  end.

(** A sender (node 0) with two edges into one receiver (node 1): edge 20
    carries two scalars to offset 1, edge 21 one scalar to offset 3. *)
Definition fan_edges : gmap Z (node * node) :=
  list_to_map [(20%Z, (0, 1)); (21%Z, (0, 1))].

Definition fan_sender : FAO :=
  mkFAO [7; 8; 9]%float [0; 0; 0]%float [] [20; 21]%Z [] [[2%N]; [1%N]]
    ∅ (list_to_map [(20%Z, 0%N); (21%Z, 2%N)]) (λ x, x) (λ x, x) shape_elems.

Definition fan_receiver : FAO :=
  mkFAO [0; 0; 0; 0]%float [0; 0; 0; 0]%float [20; 21]%Z []
    [[2%N]; [1%N]] [] (list_to_map [(20%Z, 1%N); (21%Z, 3%N)]) ∅
    (λ x, x) (λ x, x) shape_elems.

Definition fan_nodes : gmap node FAO :=
  list_to_map [(0, fan_sender); (1, fan_receiver)].

(** The same pair with the receiver declaring one scalar per edge (offsets
    0 and 1) while the sender still declares two scalars for edge 20, and
    the sender listing edge 21 first. *)
Definition mismatch_nodes : gmap node FAO :=
  list_to_map [
    (0, mkFAO [7; 8; 9]%float [0; 0; 0]%float [] [21; 20]%Z [] [[1%N]; [2%N]]
          ∅ (list_to_map [(20%Z, 0%N); (21%Z, 2%N)])
          (λ x, x) (λ x, x) shape_elems);
    (1, mkFAO [0; 0]%float [] [20; 21]%Z [] [[1%N]; [1%N]] []
          (list_to_map [(20%Z, 0%N); (21%Z, 1%N)]) ∅
          (λ x, x) (λ x, x) shape_elems)].

(** A single node without edges whose kernels are the identity. *)
Definition single_node : FAO :=
  mkFAO [3; 4]%float [0; 0]%float [] [] [] [] ∅ ∅ (λ x, x) (λ x, x)
    shape_elems.

Definition single : FAO_DAG := mkDAG 0 0 ∅ [] ∅ 0 0 0 0.

(** ** The statistics of a sequence of host calls *)

Definition is_forward_eval (c : call) : bool :=
  match c with CallForwardEval _ _ => true | _ => false end.

Definition is_adjoint_eval (c : call) : bool :=
  match c with CallAdjointEval _ _ => true | _ => false end.

(** The number of forward (adjoint) evaluations among the calls. *)
Definition forward_calls (cs : list call) : nat :=
  length (List.filter is_forward_eval cs).

Definition adjoint_calls (cs : list call) : nat :=
  length (List.filter is_adjoint_eval cs).

(** The timer differences of the forward (adjoint) evaluations among the
    calls, added up in call order starting from [acc]. *)
Definition forward_time (acc : float) (cs : list call) : float :=
  foldl (λ a c, match c with
                | CallForwardEval t0 t1 => (a + (t1 - t0))%float
                | _ => a
                end) acc cs.

Definition adjoint_time (acc : float) (cs : list call) : float :=
  foldl (λ a c, match c with
                | CallAdjointEval t0 t1 => (a + (t1 - t0))%float
                | _ => a
                end) acc cs.

(** Two forward evaluations, of 2 and 3 time units, a copy out and one
    adjoint evaluation of 1 time unit. *)
Definition sample_calls : list call :=
  [CallForwardEval 1 3; CallCopyOutput [0; 0]%float true;
   CallForwardEval 3 6; CallAdjointEval 6 7].

(** ** More example graphs *)

(** The chain with one more node, 7, that no edge touches. *)
Definition island_nodes : gmap node FAO := <[7 := single_node]> chain_nodes.


(** The chain after its global input was filled with 5 and 6. *)
Definition chain_filled : gmap node FAO :=
  <[0 := set_input_data [5; 6]%float chain_a]> chain_nodes.

(** ** The scheduler on graphs that need not be acyclic *)

(** What the scheduler keeps on any graph. [A] lists, in order, the nodes
    pushed by the inner loop: none was pushed twice, each is a node of the
    store at the far end of some edge, its counter has reached its edge
    count, and no counter exceeds [bound]. *)
Record push_inv (forward : bool) (E : gmap Z (node * node))
    (h0 : gmap node FAO) (A : list node) (M : gmap node N) (bound : nat)
    : Prop := {
  pi_nodup : NoDup A;
  pi_count : ∀ v, v ∈ A →
    (N.of_nat (length (ins forward h0 v)) ≤ default 0 (M !! v))%N;
  pi_far : ∀ v, v ∈ A → ∃ u, dstep forward E u v;
  pi_live : ∀ v, v ∈ A → is_Some (h0 !! v);
  pi_bound : ∀ v, (default 0 (M !! v) ≤ N.of_nat bound)%N;
}.

(** A start node on a cycle: edge 30 from 0 to 1, edges 31 and 32 from 1
    back to 0. *)
Definition lasso_edges : gmap Z (node * node) :=
  list_to_map [(30%Z, (0, 1)); (31%Z, (1, 0)); (32%Z, (1, 0))].

Definition lasso_nodes : gmap node FAO :=
  list_to_map [(0, bare_node [31; 32]%Z [30%Z]);
               (1, bare_node [30%Z] [31; 32]%Z)].

Definition lasso : FAO_DAG := mkDAG 0 1 lasso_edges [] ∅ 0 0 0 0.

(** Executable check that every listed edge id resolves to a node of the
    store and that no propagation list is longer than [D]. *)
Definition edge_resolvesb (forward : bool) (E : gmap Z (node * node))
    (h : gmap node FAO) (e : Z) : bool :=
  match E !! e with
  | Some edge => bool_decide (is_Some (h !! far_end forward edge))
  | None => false
  end.

Definition edges_resolveb (forward : bool) (E : gmap Z (node * node))
    (h : gmap node FAO) (D : nat) : bool :=
  bool_decide (map_Forall (λ _ f,
    length (own_edges forward f) ≤ D ∧
    Forall (λ e, edge_resolvesb forward E h e = true) (own_edges forward f)) h).

(** A start node that lists an edge id, 99, which the edge table lacks. *)
Definition dangling_nodes : gmap node FAO :=
  {[0 := bare_node [] [99%Z]]}.

(** ** Well-sized host calls *)


(** ** Buffers that are written in full *)

(** Every cell of the far buffer of every reachable node other than the
    seed is written by the transfer of some edge. *)
Definition fully_fed (forward : bool) (d : FAO_DAG) (h : gmap node FAO)
    : Prop :=
  ∀ v f j, reachable forward d v → v ≠ seed forward d → h !! v = Some f →
    j < length (far_data forward f) →
    ∃ u fu i x, h !! u = Some fu ∧
      edge_xfer forward (edges d) h fu i = Some x ∧ x_covers x v j.

(** The chain with stale values in the buffers of its inner nodes. *)
Definition chain_stale : gmap node FAO :=
  <[1 := set_input_data [9; 9]%float (set_output_data [8; 8]%float chain_b)]>
    (<[2 := set_input_data [7; 7]%float chain_c]> chain_nodes).

(** ** Offset maps under [operator[]] *)

(** [m'] is [m] with zero entries added for some missing keys. *)
Definition offsets_grow (m m' : gmap Z N) : Prop :=
  ∀ e, m' !! e = m !! e ∨ (m !! e = None ∧ m' !! e = Some 0%N).

Definition offsets_kept (f f' : FAO) : Prop :=
  offsets_grow (input_offsets f) (input_offsets f') ∧
  offsets_grow (output_offsets f) (output_offsets f').

(** The same nodes, whose offset maps have at most gained zero entries. *)
Definition offsets_only_grow (h h' : gmap node FAO) : Prop :=
  ∀ p, option_Forall2 offsets_kept (h !! p) (h' !! p).

(** The chain before any offset map was filled in. *)
Definition chain_unset : gmap node FAO :=
  (λ f, set_input_offsets ∅ (set_output_offsets ∅ f)) <$> chain_nodes.

Definition chain_unset_evaluated : gmap node FAO :=
  match forward_eval 5 1 3 chain chain_unset with
  | Done (_, h') => h'
  | _ => chain_unset
  end.


(** * The traversal scheduler *)

Lemma tc_flip {A} (R : relation A) x y : tc (flip R) x y → tc R y x.
Proof.
  induction 1 as [x y H|x y z H _ IH].
  - by apply tc_once.
  - eapply tc_r; eauto.
Qed.

Lemma elem_of_snoc_l {A} (l : list A) x y : x ∈ l → x ∈ l ++ [y].
Proof. intros. apply elem_of_app. by left. Qed.

Lemma elem_of_snoc_r {A} (l : list A) x : x ∈ l ++ [x].
Proof. apply elem_of_app. right. by left. Qed.

Lemma not_elem_of_snoc {A} (l : list A) x y : x ∉ l → x ≠ y → x ∉ l ++ [y].
Proof.
  intros Hl Hne [?| ->%list_elem_of_singleton]%elem_of_app; [by apply Hl|done].
Qed.

Lemma elem_of_snoc_iff {A} (l : list A) x y : x ≠ y → x ∈ l ++ [y] ↔ x ∈ l.
Proof.
  intros Hne. split; [|apply elem_of_snoc_l].
  by intros [?| ->%list_elem_of_singleton]%elem_of_app.
Qed.

Section filter_count.
Context {A : Type} `{EqDecision A}.
Implicit Types (l L : list A).

Lemma filter_elem_of_snoc_out l L e :
  e ∉ l → filter (.∈ L ++ [e]) l = filter (.∈ L) l.
Proof.
  induction l as [|x l IH]; [done|]. intros He.
  apply not_elem_of_cons in He as [Hne He]. rewrite !filter_cons, IH by done.
  destruct (decide (x ∈ L)).
  - by rewrite decide_True by by apply elem_of_snoc_l.
  - by rewrite decide_False by by apply not_elem_of_snoc.
Qed.

Lemma filter_elem_of_snoc_in l L e :
  NoDup l → e ∈ l → e ∉ L →
  length (filter (.∈ L ++ [e]) l) = S (length (filter (.∈ L) l)).
Proof.
  intros Hnd Hin HL.
  induction Hnd as [|x l Hx Hnd IH]; [by apply elem_of_nil in Hin|].
  rewrite !filter_cons. apply elem_of_cons in Hin as [->|Hin].
  - rewrite decide_True by apply elem_of_snoc_r. rewrite decide_False by done.
    simpl. by rewrite filter_elem_of_snoc_out.
  - specialize (IH Hin). assert (x ≠ e) by (intros ->; done).
    destruct (decide (x ∈ L)).
    + rewrite decide_True by by apply elem_of_snoc_l. simpl. by rewrite IH.
    + by rewrite decide_False by by apply not_elem_of_snoc.
Qed.

Lemma filter_length_full (P : A → Prop) `{∀ x, Decision (P x)} l :
  length (filter P l) = length l ↔ ∀ x, x ∈ l → P x.
Proof.
  induction l as [|x l IH].
  - split; [|done]. intros _ y Hy. by apply elem_of_nil in Hy.
  - rewrite filter_cons. pose proof (length_filter P l). destruct (decide (P x)); simpl.
    + split.
      * intros Hl y [->|Hy]%elem_of_cons; [done|]. apply IH; [lia|done].
      * intros Hall. f_equal. apply IH. intros y Hy. apply Hall. by right.
    + split; [lia|]. intros Hall. destruct n. apply Hall. by left.
Qed.
End filter_count.

Lemma filter_elem_of_nil {A} `{EqDecision A} (l : list A) :
  filter (.∈ @nil A) l = [].
Proof.
  induction l as [|x l IH]; [done|].
  rewrite filter_cons, IH. rewrite decide_False; [done|]. apply not_elem_of_nil.
Qed.

Lemma same_topology_ins forward h0 h v :
  same_topology h0 h → ins forward h v = ins forward h0 v.
Proof.
  intros Ht. specialize (Ht v). unfold ins.
  destruct (h !! v) as [f|], (h0 !! v) as [f0|]; simpl in Ht; try done.
  injection Ht as Hi Ho. by destruct forward.
Qed.

Lemma same_topology_outs forward h0 h v :
  same_topology h0 h → outs forward h v = outs forward h0 v.
Proof.
  intros Ht. specialize (Ht v). unfold outs.
  destruct (h !! v) as [f|], (h0 !! v) as [f0|]; simpl in Ht; try done.
  injection Ht as Hi Ho. by destruct forward.
Qed.

Lemma same_topology_live h0 h v :
  same_topology h0 h → is_Some (h0 !! v) → is_Some (h !! v).
Proof.
  intros Ht [f Hf]. specialize (Ht v). rewrite Hf in Ht.
  destruct (h !! v); [eauto|done].
Qed.

Lemma size_t_succ_small (c : N) : (c + 1 < 2 ^ 64)%N → size_t_succ c = (c + 1)%N.
Proof. intros. unfold size_t_succ. by apply N.mod_small. Qed.

Lemma set_sched_twice q m q' m' d :
  set_ready_queue q' (set_eval_map m' (set_ready_queue q (set_eval_map m d))) =
  set_ready_queue q' (set_eval_map m' d).
Proof. done. Qed.

Lemma set_sched_id d :
  set_ready_queue (ready_queue d) (set_eval_map (eval_map d) d) = d.
Proof. by destruct d. Qed.

Section scheduler.
Context (forward : bool) (E : gmap Z (node * node)) (h0 : gmap node FAO)
  (root : node).
Hypothesis HC : lists_consistent E h0.
Hypothesis Hacyc : ∀ v, ¬ tc (edge_rel E) v v.
Hypothesis Hfed : ∀ u v, dstep forward E u v →
  rtc (dstep forward E) root v → rtc (dstep forward E) root u.
Hypothesis Hsize : (N.of_nat (size E) + 1 < 2 ^ 64)%N.
Hypothesis Hroot : is_Some (h0 !! root).

#[local] Abbreviation inv := (sched_inv forward E h0 root).
#[local] Abbreviation reach := (rtc (dstep forward E) root).


Lemma outs_spec u e :
  e ∈ outs forward h0 u ↔ ∃ pr, E !! e = Some pr ∧ near_end forward pr = u.
Proof using HC.
  clear Hacyc Hfed Hsize Hroot.
  unfold outs, near_end. destruct (h0 !! u) as [f|] eqn:Hu.
  - destruct forward.
    + rewrite (lc_out _ _ HC u f e Hu). split.
      * intros [v Hv]. by exists (u, v).
      * intros [[a b] [Hab Ha]]; simpl in Ha; subst a || subst b; eauto.
    + rewrite (lc_in _ _ HC u f e Hu). split.
      * intros [v Hv]. by exists (v, u).
      * intros [[a b] [Hab Ha]]; simpl in Ha; subst a || subst b; eauto.
  - split; [by intros ?%elem_of_nil|].
    intros [[a b] [Hab Ha]].
    destruct (lc_live _ _ HC e a b Hab) as [[? ?] [? ?]].
    destruct forward; simpl in Ha; congruence.
Qed.

Lemma ins_spec v e :
  e ∈ ins forward h0 v ↔ ∃ pr, E !! e = Some pr ∧ far_end forward pr = v.
Proof using HC.
  clear Hacyc Hfed Hsize Hroot.
  unfold ins, far_end. destruct (h0 !! v) as [f|] eqn:Hv.
  - destruct forward.
    + rewrite (lc_in _ _ HC v f e Hv). split.
      * intros [u Hu]. by exists (u, v).
      * intros [[a b] [Hab Ha]]; simpl in Ha; subst a || subst b; eauto.
    + rewrite (lc_out _ _ HC v f e Hv). split.
      * intros [u Hu]. by exists (v, u).
      * intros [[a b] [Hab Ha]]; simpl in Ha; subst a || subst b; eauto.
  - split; [by intros ?%elem_of_nil|].
    intros [[a b] [Hab Ha]].
    destruct (lc_live _ _ HC e a b Hab) as [[? ?] [? ?]].
    destruct forward; simpl in Ha; congruence.
Qed.

Lemma NoDup_outs u : NoDup (outs forward h0 u).
Proof using HC.
  clear Hacyc Hfed Hsize Hroot.
  unfold outs. destruct (h0 !! u) as [f|] eqn:Hu; [|constructor].
  destruct forward; [eapply lc_out_nodup|eapply lc_in_nodup]; eauto.
Qed.

Lemma NoDup_ins v : NoDup (ins forward h0 v).
Proof using HC.
  clear Hacyc Hfed Hsize Hroot.
  unfold ins. destruct (h0 !! v) as [f|] eqn:Hv; [|constructor].
  destruct forward; [eapply lc_in_nodup|eapply lc_out_nodup]; eauto.
Qed.

Lemma dstep_spec u v :
  dstep forward E u v ↔
  ∃ e pr, E !! e = Some pr ∧ near_end forward pr = u ∧ far_end forward pr = v.
Proof using Type.
  clear HC Hacyc Hfed Hsize Hroot.
  unfold dstep, edge_rel, near_end, far_end. destruct forward; split.
  - intros [e He]. by exists e, (u, v).
  - intros (e & [a b] & He & Ha & Hb); simpl in Ha, Hb; rewrite Ha, Hb in He; eauto.
  - intros [e He]. by exists e, (v, u).
  - intros (e & [a b] & He & Ha & Hb); simpl in Ha, Hb; rewrite Ha, Hb in He; eauto.
Qed.

Lemma ins_length_bound v : length (ins forward h0 v) ≤ size E.
Proof using HC.
  rewrite <- (length_map_to_list E), <- (length_fmap fst).
  apply submseteq_length, NoDup_submseteq; [apply NoDup_ins|].
  intros e [pr [He _]]%ins_spec.
  apply list_elem_of_fmap. exists (e, pr). split; [done|].
  by apply elem_of_map_to_list.
Qed.

Lemma tc_dstep_edge u v :
  tc (dstep forward E) u v → if forward then tc (edge_rel E) u v else tc (edge_rel E) v u.
Proof using Type.
  clear HC Hacyc Hfed Hsize Hroot.
  unfold dstep. destruct forward; [done|]. apply (tc_flip (edge_rel E)).
Qed.


Lemma dstep_acyclic v : ¬ tc (dstep forward E) v v.
Proof using Hacyc.
  clear HC Hfed Hsize Hroot.
  intros H%tc_dstep_edge. destruct forward; by apply (Hacyc v).
Qed.

(** Induction along the edges: the predecessors of a node come first. *)
Lemma dstep_wf v : Acc (dstep forward E) v.
Proof using Hacyc.
  cut (sn (flip (dstep forward E)) v).
  { induction 1 as [x _ IH]. constructor. intros y Hy. by apply IH. }
  apply tc_finite_sn.
  - intros x Hx. apply (dstep_acyclic x). by apply tc_flip.
  - exists ((near_end forward ∘ snd) <$> map_to_list E).
    intros x Hx. induction Hx as [x y Hxy|x y z _ _ IH]; [|done].
    apply dstep_spec in Hxy as (e & pr & He & Hnear & _).
    apply list_elem_of_fmap. exists (e, pr). split; [done|].
    by apply elem_of_map_to_list.
Qed.


Lemma sched_inv_init : inv [] [] [root] ∅.
Proof using HC Hacyc Hfed.
  split.
  - apply NoDup_singleton.
  - intros v. simpl. rewrite list_elem_of_singleton. split.
    + intros Hv. subst v. split; [done|]. intros e [pr [He Hfar]]%ins_spec.
      exfalso.
      assert (dstep forward E (near_end forward pr) root) as Hst
        by (apply dstep_spec; eauto).
      apply (dstep_acyclic root).
      eapply tc_rtc_l; [|by apply tc_once]. by apply Hfed with root.
    + intros [Hr Hins]. apply rtc_inv_r in Hr as [Hv|(u & Hu & Hst)]; [done|].
      apply dstep_spec in Hst as (e & pr & He & Hn & Hf).
      exfalso. eapply not_elem_of_nil, Hins, ins_spec; eauto.
  - intros v. rewrite lookup_empty, filter_elem_of_nil.
    rewrite decide_False by apply not_elem_of_nil. done.
Qed.

Lemma count_no_wrap (L : list Z) v :
  (N.of_nat (length (filter (.∈ L) (ins forward h0 v))) + 1 < 2 ^ 64)%N.
Proof using HC Hsize.
  pose proof (length_filter (.∈ L) (ins forward h0 v)).
  pose proof (ins_length_bound v). lia.
Qed.

Lemma sched_inv_visit (L : list Z) V c Q M :
  inv L V (c :: Q) M → inv L (V ++ [c]) Q (eval_map_incr M c).
Proof using HC Hsize.
  intros [Hnd Hmem Hcnt]. split.
  - by rewrite <- app_assoc.
  - intros v. rewrite <- app_assoc. apply Hmem.
  - assert (c ∉ V) as HcV.
    { intros Hc. apply NoDup_app in Hnd as (_ & Hd & _).
      apply (Hd c Hc). by left. }
    intros v. unfold eval_map_incr. destruct (decide (v = c)) as [->|Hne].
    + rewrite lookup_insert_eq. simpl. rewrite Hcnt.
      rewrite decide_False by done. rewrite decide_True by apply elem_of_snoc_r.
      rewrite Nat.add_0_r, size_t_succ_small by apply count_no_wrap. lia.
    + rewrite lookup_insert_ne by done. rewrite Hcnt.
      destruct (decide (v ∈ V)).
      * by rewrite decide_True by by apply elem_of_snoc_l.
      * by rewrite decide_False by by apply not_elem_of_snoc.
Qed.

Lemma sched_inv_edge (L : list Z) V Q M e pr :
  inv L V Q M → E !! e = Some pr → near_end forward pr ∈ V → e ∉ L →
  let v := far_end forward pr in
  let M' := eval_map_incr M v in
  inv (L ++ [e]) V
    (if decide (default 0%N (M' !! v) = N.of_nat (length (ins forward h0 v)))
     then Q ++ [v] else Q) M'.
Proof using HC Hsize.
  intros [Hnd Hmem Hcnt] He Hnear HeL v M'.
  assert (e ∈ ins forward h0 v) as Hev by (apply ins_spec; eauto).
  assert (v ∉ V ++ Q) as HvVQ.
  { intros [_ Hall]%Hmem. by apply HeL, Hall. }
  assert (v ∉ V) as HvV.
  { intros Hv. apply HvVQ, elem_of_app. by left. }
  assert (rtc (dstep forward E) root v) as Hrv.
  { eapply rtc_r.
    - apply (Hmem (near_end forward pr)), elem_of_app. by left.
    - apply dstep_spec; eauto. }
  assert (default 0%N (M' !! v) =
          N.of_nat (length (filter (.∈ L ++ [e]) (ins forward h0 v)))) as HM'.
  { unfold M', eval_map_incr. rewrite lookup_insert_eq. simpl.
    rewrite Hcnt, decide_False, Nat.add_0_r by done.
    rewrite size_t_succ_small by apply count_no_wrap.
    rewrite filter_elem_of_snoc_in; [lia|by apply NoDup_ins|done|done]. }
  assert (∀ w, w ≠ v → e ∉ ins forward h0 w) as Hother.
  { intros w Hw [pr' [He' Hf']]%ins_spec. apply Hw.
    rewrite He in He'. by injection He' as <-. }
  assert (default 0%N (M' !! v) = N.of_nat (length (ins forward h0 v)) ↔
          ∀ e', e' ∈ ins forward h0 v → e' ∈ L ++ [e]) as Hpush.
  { rewrite HM', <- filter_length_full. split; [by intros ?%Nat2N.inj|by intros ->]. }
  split.
  - destruct (decide _); [|done].
    rewrite app_assoc. apply NoDup_app. split; [done|].
    split; [|apply NoDup_singleton].
    by intros x Hx ->%list_elem_of_singleton.
  - intros w. destruct (decide (w = v)) as [->|Hne].
    + destruct (decide _) as [Heq|Hneq].
      * split; [intros _; split; [done|by apply Hpush]|].
        intros _. rewrite app_assoc. apply elem_of_snoc_r.
      * split; [done|]. intros [_ Hall]. by apply Hpush in Hall.
    + transitivity (w ∈ V ++ Q).
      { destruct (decide _); [|done]. rewrite app_assoc.
        by apply elem_of_snoc_iff. }
      rewrite Hmem. apply and_iff_compat_l. split.
      * intros Hall e' He'. by apply elem_of_snoc_l, Hall.
      * intros Hall e' He'. specialize (Hall e' He').
        apply elem_of_app in Hall as [?| ->%list_elem_of_singleton]; [done|].
        by apply Hother in He'.
  - intros w. destruct (decide (w = v)) as [->|Hne].
    + by rewrite HM', decide_False, Nat.add_0_r by exact HvV.
    + unfold M', eval_map_incr. rewrite lookup_insert_ne by done.
      rewrite Hcnt. by rewrite filter_elem_of_snoc_out by by apply Hother.
Qed.


Lemma reach_live v : reach v → is_Some (h0 !! v).
Proof using HC Hroot.
  clear Hacyc Hfed Hsize.
  intros [Hv|(u & _ & Hst)]%rtc_inv_r; [by subst v|].
  apply dstep_spec in Hst as (e & [a b] & He & _ & Hf).
  destruct (lc_live _ _ HC e a b He) as [? ?].
  unfold far_end in Hf. destruct forward; simpl in Hf; by subst.
Qed.

Lemma sched_inv_bound L V Q M : inv L V Q M → length (V ++ Q) ≤ S (size E).
Proof using Type.
  intros [Hnd Hmem _].
  rewrite <- (length_map_to_list E), <- (length_fmap (far_end forward ∘ snd)).
  change (length (V ++ Q) ≤
          length (root :: ((far_end forward ∘ snd) <$> map_to_list E))).
  apply submseteq_length, NoDup_submseteq; [done|].
  intros v [Hr _]%Hmem.
  apply rtc_inv_r in Hr as [Hv|(u & _ & Hst)]; [subst v; by left|]. right.
  apply dstep_spec in Hst as (e & pr & He & _ & Hf).
  apply list_elem_of_fmap. exists (e, pr). split; [done|].
  by apply elem_of_map_to_list.
Qed.

Lemma sched_inv_producers T Q M c u :
  inv (T ≫= outs forward h0) T Q M → c ∈ T ++ Q → dstep forward E u c → u ∈ T.
Proof using HC.
  intros [_ Hmem _] [_ Hall]%Hmem (e & pr & He & Hn & Hf)%dstep_spec.
  assert (e ∈ T ≫= outs forward h0) as Hin.
  { apply Hall, ins_spec. eauto. }
  apply list_elem_of_bind in Hin as (u' & Hout & Hu').
  apply outs_spec in Hout as (pr' & He' & Hn').
  congruence.
Qed.

Lemma arrived_iff_producers (T : list node) v :
  (∀ e, e ∈ ins forward h0 v → e ∈ T ≫= outs forward h0) ↔
  (∀ u, dstep forward E u v → u ∈ T).
Proof using HC.
  split.
  - intros Hall u (e & pr & He & Hn & Hf)%dstep_spec.
    assert (e ∈ T ≫= outs forward h0) as Hin.
    { apply Hall, ins_spec. eauto. }
    apply list_elem_of_bind in Hin as (u' & Hout & Hu').
    apply outs_spec in Hout as (pr' & He' & Hn'). congruence.
  - intros Hall e (pr & He & Hf)%ins_spec.
    apply list_elem_of_bind. exists (near_end forward pr). split.
    + apply outs_spec. eauto.
    + apply Hall, dstep_spec. eauto.
Qed.

Lemma sched_inv_final T M :
  inv (T ≫= outs forward h0) T [] M → NoDup T ∧ ∀ v, v ∈ T ↔ reach v.
Proof using HC Hacyc Hfed.
  intros [Hnd Hmem _]. rewrite app_nil_r in Hnd. split; [done|].
  assert (∀ v, v ∈ T ↔
    reach v ∧ ∀ e, e ∈ ins forward h0 v → e ∈ T ≫= outs forward h0) as Hm.
  { intros v. specialize (Hmem v). by rewrite app_nil_r in Hmem. }
  clear Hmem. intros v. split; [by intros [? _]%Hm|].
  induction (dstep_wf v) as [v _ IH]. intros Hr.
  apply Hm. split; [done|].
  intros e (pr & He & Hf)%ins_spec.
  assert (dstep forward E (near_end forward pr) v) as Hst
    by (apply dstep_spec; eauto).
  apply list_elem_of_bind. exists (near_end forward pr). split.
  - apply outs_spec. eauto.
  - apply IH; [done|by eapply Hfed].
Qed.

Lemma visit_edge_inv h d (L : list Z) V e pr :
  same_topology h0 h → edges d = E →
  inv L V (ready_queue d) (eval_map d) →
  E !! e = Some pr → near_end forward pr ∈ V → e ∉ L →
  ∃ Q' M',
    visit_edge forward h d e = Done (set_ready_queue Q' (set_eval_map M' d)) ∧
    inv (L ++ [e]) V Q' M'.
Proof using HC Hsize.
  clear Hfed. intros Ht HE Hinv He Hnear HeL.
  pose proof (sched_inv_edge L V _ _ e pr
                Hinv He Hnear HeL) as Hstep.
  simpl in Hstep. unfold visit_edge. rewrite HE, He. simpl.
  change (if forward then pr.2 else pr.1) with (far_end forward pr).
  set (v := far_end forward pr) in Hstep |- *.
  assert (is_Some (h !! v)) as [fao Hfao].
  { apply (same_topology_live h0); [done|]. destruct pr as [a b].
    destruct (lc_live _ _ HC e a b He). unfold v, far_end.
    by destruct forward. }
  rewrite Hfao. simpl.
  assert ((if forward then input_edges fao else output_edges fao) =
          ins forward h0 v) as ->.
  { rewrite <- (same_topology_ins forward h0 h v Ht). unfold ins.
    by rewrite Hfao. }
  destruct (decide _); eauto.
Qed.

Lemma visit_edges_inv h V todo : ∀ d (L : list Z),
  same_topology h0 h → edges d = E →
  inv L V (ready_queue d) (eval_map d) →
  NoDup todo →
  (∀ e, e ∈ todo →
     (e ∉ L) ∧ ∃ pr, E !! e = Some pr ∧ near_end forward pr ∈ V) →
  ∃ Q' M',
    for_each (visit_edge forward h) d todo =
      Done (set_ready_queue Q' (set_eval_map M' d)) ∧
    inv (L ++ todo) V Q' M'.
Proof using HC Hsize.
  induction todo as [|e todo IH]; intros d L Ht HE Hinv Hnd Hall.
  - exists (ready_queue d), (eval_map d). simpl.
    by rewrite set_sched_id, app_nil_r.
  - apply NoDup_cons in Hnd as [Hfresh Hnd].
    destruct (Hall e) as (HeL & pr & He & Hnear); [by left|].
    destruct (visit_edge_inv h d L V e pr Ht HE Hinv He Hnear HeL)
      as (Q1 & M1 & Hrun & Hinv1).
    simpl. rewrite Hrun. simpl.
    destruct (IH (set_ready_queue Q1 (set_eval_map M1 d)) (L ++ [e]))
      as (Q2 & M2 & Hrun2 & Hinv2); [done|done|done|done| |].
    { intros e' He'. destruct (Hall e') as [? ?]; [by right|].
      split; [|done]. intros [?| ->%list_elem_of_singleton]%elem_of_app; done. }
    exists Q2, M2. rewrite Hrun2. split; [done|].
    by rewrite <- app_assoc in Hinv2.
Qed.

Lemma traverse_body_inv node_fn c rest d h h1 T :
  edges d = E → ready_queue d = c :: rest →
  inv (T ≫= outs forward h0) T (c :: rest) (eval_map d) →
  node_fn c h = Done h1 → same_topology h0 h1 →
  ∃ Q' M',
    traverse_body node_fn forward c rest d h =
      Done (set_ready_queue Q' (set_eval_map M' d), h1) ∧
    inv ((T ++ [c]) ≫= outs forward h0) (T ++ [c]) Q' M'.
Proof using HC Hsize Hroot.
  intros HE HQ Hinv Hfn Ht.
  assert (c ∉ T) as HcT.
  { intros Hc. destruct Hinv as [Hnd _ _].
    apply NoDup_app in Hnd as (_ & Hd & _). apply (Hd c Hc). by left. }
  assert (reach c) as Hrc.
  { apply (si_mem _ _ _ _ _ _ _ _ Hinv c), elem_of_app. right. by left. }
  destruct (same_topology_live h0 h1 c Ht (reach_live c Hrc)) as [fao Hfao].
  unfold traverse_body. rewrite Hfn. simpl. rewrite Hfao. simpl.
  assert ((if forward then output_edges fao else input_edges fao) =
          outs forward h0 c) as ->.
  { rewrite <- (same_topology_outs forward h0 h1 c Ht). unfold outs.
    by rewrite Hfao. }
  pose proof (sched_inv_visit _ _ _ _ _ Hinv)
    as Hinv1.
  destruct (visit_edges_inv h1 (T ++ [c]) (outs forward h0 c)
              (set_eval_map (eval_map_incr (eval_map d) c)
                 (set_ready_queue rest d))
              (T ≫= outs forward h0))
    as (Q' & M' & Hrun & Hinv'); [done|done|done| | |].
  { apply NoDup_outs. }
  { intros e (pr & He & Hn)%outs_spec. split.
    - intros (u & (pr' & He' & Hn')%outs_spec & Hu)%list_elem_of_bind.
      apply HcT. congruence.
    - exists pr. split; [done|]. rewrite Hn. apply elem_of_snoc_r. }
  exists Q', M'. rewrite Hrun. simpl. split; [done|].
  by rewrite bind_app, bind_singleton.
Qed.

Section loop.
Context (node_fn : visitor) (P : list node → gmap node FAO → Prop).
Hypothesis HP_topo : ∀ T h, P T h → same_topology h0 h.
Hypothesis HP_step : ∀ T c h,
  P T h → c ∉ T → reach c → (∀ u, dstep forward E u c → u ∈ T) →
  ∃ h', node_fn c h = Done h' ∧ P (T ++ [c]) h'.

Lemma traverse_body_step c rest d h T :
  edges d = E → ready_queue d = c :: rest →
  inv (T ≫= outs forward h0) T (c :: rest) (eval_map d) →
  P T h →
  ∃ Q' M' h',
    traverse_body node_fn forward c rest d h =
      Done (set_ready_queue Q' (set_eval_map M' d), h') ∧
    inv ((T ++ [c]) ≫= outs forward h0) (T ++ [c]) Q' M' ∧
    P (T ++ [c]) h'.
Proof using HC Hsize Hroot HP_topo HP_step.
  intros HE HQ Hinv HP.
  assert (c ∉ T) as HcT.
  { intros Hc. destruct Hinv as [Hnd _ _].
    apply NoDup_app in Hnd as (_ & Hd & _). apply (Hd c Hc). by left. }
  assert (reach c) as Hrc.
  { apply (si_mem _ _ _ _ _ _ _ _ Hinv c), elem_of_app. right. by left. }
  destruct (HP_step T c h HP HcT Hrc) as (h1 & Hfn & HP1).
  { intros u Hu. eapply sched_inv_producers; [done| |done].
    apply elem_of_app. right. by left. }
  destruct (traverse_body_inv node_fn c rest d h h1 T HE HQ Hinv Hfn)
    as (Q' & M' & Hrun & Hinv'); [by eapply HP_topo|].
  eauto 10.
Qed.

Lemma traverse_loop_correct : ∀ fuel d h T,
  edges d = E →
  inv (T ≫= outs forward h0) T (ready_queue d) (eval_map d) →
  P T h →
  S (size E) ≤ fuel + length T →
  ∃ T' M' h',
    traverse_loop fuel node_fn forward d h T =
      Done (set_ready_queue [] (set_eval_map M' d), h', T') ∧
    inv (T' ≫= outs forward h0) T' [] M' ∧ P T' h'.
Proof using HC Hsize Hroot HP_topo HP_step.
  induction fuel as [|fuel IH]; intros d h T HE Hinv HP Hfuel.
  - pose proof (sched_inv_bound _ _ _ _ Hinv) as Hb.
    rewrite length_app in Hb.
    destruct (ready_queue d) as [|c rest] eqn:HQ; [|simpl in Hb; lia].
    exists T, (eval_map d), h. simpl. rewrite HQ.
    split; [|done]. by rewrite <- HQ, set_sched_id.
  - destruct (ready_queue d) as [|c rest] eqn:HQ.
    + exists T, (eval_map d), h. simpl. rewrite HQ.
      split; [|done]. by rewrite <- HQ, set_sched_id.
    + destruct (traverse_body_step c rest d h T HE HQ Hinv HP)
        as (Q1 & M1 & h1 & Hrun & Hinv1 & HP1).
      simpl. rewrite HQ, Hrun. simpl.
      destruct (IH (set_ready_queue Q1 (set_eval_map M1 d)) h1 (T ++ [c]))
        as (T' & M' & h' & Hrun' & Hinv' & HP'); [done|done|done| |].
      { rewrite length_app. simpl. lia. }
      exists T', M', h'. by rewrite Hrun'.
Qed.

Lemma traverse_steps_correct : ∀ n d h T,
  edges d = E →
  inv (T ≫= outs forward h0) T (ready_queue d) (eval_map d) →
  P T h →
  ∃ T' Q' M' h',
    traverse_steps n node_fn forward d h T =
      Done (set_ready_queue Q' (set_eval_map M' d), h', T') ∧
    inv (T' ≫= outs forward h0) T' Q' M' ∧ P T' h'.
Proof using HC Hsize Hroot HP_topo HP_step.
  induction n as [|n IH]; intros d h T HE Hinv HP.
  - exists T, (ready_queue d), (eval_map d), h. simpl.
    by rewrite set_sched_id.
  - destruct (ready_queue d) as [|c rest] eqn:HQ.
    + exists T, [], (eval_map d), h. simpl. rewrite HQ.
      split; [|done]. by rewrite <- HQ, set_sched_id.
    + destruct (traverse_body_step c rest d h T HE HQ Hinv HP)
        as (Q1 & M1 & h1 & Hrun & Hinv1 & HP1).
      simpl. rewrite HQ, Hrun. simpl.
      destruct (IH (set_ready_queue Q1 (set_eval_map M1 d)) h1 (T ++ [c]))
        as (T' & Q' & M' & h' & Hrun' & Hinv' & HP'); [done|done|done|].
      exists T', Q', M', h'. by rewrite Hrun'.
Qed.
End loop.
End scheduler.

(** * Soundness of the executable checks *)

Lemma lists_consistentb_sound E h :
  lists_consistentb E h = true → lists_consistent E h.
Proof.
  unfold lists_consistentb. rewrite !andb_true_iff, !bool_decide_eq_true.
  intros [[Hlive Hnodes] Hedges]. split.
  - intros e u v He. apply (Hlive e (u, v) He).
  - intros u f Hu. by destruct (Hnodes u f Hu) as (? & _).
  - intros u f e Hu. destruct (Hnodes u f Hu) as (_ & _ & Hout & _). split.
    + intros Hin. rewrite Forall_forall in Hout. specialize (Hout e Hin).
      destruct (E !! e) as [[a b]|]; simpl in Hout; [|done].
      injection Hout as ->. eauto.
    + intros [v He]. destruct (Hedges e (u, v) He) as [Ho _].
      unfold outs in Ho. simpl in Ho. by rewrite Hu in Ho.
  - intros v f Hv. by destruct (Hnodes v f Hv) as (_ & ? & _).
  - intros v f e Hv. destruct (Hnodes v f Hv) as (_ & _ & _ & Hin). split.
    + intros Hi. rewrite Forall_forall in Hin. specialize (Hin e Hi).
      destruct (E !! e) as [[a b]|]; simpl in Hin; [|done].
      injection Hin as ->. eauto.
    + intros [u He]. destruct (Hedges e (u, v) He) as [_ Hi].
      unfold ins in Hi. simpl in Hi. by rewrite Hv in Hi.
Qed.

Lemma ranked_acyclic rank E : ranked rank E → ∀ v, ¬ tc (edge_rel E) v v.
Proof.
  intros Hrank.
  assert (∀ u v, tc (edge_rel E) u v → rank u < rank v) as Hlt.
  { induction 1 as [u v [e He]|u v w [e He] _ IH].
    - apply (Hrank e (u, v) He).
    - pose proof (Hrank e (u, v) He). simpl in *. lia. }
  intros v Hv%Hlt. lia.
Qed.

Lemma reach_set_sound forward E root n v :
  v ∈ reach_set forward E root n → rtc (dstep forward E) root v.
Proof.
  revert v. induction n as [|n IH]; intros v; simpl.
  - by intros ->%elem_of_singleton.
  - unfold reach_step. intros [Hv|Hv]%elem_of_union; [by apply IH|].
    apply elem_of_list_to_set, list_elem_of_omap in Hv as ([e pr] & Hin & Hv).
    simpl in Hv. destruct (decide _) as [Hnear|]; [|done]. injection Hv as <-.
    apply elem_of_map_to_list in Hin. eapply rtc_r; [by apply IH|].
    unfold dstep, edge_rel, near_end, far_end. destruct pr as [a b].
    destruct forward; simpl; eauto.
Qed.

Lemma well_formedb_sound forward rank d h :
  well_formedb forward rank d h = true → well_formed forward d h.
Proof.
  unfold well_formedb, all_fedb.
  rewrite !andb_true_iff, !bool_decide_eq_true.
  intros [[[[Hl Hr] Hs] Hf] Hsz]. split.
  - by apply lists_consistentb_sound.
  - by eapply ranked_acyclic.
  - done.
  - intros u v Huv _. unfold reachable.
    assert (∃ e pr, edges d !! e = Some pr ∧ near_end forward pr = u)
      as (e & pr & He & <-).
    { unfold dstep, edge_rel in Huv.
      destruct forward, Huv as [e He]; eauto. }
    eapply reach_set_sound, (Hf e pr He).
  - done.
Qed.

(** When the seed is the only node that waits for no edge (forward: the
    start node is the sole global input), every node of the store is
    reached, so every edge comes from a reached node. *)
Lemma sole_entry_fed forward d h :
  lists_consistent (edges d) h →
  (∀ v, ¬ tc (edge_rel (edges d)) v v) →
  (∀ v, is_Some (h !! v) → ins forward h v = [] → v = seed forward d) →
  ∀ u v, dstep forward (edges d) u v →
    reachable forward d v → reachable forward d u.
Proof.
  intros HC Hacyc Hsole.
  assert (∀ v, is_Some (h !! v) → reachable forward d v) as Hall.
  { intros v. induction (dstep_wf forward (edges d) Hacyc v) as [v _ IH].
    intros Hv. destruct (ins forward h v) as [|e l] eqn:Hins.
    - rewrite (Hsole v Hv Hins). apply rtc_refl.
    - assert (e ∈ ins forward h v) as Hin by (rewrite Hins; by left).
      apply (ins_spec forward (edges d) h HC) in Hin as (pr & He & Hfar).
      assert (dstep forward (edges d) (near_end forward pr) v) as Hst
        by (apply dstep_spec; eauto).
      eapply rtc_r; [|done]. apply IH; [done|].
      destruct pr as [a b]. destruct (lc_live _ _ HC e a b He).
      unfold near_end. by destruct forward. }
  intros u v (e & [a b] & He & Hn & _)%dstep_spec _. apply Hall.
  destruct (lc_live _ _ HC e a b He). unfold near_end in Hn.
  destruct forward; simpl in Hn; by subst.
Qed.

(** * Claims about the scheduler *)

Lemma for_each_snoc {S X} (body : S → X → outcome S) s xs x :
  for_each body s (xs ++ [x]) = s' ← for_each body s xs; body s' x.
Proof.
  revert s. induction xs as [|y xs IH]; intros s; simpl.
  - by destruct (body s x).
  - destruct (body s y); simpl; [apply IH|done..].
Qed.

Lemma same_topology_refl h : same_topology h h.
Proof. by intros p. Qed.

Lemma same_topology_trans h1 h2 h3 :
  same_topology h1 h2 → same_topology h2 h3 → same_topology h1 h3.
Proof. intros H12 H23 p. by rewrite H23, H12. Qed.

Lemma same_topology_sym h1 h2 : same_topology h1 h2 → same_topology h2 h1.
Proof. intros H p. by rewrite H. Qed.

(** The scheduler on a well-formed graph, for visitors that keep a property
    [P] of the visited list and the store: the traversal returns, leaves the
    engine as it found it, keeps [P], and its log lists every reachable node
    once. The visitor is only ever applied to a reachable node that was not
    visited before and whose producers have all been visited. *)
Lemma traverse_graph_run (forward : bool) (node_fn : visitor) (d : FAO_DAG)
    (h0 h : gmap node FAO) (fuel : nat)
    (P : list node → gmap node FAO → Prop) :
  well_formed forward d h0 → idle d → size (edges d) < fuel →
  (∀ T hh, P T hh → same_topology h0 hh) →
  (∀ T c hh, P T hh → c ∉ T → reachable forward d c →
     (∀ u, dstep forward (edges d) u c → u ∈ T) →
     ∃ h', node_fn c hh = Done h' ∧ P (T ++ [c]) h') →
  P [] h →
  ∃ h' log,
    traverse_graph fuel node_fn forward d h = Done (d, h', log) ∧
    P log h' ∧ NoDup log ∧ (∀ v, v ∈ log ↔ reachable forward d v).
Proof.
  intros [HC Hacyc Hseed Hfed Hsize] Hidle Hfuel HP_topo HP_step HP0.
  destruct (traverse_loop_correct forward (edges d) h0 (seed forward d)
              HC Hsize Hseed node_fn P HP_topo HP_step) with
    (fuel := fuel) (d := set_ready_queue (ready_queue d ++ [seed forward d]) d)
    (h := h) (T := @nil node)
    as (T' & M' & h' & Hrun & Hinv & HP').
  - done.
  - destruct Hidle as [HQ HM]. simpl. rewrite HQ, HM. simpl.
    by apply sched_inv_init.
  - done.
  - simpl. lia.
  - destruct (sched_inv_final forward (edges d) h0 (seed forward d)
                HC Hacyc Hfed T' M' Hinv) as [Hnd Hmem].
    exists h', T'. unfold traverse_graph.
    change (if forward then start_node d else end_node d)
      with (seed forward d). rewrite Hrun. simpl.
    split; [|done]. do 3 f_equal.
    destruct Hidle as [HQ HM]. destruct d; simpl in *. by subst.
Qed.

(** C1: on an acyclic graph that meets the declared invariants, one call of
    [traverse_graph] returns with the queue empty, having applied the
    visitor to every node reachable from the seed exactly once, forward
    (from [start_node]) as well as in reverse (from [end_node]). *)
Theorem traverse_graph_visits_once (forward : bool) (node_fn : visitor)
    (d : FAO_DAG) (h : gmap node FAO) (fuel : nat) :
  well_formed forward d h → idle d → visitor_ok h node_fn →
  size (edges d) < fuel →
  ∃ d' h' log,
    traverse_graph fuel node_fn forward d h = Done (d', h', log) ∧
    NoDup log ∧
    (∀ v, v ∈ log ↔ reachable forward d v) ∧
    for_each (λ s v, node_fn v s) h log = Done h' ∧
    ready_queue d' = [].
Proof.
  intros Hwf Hidle Hfn Hfuel.
  destruct (traverse_graph_run forward node_fn d h h fuel
              (λ T hh, same_topology h hh ∧
                       for_each (λ s v, node_fn v s) h T = Done hh))
    as (h' & log & Hrun & [_ Hlog] & Hnd & Hmem); [done|done|done|..].
  - by intros T hh [? _].
  - intros T c hh [Ht Hlog] _ Hrc _.
    destruct (Hfn c hh Ht) as (h1 & Hc & Ht1).
    { apply (same_topology_live h); [done|].
      destruct Hwf as [HC _ Hseed Hfed _].
      by apply (reach_live forward (edges d) h (seed forward d)). }
    exists h1. split; [done|]. split; [done|].
    by rewrite for_each_snoc, Hlog.
  - split; [apply same_topology_refl|done].
  - exists d, h', log. by destruct Hidle.
Qed.

Lemma diamond_well_formed forward : well_formed forward diamond diamond_nodes.
Proof. apply (well_formedb_sound forward id). by destruct forward; vm_compute. Qed.

Lemma node_skip_ok h : visitor_ok h node_skip.
Proof. intros nd hh Ht _. by exists hh. Qed.

Lemma traverse_graph_visits_once_witness :
  (∃ d' h' log,
    traverse_graph 5 node_skip true diamond diamond_nodes = Done (d', h', log) ∧
    NoDup log ∧
    (∀ v, v ∈ log ↔ reachable true diamond v) ∧
    for_each (λ s v, node_skip v s) diamond_nodes log = Done h' ∧
    ready_queue d' = []) ∧
  (∃ d' h' log,
    traverse_graph 5 node_skip false diamond diamond_nodes = Done (d', h', log) ∧
    NoDup log ∧
    (∀ v, v ∈ log ↔ reachable false diamond v) ∧
    for_each (λ s v, node_skip v s) diamond_nodes log = Done h' ∧
    ready_queue d' = []).
Proof.
  split.
  - apply (traverse_graph_visits_once true node_skip diamond diamond_nodes 5).
    + apply diamond_well_formed.
    + by split.
    + apply node_skip_ok.
    + vm_compute. lia.
  - apply (traverse_graph_visits_once false node_skip diamond diamond_nodes 5).
    + apply diamond_well_formed.
    + by split.
    + apply node_skip_ok.
    + vm_compute. lia.
Defined.

Example diamond_forward_order :
  traverse_graph 5 node_skip true diamond diamond_nodes =
    Done (diamond, diamond_nodes, [0; 1; 2; 3]).
Proof. by vm_compute. Qed.

Example diamond_reverse_order :
  traverse_graph 5 node_skip false diamond diamond_nodes =
    Done (diamond, diamond_nodes, [3; 1; 2; 0]).
Proof. by vm_compute. Qed.

Lemma visit_edge_push forward h d e d' :
  visit_edge forward h d e = Done d' →
  ∃ pr, edges d !! e = Some pr ∧
    eval_map d' = eval_map_incr (eval_map d) (far_end forward pr) ∧
    ready_queue d' =
      if decide (default 0%N (eval_map d' !! far_end forward pr) =
                 N.of_nat (length (ins forward h (far_end forward pr))))
      then ready_queue d ++ [far_end forward pr] else ready_queue d.
Proof.
  unfold visit_edge, ins.
  destruct (edges d !! e) as [pr|]; [|done]. simpl.
  change (if forward then pr.2 else pr.1) with (far_end forward pr).
  destruct (h !! far_end forward pr) as [fao|] eqn:Hfao; [|done]. simpl.
  intros Hd. exists pr. split; [done|]. rewrite Hfao.
  destruct (decide _) as [Heq|Hne]; injection Hd as <-; simpl.
  - split; [done|]. by rewrite decide_True.
  - split; [done|]. by rewrite decide_False.
Qed.

(** C2: after any number of iterations of the [while] loop of a traversal
    of a well-formed graph, each node in the queue has had all its
    producers visited (forward: the sources of its inbound edges; reverse:
    the destinations of its outbound edges);
    the counter of an unvisited node equals its edge count exactly when all
    its producers have been visited; and the inner loop pushes the far-end
    node of an edge exactly when the counter it has just incremented equals
    that node's edge count. *)
Theorem enqueue_waits_for_producers (forward : bool) (node_fn : visitor)
    (d : FAO_DAG) (h : gmap node FAO) (n : nat) :
  well_formed forward d h → idle d → visitor_ok h node_fn →
  (∃ d' h' log,
     traverse_steps n node_fn forward
       (set_ready_queue [seed forward d] d) h [] = Done (d', h', log) ∧
     NoDup (log ++ ready_queue d') ∧
     (∀ v u, v ∈ ready_queue d' → dstep forward (edges d) u v → u ∈ log) ∧
     (∀ v, v ∉ log →
        default 0%N (eval_map d' !! v) = N.of_nat (length (ins forward h v)) ↔
        ∀ u, dstep forward (edges d) u v → u ∈ log)) ∧
  (∀ hh dd e dd', visit_edge forward hh dd e = Done dd' →
     ∃ pr, edges dd !! e = Some pr ∧
       eval_map dd' = eval_map_incr (eval_map dd) (far_end forward pr) ∧
       ready_queue dd' =
         if decide (default 0%N (eval_map dd' !! far_end forward pr) =
                    N.of_nat (length (ins forward hh (far_end forward pr))))
         then ready_queue dd ++ [far_end forward pr] else ready_queue dd).
Proof.
  intros [HC Hacyc Hseed Hfed Hsize] [HQ HM] Hfn.
  split; [|apply visit_edge_push].
  destruct (traverse_steps_correct forward (edges d) h (seed forward d)
              HC Hsize Hseed node_fn
              (λ _ hh, same_topology h hh)) with
    (n := n) (d := set_ready_queue [seed forward d] d) (h := h) (T := @nil node)
    as (T' & Q' & M' & h' & Hrun & Hinv & Ht').
  - done.
  - intros T c hh Ht _ Hrc _. apply Hfn; [done|].
    apply (same_topology_live h); [done|].
    by apply (reach_live forward (edges d) h (seed forward d)).
  - done.
  - simpl. rewrite HM. by apply sched_inv_init.
  - apply same_topology_refl.
  - rewrite Hrun. eexists _, _, _. split; [done|]. simpl.
    pose proof (arrived_iff_producers forward (edges d) h HC T') as Harr.
    split; [apply Hinv|]. split.
    + intros v u Hv. apply Harr. apply (si_mem _ _ _ _ _ _ _ _ Hinv v).
      apply elem_of_app. by right.
    + intros v Hv. rewrite <- Harr.
      rewrite (si_cnt _ _ _ _ _ _ _ _ Hinv v), decide_False, Nat.add_0_r by done.
      rewrite <- filter_length_full. split; [by intros ?%Nat2N.inj|by intros ->].
Qed.

Lemma enqueue_waits_for_producers_witness :
  (∃ d' h' log,
     traverse_steps 2 node_skip true
       (set_ready_queue [seed true diamond] diamond) diamond_nodes [] =
       Done (d', h', log) ∧
     NoDup (log ++ ready_queue d') ∧
     (∀ v u, v ∈ ready_queue d' → dstep true (edges diamond) u v → u ∈ log) ∧
     (∀ v, v ∉ log →
        default 0%N (eval_map d' !! v) =
          N.of_nat (length (ins true diamond_nodes v)) ↔
        ∀ u, dstep true (edges diamond) u v → u ∈ log)) ∧
  (∀ hh dd e dd', visit_edge true hh dd e = Done dd' →
     ∃ pr, edges dd !! e = Some pr ∧
       eval_map dd' = eval_map_incr (eval_map dd) (far_end true pr) ∧
       ready_queue dd' =
         if decide (default 0%N (eval_map dd' !! far_end true pr) =
                    N.of_nat (length (ins true hh (far_end true pr))))
         then ready_queue dd ++ [far_end true pr] else ready_queue dd).
Proof.
  apply (enqueue_waits_for_producers true node_skip diamond diamond_nodes 2).
  - apply diamond_well_formed.
  - by split.
  - apply node_skip_ok.
Defined.

(** In the diamond, node 3 waits for both 1 and 2: after 0 and 1 have been
    visited its counter is 1 of 2 and it is not in the queue; it is pushed
    once 2 has been visited as well. *)
Example diamond_one_producer_is_not_enough :
  traverse_steps 2 node_skip true (set_ready_queue [0] diamond)
    diamond_nodes [] =
    Done (set_ready_queue [2]
            (set_eval_map (list_to_map [(0, 1%N); (1, 2%N); (2, 1%N); (3, 1%N)])
               diamond),
          diamond_nodes, [0; 1]) ∧
  traverse_steps 3 node_skip true (set_ready_queue [0] diamond)
    diamond_nodes [] =
    Done (set_ready_queue [3]
            (set_eval_map (list_to_map [(0, 1%N); (1, 2%N); (2, 2%N); (3, 2%N)])
               diamond),
          diamond_nodes, [0; 1; 2]).
Proof. by vm_compute. Qed.

(** ** The scheduler leaves no state behind *)

Lemma visit_edge_frame forward h d e d' :
  visit_edge forward h d e = Done d' →
  ∃ Q M, d' = set_ready_queue Q (set_eval_map M d).
Proof.
  unfold visit_edge. destruct (edges d !! e) as [pr|]; [|done]. simpl.
  destruct (h !! _) as [fao|]; [|done]. simpl.
  destruct (decide _); intros [= <-]; eauto.
Qed.

Lemma visit_edges_frame forward h todo : ∀ d d',
  for_each (visit_edge forward h) d todo = Done d' →
  ∃ Q M, d' = set_ready_queue Q (set_eval_map M d).
Proof.
  induction todo as [|e todo IH]; intros d d'; simpl.
  - intros [= <-]. exists (ready_queue d), (eval_map d). by rewrite set_sched_id.
  - destruct (visit_edge forward h d e) as [d1| | |] eqn:He; [|done..]. simpl.
    apply visit_edge_frame in He as (Q1 & M1 & ->).
    intros (Q & M & ->)%IH. eauto.
Qed.

Lemma traverse_body_frame node_fn forward c rest d h d' h' :
  traverse_body node_fn forward c rest d h = Done (d', h') →
  ∃ Q M, d' = set_ready_queue Q (set_eval_map M d).
Proof.
  unfold traverse_body. destruct (node_fn c h) as [h1| | |]; [|done..]. simpl.
  destruct (h1 !! c) as [fao|]; [|done]. simpl.
  destruct (for_each _ _ _) as [d3| | |] eqn:Hd3; [|done..]. simpl.
  intros [= <- <-]. apply visit_edges_frame in Hd3 as (Q & M & ->). eauto.
Qed.

Lemma traverse_loop_frame node_fn forward fuel : ∀ d h T d' h' T',
  traverse_loop fuel node_fn forward d h T = Done (d', h', T') →
  ∃ M, d' = set_ready_queue [] (set_eval_map M d).
Proof.
  induction fuel as [|fuel IH]; intros d h T d' h' T'; simpl.
  - destruct (ready_queue d) eqn:HQ; [|done]. intros [= <- <- <-].
    exists (eval_map d). by rewrite <- HQ, set_sched_id.
  - destruct (ready_queue d) as [|c rest] eqn:HQ.
    + intros [= <- <- <-]. exists (eval_map d). by rewrite <- HQ, set_sched_id.
    + destruct (traverse_body _ _ _ _ _ _) as [[d1 h1]| | |] eqn:Hb; [|done..].
      simpl. apply traverse_body_frame in Hb as (Q1 & M1 & ->).
      intros (M & ->)%IH. eauto.
Qed.

Lemma traverse_graph_frame fuel node_fn forward d h d' h' log :
  traverse_graph fuel node_fn forward d h = Done (d', h', log) →
  d' = set_eval_map ∅ (set_ready_queue [] d).
Proof.
  unfold traverse_graph.
  destruct (traverse_loop _ _ _ _ _ _) as [[[d1 h1] T1]| | |] eqn:Hl; [|done..].
  simpl. intros [= <- <- <-].
  by apply traverse_loop_frame in Hl as (M & ->).
Qed.

Lemma forward_eval_idle fuel t0 t1 d h d' h' :
  forward_eval fuel t0 t1 d h = Done (d', h') → idle d'.
Proof.
  unfold forward_eval.
  destruct (traverse_graph _ _ _ _ _) as [[[d1 h1] T1]| | |] eqn:Ht; [|done..].
  simpl. intros [= <- <-]. apply traverse_graph_frame in Ht as ->. by split.
Qed.

Lemma adjoint_eval_idle fuel t0 t1 d h d' h' :
  adjoint_eval fuel t0 t1 d h = Done (d', h') → idle d'.
Proof.
  unfold adjoint_eval.
  destruct (traverse_graph _ _ _ _ _) as [[[d1 h1] T1]| | |] eqn:Ht; [|done..].
  simpl. intros [= <- <-]. apply traverse_graph_frame in Ht as ->. by split.
Qed.

Lemma run_call_idle fuel s c s' :
  idle s.1 → run_call fuel s c = Done s' → idle s'.1.
Proof.
  intros Hidle. destruct s as [d h], s' as [d' h'], c; simpl.
  - apply forward_eval_idle.
  - apply adjoint_eval_idle.
  - destruct (copy_input _ _ _ _); [|done..]. simpl. by intros [= <- <-].
  - destruct (copy_output _ _ _ _); [|done..]. simpl. by intros [= <- <-].
Qed.

Lemma run_calls_idle fuel cs : ∀ s s',
  idle s.1 → for_each (run_call fuel) s cs = Done s' → idle s'.1.
Proof.
  induction cs as [|c cs IH]; intros s s' Hidle; simpl.
  - by intros [= <-].
  - destruct (run_call fuel s c) as [s1| | |] eqn:Hc; [|done..]. simpl.
    apply IH. by eapply run_call_idle.
Qed.

Lemma well_formed_same_topology forward d h h' :
  well_formed forward d h → same_topology h h' → well_formed forward d h'.
Proof.
  intros [[Hlive Hon Ho Hin Hi] Hacyc Hseed Hfed Hsize] Ht.
  assert (∀ p f', h' !! p = Some f' → ∃ f, h !! p = Some f ∧
            input_edges f' = input_edges f ∧ output_edges f' = output_edges f)
    as Hback.
  { intros p f' Hp. specialize (Ht p). rewrite Hp in Ht.
    destruct (h !! p) as [f|]; [|done]. injection Ht as ? ?. eauto. }
  split; [split|..]; try done.
  - intros e u v He. destruct (Hlive e u v He).
    split; by apply (same_topology_live h).
  - intros u f' (f & Hf & _ & ->)%Hback. eauto.
  - intros u f' e (f & Hf & _ & ->)%Hback. eauto.
  - intros v f' (f & Hf & -> & _)%Hback. eauto.
  - intros v f' e (f & Hf & -> & _)%Hback. eauto.
  - by apply (same_topology_live h).
Qed.

Lemma visitor_ok_same_topology h h' node_fn :
  visitor_ok h node_fn → same_topology h h' → visitor_ok h' node_fn.
Proof.
  intros Hfn Ht nd hh Hhh Hnd.
  destruct (Hfn nd hh) as (h1 & Hrun & Ht1); [|done|].
  { by eapply same_topology_trans. }
  exists h1. split; [done|].
  eapply same_topology_trans; [by apply same_topology_sym|done].
Qed.

Lemma traverse_passes_run fuel passes : ∀ d h,
  (∀ forward, well_formed forward d h) → idle d → size (edges d) < fuel →
  Forall (λ pass, visitor_ok h pass.1) passes →
  ∃ h' logs,
    traverse_passes fuel passes d h = Done (d, h', logs) ∧
    Forall2 (λ pass log,
      NoDup log ∧ ∀ v, v ∈ log ↔ reachable pass.2 d v) passes logs.
Proof.
  induction passes as [|[fn fwd] passes IH]; intros d h Hwf Hidle Hfuel Hok.
  - exists h, []. by split.
  - apply Forall_cons in Hok as [Hfn Hok].
    destruct (traverse_graph_run fwd fn d h h fuel (λ _ hh, same_topology h hh))
      as (h1 & log & Hrun & Ht1 & Hnd & Hmem); [done|done|done|done| |..].
    { intros T c hh Ht _ Hrc _. apply Hfn; [done|].
      apply (same_topology_live h); [done|].
      destruct (Hwf fwd) as [HC _ Hseed Hfed _].
      by apply (reach_live fwd (edges d) h (seed fwd d)). }
    { apply same_topology_refl. }
    destruct (IH d h1) as (h2 & logs & Hrun2 & Hlogs); [|done|done|..].
    { intros forward. by eapply well_formed_same_topology. }
    { eapply Forall_impl; [done|]. intros pass Hp.
      exact (visitor_ok_same_topology h h1 _ Hp Ht1). }
    exists h2, (log :: logs). simpl. rewrite Hrun. simpl. rewrite Hrun2. simpl.
    split; [done|]. by constructor.
Qed.

(** C7: [traverse_graph] returns with the arrival counters cleared and the
    queue empty, whatever it was called on; hence every state that the
    constructor and any sequence of host calls lead to has an empty map, so
    the next traversal starts from one; and on a well-formed graph any
    number of consecutive traversals, in either direction and under any
    visitors that leave the edge lists alone, each return, visit every
    reachable node once, and leave the engine as they found it. *)
Theorem scheduler_state_is_transient :
  (∀ fuel node_fn forward d h d' h' log,
     traverse_graph fuel node_fn forward d h = Done (d', h', log) →
     eval_map d' = ∅ ∧ ready_queue d' = [] ∧
     d' = set_eval_map ∅ (set_ready_queue [] d)) ∧
  (∀ (L : FAO_lifecycle) fuel start_node end_node edges h d0 h0 cs d1 h1,
     FAO_DAG_new fuel start_node end_node edges h = Done (d0, h0) →
     for_each (run_call fuel) (d0, h0) cs = Done (d1, h1) →
     idle d0 ∧ idle d1) ∧
  (∀ fuel passes d h,
     (∀ forward, well_formed forward d h) → idle d →
     size (edges d) < fuel →
     Forall (λ pass, visitor_ok h pass.1) passes →
     ∃ h' logs,
       traverse_passes fuel passes d h = Done (d, h', logs) ∧
       Forall2 (λ pass log,
         NoDup log ∧ ∀ v, v ∈ log ↔ reachable pass.2 d v) passes logs).
Proof.
  split; [|split].
  - intros fuel node_fn forward d h d' h' log Hrun.
    apply traverse_graph_frame in Hrun as ->. done.
  - intros L fuel s e E h d0 h0 cs d1 h1 Hnew Hcalls.
    assert (idle d0) as Hidle0.
    { unfold FAO_DAG_new in Hnew.
      destruct (traverse_graph _ _ _ _ _) as [[[d' h'] T']| | |] eqn:Ht;
        [|done..].
      simpl in Hnew. injection Hnew as <- <-.
      apply traverse_graph_frame in Ht as ->. by split. }
    split; [done|]. by apply (run_calls_idle fuel cs (d0, h0) (d1, h1)).
  - intros fuel passes d h. apply traverse_passes_run.
Qed.

Lemma scheduler_state_is_transient_witness :
  (eval_map diamond = ∅ ∧ ready_queue diamond = [] ∧
   diamond = set_eval_map ∅ (set_ready_queue [] diamond)) ∧
  (idle chain ∧
   idle (chain_after [CallCopyInput [3; 4]%float true; CallForwardEval 1 3;
                      CallAdjointEval 3 4]).1) ∧
  (∃ h' logs,
     traverse_passes 5 [(node_skip, true); (node_skip, false); (node_skip, true)]
       diamond diamond_nodes = Done (diamond, h', logs) ∧
     Forall2 (λ pass log,
       NoDup log ∧ ∀ v, v ∈ log ↔ reachable pass.2 diamond v)
       [(node_skip, true); (node_skip, false); (node_skip, true)] logs).
Proof.
  split; [|split].
  - apply (proj1 scheduler_state_is_transient 5 node_skip true diamond
             diamond_nodes diamond diamond_nodes [0; 1; 2; 3]).
    by vm_compute.
  - apply (proj1 (proj2 scheduler_state_is_transient) clearing_lifecycle 5
             0 2 chain_edges chain_nodes chain chain_nodes
             [CallCopyInput [3; 4]%float true; CallForwardEval 1 3;
              CallAdjointEval 3 4]
             (chain_after [CallCopyInput [3; 4]%float true;
                           CallForwardEval 1 3; CallAdjointEval 3 4]).1
             (chain_after [CallCopyInput [3; 4]%float true;
                           CallForwardEval 1 3; CallAdjointEval 3 4]).2).
    + by vm_compute.
    + by vm_compute.
  - apply (proj2 (proj2 scheduler_state_is_transient) 5).
    + apply diamond_well_formed.
    + by split.
    + vm_compute. lia.
    + repeat constructor; apply node_skip_ok.
Defined.

(** * Boundary operations *)

(** C5: when the length of the array differs from the length of the
    selected boundary buffer, [copy_input] and [copy_output] end in the
    failed assertion: nothing is returned, so nothing was copied, truncated
    or padded. When the lengths agree the whole array is copied in (the
    whole buffer is copied out). *)
Theorem copy_length_mismatch_aborts (arr : list float) (forward : bool)
    (d : FAO_DAG) (h : gmap node FAO) (buf_in buf_out : list float) :
  read_buffer (if forward then get_forward_input d else get_adjoint_input d) h
    = Some buf_in →
  read_buffer (if forward then get_forward_output d else get_adjoint_output d) h
    = Some buf_out →
  (length arr ≠ length buf_in → copy_input arr forward d h = AssertFail) ∧
  (length arr ≠ length buf_out → copy_output arr forward d h = AssertFail) ∧
  (length arr = length buf_in →
     ∃ h', copy_input arr forward d h = Done h' ∧
       read_buffer
         (if forward then get_forward_input d else get_adjoint_input d) h'
         = Some arr) ∧
  (length arr = length buf_out → copy_output arr forward d h = Done buf_out).
Proof.
  unfold read_buffer, copy_input, copy_output. intros Hin Hout.
  destruct (h !! (if forward then get_forward_input d
                  else get_adjoint_input d).1) as [fi|] eqn:Hfi; [|done].
  destruct (h !! (if forward then get_forward_output d
                  else get_adjoint_output d).1) as [fo|] eqn:Hfo; [|done].
  simpl in Hin, Hout. injection Hin as <-. injection Hout as <-. simpl.
  repeat split.
  - intros Hne. by rewrite bool_decide_eq_false_2.
  - intros Hne. by rewrite bool_decide_eq_false_2.
  - intros Heq. rewrite bool_decide_eq_true_2 by done. simpl.
    eexists. split; [done|]. rewrite lookup_insert_eq. simpl.
    unfold vector_memcpy_from_array. rewrite <- Heq, firstn_all.
    by destruct forward.
  - intros Heq. rewrite bool_decide_eq_true_2 by done. simpl.
    unfold vector_memcpy_to_array. by rewrite <- Heq, drop_all, app_nil_r.
Qed.

Lemma copy_length_mismatch_aborts_witness :
  (length [1; 2; 3]%float ≠ length [1.5; 2]%float →
     copy_input [1; 2; 3]%float true chain chain_nodes = AssertFail) ∧
  (length [1; 2; 3]%float ≠ length [0; 0]%float →
     copy_output [1; 2; 3]%float true chain chain_nodes = AssertFail) ∧
  (length [1; 2; 3]%float = length [1.5; 2]%float →
     ∃ h', copy_input [1; 2; 3]%float true chain chain_nodes = Done h' ∧
       read_buffer (get_forward_input chain) h' = Some [1; 2; 3]%float) ∧
  (length [1; 2; 3]%float = length [0; 0]%float →
     copy_output [1; 2; 3]%float true chain chain_nodes = Done [0; 0]%float).
Proof.
  apply (copy_length_mismatch_aborts [1; 2; 3]%float true chain chain_nodes
           [1.5; 2]%float [0; 0]%float); by vm_compute.
Defined.

Example copy_input_too_long_aborts :
  copy_input [1; 2; 3]%float true chain chain_nodes = AssertFail ∧
  copy_input [1]%float false chain chain_nodes = AssertFail ∧
  copy_output [1; 2; 3]%float true chain chain_nodes = AssertFail.
Proof. by vm_compute. Qed.

(** C6: the adjoint input is the forward output, the output buffer of the
    end node, and the adjoint output is the forward input, the input buffer
    of the start node. *)
Theorem adjoint_boundary_is_swapped (d : FAO_DAG) :
  get_adjoint_input d = get_forward_output d ∧
  get_forward_output d = (end_node d, OutputData) ∧
  get_adjoint_output d = get_forward_input d ∧
  get_forward_input d = (start_node d, InputData).
Proof. done. Qed.

(** * Teardown report *)

Lemma forward_eval_keeps_adjoint_stats fuel t0 t1 d h d' h' :
  forward_eval fuel t0 t1 d h = Done (d', h') →
  adjoint_evals d' = adjoint_evals d ∧
  total_adjoint_eval_time d' = total_adjoint_eval_time d.
Proof.
  unfold forward_eval.
  destruct (traverse_graph _ _ _ _ _) as [[[d1 h1] T1]| | |] eqn:Ht; [|done..].
  simpl. intros [= <- <-]. by apply traverse_graph_frame in Ht as ->.
Qed.

Lemma adjoint_eval_keeps_forward_stats fuel t0 t1 d h d' h' :
  adjoint_eval fuel t0 t1 d h = Done (d', h') →
  forward_evals d' = forward_evals d ∧
  total_forward_eval_time d' = total_forward_eval_time d.
Proof.
  unfold adjoint_eval.
  destruct (traverse_graph _ _ _ _ _) as [[[d1 h1] T1]| | |] eqn:Ht; [|done..].
  simpl. intros [= <- <-]. by apply traverse_graph_frame in Ht as ->.
Qed.

Lemma run_calls_forward_stats fuel cs : ∀ s s',
  (∀ t0 t1, CallForwardEval t0 t1 ∉ cs) →
  for_each (run_call fuel) s cs = Done s' →
  forward_evals s'.1 = forward_evals s.1 ∧
  total_forward_eval_time s'.1 = total_forward_eval_time s.1.
Proof.
  induction cs as [|c cs IH]; intros s s' Hno; simpl.
  - by intros [= <-].
  - destruct (run_call fuel s c) as [s1| | |] eqn:Hc; [|done..]. simpl.
    intros Hrest. apply IH in Hrest as [-> ->].
    2:{ intros t0 t1 Hin. apply (Hno t0 t1). by right. }
    destruct s as [d h], s1 as [d1 h1], c as [t0 t1|t0 t1|arr fwd|arr fwd];
      simpl in Hc.
    + destruct (Hno t0 t1). by left.
    + by apply adjoint_eval_keeps_forward_stats in Hc.
    + destruct (copy_input _ _ _ _); [|done..]. by injection Hc as <- <-.
    + destruct (copy_output _ _ _ _); [|done..]. by injection Hc as <- <-.
Qed.

Lemma run_calls_adjoint_stats fuel cs : ∀ s s',
  (∀ t0 t1, CallAdjointEval t0 t1 ∉ cs) →
  for_each (run_call fuel) s cs = Done s' →
  adjoint_evals s'.1 = adjoint_evals s.1 ∧
  total_adjoint_eval_time s'.1 = total_adjoint_eval_time s.1.
Proof.
  induction cs as [|c cs IH]; intros s s' Hno; simpl.
  - by intros [= <-].
  - destruct (run_call fuel s c) as [s1| | |] eqn:Hc; [|done..]. simpl.
    intros Hrest. apply IH in Hrest as [-> ->].
    2:{ intros t0 t1 Hin. apply (Hno t0 t1). by right. }
    destruct s as [d h], s1 as [d1 h1], c as [t0 t1|t0 t1|arr fwd|arr fwd];
      simpl in Hc.
    + by apply forward_eval_keeps_adjoint_stats in Hc.
    + destruct (Hno t0 t1). by left.
    + destruct (copy_input _ _ _ _); [|done..]. by injection Hc as <- <-.
    + destruct (copy_output _ _ _ _); [|done..]. by injection Hc as <- <-.
Qed.

Lemma FAO_DAG_new_stats `{FAO_lifecycle} fuel s e E h d0 h0 :
  FAO_DAG_new fuel s e E h = Done (d0, h0) →
  forward_evals d0 = 0%Z ∧ total_forward_eval_time d0 = 0%float ∧
  adjoint_evals d0 = 0%Z ∧ total_adjoint_eval_time d0 = 0%float.
Proof.
  unfold FAO_DAG_new.
  destruct (traverse_graph _ _ _ _ _) as [[[d' h'] T']| | |] eqn:Ht; [|done..].
  simpl. intros [= <- <-]. by apply traverse_graph_frame in Ht as ->.
Qed.

(** The deallocating visitor returns on every live node and leaves the
    edge lists alone when [free_data] does. *)
Lemma node_free_ok `{FAO_lifecycle} h :
  (∀ f, edge_lists (free_data f) = edge_lists f) → visitor_ok h node_free.
Proof.
  intros Hfree nd hh Ht [f Hf]. unfold node_free. rewrite Hf. simpl.
  eexists. split; [done|].
  intros p. destruct (decide (p = nd)) as [->|Hne].
  - rewrite lookup_insert_eq. simpl. rewrite Hfree, <- (Ht nd). by rewrite Hf.
  - rewrite lookup_insert_ne by done. apply Ht.
Qed.

(** On a well-formed graph the destructor returns, with the report
    computed from the counters it found. *)
Lemma FAO_DAG_delete_returns `{FAO_lifecycle} fuel d h :
  well_formed true d h → idle d →
  (∀ f, edge_lists (free_data f) = edge_lists f) →
  size (edges d) < fuel →
  ∃ h', FAO_DAG_delete fuel d h = Done (teardown_report d, h').
Proof.
  intros Hwf Hidle Hfree Hfuel.
  destruct (traverse_graph_run true node_free d h h fuel
              (λ _ hh, same_topology h hh))
    as (h' & log & Hrun & _); [done|done|done|done|..].
  - intros T c hh Ht _ Hrc _.
    destruct (node_free_ok h Hfree c hh Ht) as (h1 & Hc & Ht1).
    { apply (same_topology_live h); [done|].
      destruct Hwf as [HC _ Hseed Hfed _].
      by apply (reach_live true (edges d) h (seed true d)). }
    by exists h1.
  - apply same_topology_refl.
  - exists h'. unfold FAO_DAG_delete. by rewrite Hrun.
Qed.

(** C9: when the engine is torn down before any forward evaluation (before
    any adjoint evaluation), the destructor divides the cumulative time
    0.0 by the call count 0 without a guard; the average it prints is a
    NaN, and the division does not stop the teardown: on a well-formed
    graph the destructor goes on to deallocate and returns. *)
Theorem teardown_average_is_nan `{FAO_lifecycle} (fuel : nat)
    (start end_ : node) (E : gmap Z (node * node))
    (h h0 h1 : gmap node FAO) (d0 d1 : FAO_DAG) (cs : list call) :
  FAO_DAG_new fuel start end_ E h = Done (d0, h0) →
  for_each (run_call fuel) (d0, h0) cs = Done (d1, h1) →
  ((∀ t0 t1, CallForwardEval t0 t1 ∉ cs) →
     rep_forward_evals (teardown_report d1) = 0%Z ∧
     rep_avg_forward_eval_time (teardown_report d1)
       = (0 / double_of_int 0)%float ∧
     PrimFloat.is_nan (rep_avg_forward_eval_time (teardown_report d1)) = true) ∧
  ((∀ t0 t1, CallAdjointEval t0 t1 ∉ cs) →
     rep_adjoint_evals (teardown_report d1) = 0%Z ∧
     rep_avg_adjoint_eval_time (teardown_report d1)
       = (0 / double_of_int 0)%float ∧
     PrimFloat.is_nan (rep_avg_adjoint_eval_time (teardown_report d1)) = true) ∧
  (∀ fuel',
     well_formed true d1 h1 →
     (∀ f, edge_lists (free_data f) = edge_lists f) →
     size (edges d1) < fuel' →
     ∃ h', FAO_DAG_delete fuel' d1 h1 = Done (teardown_report d1, h')).
Proof.
  intros Hnew Hcalls.
  assert (idle d1) as Hidle1.
  { apply (run_calls_idle fuel cs (d0, h0) (d1, h1)); [|done]. simpl.
    unfold FAO_DAG_new in Hnew.
    destruct (traverse_graph _ _ _ _ _) as [[[d' h'] T']| | |] eqn:Ht;
      [|done..].
    simpl in Hnew. injection Hnew as <- <-.
    apply traverse_graph_frame in Ht as ->. by split. }
  apply FAO_DAG_new_stats in Hnew as (Hf & Htf & Ha & Hta).
  split; [|split].
  - intros Hno.
    destruct (run_calls_forward_stats fuel cs (d0, h0) (d1, h1) Hno Hcalls)
      as [Hf1 Htf1]. simpl in Hf1, Htf1. unfold teardown_report. simpl.
    by rewrite Hf1, Htf1, Hf, Htf.
  - intros Hno.
    destruct (run_calls_adjoint_stats fuel cs (d0, h0) (d1, h1) Hno Hcalls)
      as [Ha1 Hta1]. simpl in Ha1, Hta1. unfold teardown_report. simpl.
    by rewrite Ha1, Hta1, Ha, Hta.
  - intros fuel' Hwf Hfree Hfuel. by apply FAO_DAG_delete_returns.
Qed.

Lemma teardown_average_is_nan_witness :
  ((∀ t0 t1, CallForwardEval t0 t1 ∉ [CallAdjointEval 1 3]) →
     rep_forward_evals (teardown_report (chain_after [CallAdjointEval 1 3]).1)
       = 0%Z ∧
     rep_avg_forward_eval_time
       (teardown_report (chain_after [CallAdjointEval 1 3]).1)
       = (0 / double_of_int 0)%float ∧
     PrimFloat.is_nan
       (rep_avg_forward_eval_time
          (teardown_report (chain_after [CallAdjointEval 1 3]).1)) = true) ∧
  ((∀ t0 t1, CallAdjointEval t0 t1 ∉ [CallAdjointEval 1 3]) →
     rep_adjoint_evals (teardown_report (chain_after [CallAdjointEval 1 3]).1)
       = 0%Z ∧
     rep_avg_adjoint_eval_time
       (teardown_report (chain_after [CallAdjointEval 1 3]).1)
       = (0 / double_of_int 0)%float ∧
     PrimFloat.is_nan
       (rep_avg_adjoint_eval_time
          (teardown_report (chain_after [CallAdjointEval 1 3]).1)) = true) ∧
  (∀ fuel',
     well_formed true (chain_after [CallAdjointEval 1 3]).1
       (chain_after [CallAdjointEval 1 3]).2 →
     (∀ f, edge_lists (free_data f) = edge_lists f) →
     size (edges (chain_after [CallAdjointEval 1 3]).1) < fuel' →
     ∃ h', FAO_DAG_delete fuel' (chain_after [CallAdjointEval 1 3]).1
       (chain_after [CallAdjointEval 1 3]).2
       = Done (teardown_report (chain_after [CallAdjointEval 1 3]).1, h')).
Proof.
  apply (teardown_average_is_nan 5 0 2 chain_edges chain_nodes chain_nodes
           (chain_after [CallAdjointEval 1 3]).2 chain
           (chain_after [CallAdjointEval 1 3]).1 [CallAdjointEval 1 3]).
  - by vm_compute.
  - by vm_compute.
Defined.

(** Torn down right after construction, the engine reports two NaN
    averages. *)
Example teardown_of_fresh_chain :
  match FAO_DAG_delete 5 chain chain_nodes with
  | Done (printed, h') =>
      printed = mkReport 0 nan 0 nan ∧
      map_to_list (input_data <$> h') = [(2, []); (1, []); (0, [])]
  | _ => False
  end.
Proof. by vm_compute. Qed.

(** * Data movement *)

Lemma propagate_forward_eq E nd h i :
  propagate_forward E nd h i = propagate true E nd h i.
Proof. done. Qed.

Lemma propagate_adjoint_eq E nd h i :
  propagate_adjoint E nd h i = propagate false E nd h i.
Proof. done. Qed.

Lemma node_eval_forward_eq E : node_eval_forward E = node_eval true E.
Proof. done. Qed.

Lemma node_eval_adjoint_eq E : node_eval_adjoint E = node_eval false E.
Proof. done. Qed.

(** ** [vector_subvec_memcpy] *)

Lemma memcpy_Some dst doff src soff len buf :
  vector_subvec_memcpy dst doff src soff len = Some buf ↔
  doff + len ≤ length dst ∧ soff + len ≤ length src ∧
  buf = take doff dst ++ take len (drop soff src) ++ drop (doff + len) dst.
Proof.
  unfold vector_subvec_memcpy. destruct (decide _) as [[? ?]|Hno].
  - split; [by intros [= <-]|by intros (_ & _ & ->)].
  - split; [done|]. intros (? & ? & _). by destruct Hno.
Qed.

Lemma memcpy_length dst doff src soff len buf :
  vector_subvec_memcpy dst doff src soff len = Some buf →
  length buf = length dst.
Proof.
  intros (Hd & Hs & ->)%memcpy_Some.
  rewrite !length_app, !length_take, !length_drop. lia.
Qed.

Lemma memcpy_lookup_inside dst doff src soff len buf k :
  vector_subvec_memcpy dst doff src soff len = Some buf → k < len →
  buf !! (doff + k) = src !! (soff + k).
Proof.
  intros (Hd & Hs & ->)%memcpy_Some Hk.
  rewrite lookup_app_r by (rewrite length_take; lia).
  rewrite length_take, Nat.min_l by lia.
  rewrite lookup_app_l by (rewrite length_take, length_drop; lia).
  rewrite lookup_take_lt by lia. rewrite lookup_drop. f_equal. lia.
Qed.

Lemma memcpy_lookup_outside dst doff src soff len buf j :
  vector_subvec_memcpy dst doff src soff len = Some buf →
  ¬ (doff ≤ j < doff + len) → buf !! j = dst !! j.
Proof.
  intros (Hd & Hs & ->)%memcpy_Some Hj.
  destruct (decide (j < doff)).
  - rewrite lookup_app_l by (rewrite length_take; lia).
    by rewrite lookup_take_lt by lia.
  - rewrite lookup_app_r by (rewrite length_take; lia).
    rewrite length_take, Nat.min_l by lia.
    rewrite lookup_app_r by (rewrite length_take, length_drop; lia).
    rewrite length_take, length_drop, Nat.min_l by lia.
    rewrite lookup_drop. f_equal. lia.
Qed.

(** Copying what is already there changes nothing. *)
Lemma memcpy_noop dst doff src soff len :
  doff + len ≤ length dst → soff + len ≤ length src →
  (∀ k, k < len → dst !! (doff + k) = src !! (soff + k)) →
  vector_subvec_memcpy dst doff src soff len = Some dst.
Proof.
  intros Hd Hs Heq.
  destruct (vector_subvec_memcpy dst doff src soff len) as [buf|] eqn:Hc.
  - f_equal. apply list_eq. intros j.
    destruct (decide (doff ≤ j < doff + len)) as [Hin|Hout].
    + replace j with (doff + (j - doff)) by lia.
      rewrite (memcpy_lookup_inside _ _ _ _ _ _ _ Hc) by lia.
      symmetry. apply Heq. lia.
    + by apply (memcpy_lookup_outside _ _ _ _ _ _ _ Hc).
  - unfold vector_subvec_memcpy in Hc. by rewrite decide_True in Hc.
Qed.

(** ** Nodes up to the content of their buffers *)

Lemma same_shape_fields f f' :
  same_shape f f' →
  input_edges f = input_edges f' ∧ output_edges f = output_edges f' ∧
  input_sizes f = input_sizes f' ∧ output_sizes f = output_sizes f' ∧
  input_offsets f = input_offsets f' ∧ output_offsets f = output_offsets f' ∧
  forward_kernel f = forward_kernel f' ∧ adjoint_kernel f = adjoint_kernel f' ∧
  get_elem_length f = get_elem_length f'.
Proof.
  intros [He _]. destruct f, f'. unfold erase_data in He. simpl in He.
  by injection He as -> -> -> -> -> -> -> -> ->.
Qed.

Lemma same_shape_own forward f f' :
  same_shape f f' →
  own_edges forward f = own_edges forward f' ∧
  own_sizes forward f = own_sizes forward f' ∧
  own_offsets forward f = own_offsets forward f' ∧
  far_offsets forward f = far_offsets forward f' ∧
  kernel forward f = kernel forward f' ∧
  get_elem_length f = get_elem_length f' ∧
  length (own_data forward f) = length (own_data forward f') ∧
  length (far_data forward f) = length (far_data forward f').
Proof.
  intros Hs. pose proof (same_shape_fields f f' Hs) as
    (? & ? & ? & ? & ? & ? & ? & ? & ?).
  destruct Hs as (_ & ? & ?).
  unfold own_edges, own_sizes, own_offsets, far_offsets, kernel, own_data,
    far_data. by destruct forward.
Qed.

Lemma same_shape_refl f : same_shape f f.
Proof. done. Qed.

Lemma same_shape_sym f f' : same_shape f f' → same_shape f' f.
Proof. by intros (? & ? & ?). Qed.

Lemma same_shape_trans f1 f2 f3 :
  same_shape f1 f2 → same_shape f2 f3 → same_shape f1 f3.
Proof.
  intros (? & ? & ?) (? & ? & ?). split; [congruence|]. split; congruence.
Qed.

Lemma same_shape_run_kernel forward f :
  length (kernel forward f (far_data forward f)) = length (own_data forward f) →
  same_shape f (run_kernel forward f).
Proof.
  unfold kernel, far_data, own_data, run_kernel. destruct forward, f; simpl.
  - intros Hl. by split; [|split].
  - intros Hl. by split; [|split].
Qed.

Lemma same_shape_set_far_data forward f v :
  length v = length (far_data forward f) →
  same_shape f (set_far_data forward v f).
Proof.
  unfold far_data, set_far_data. destruct forward, f; simpl.
  - intros Hl. by split; [|split].
  - intros Hl. by split; [|split].
Qed.

Lemma set_own_offsets_id forward f :
  set_own_offsets forward (own_offsets forward f) f = f.
Proof. by destruct forward, f. Qed.

Lemma set_far_offsets_id forward f :
  set_far_offsets forward (far_offsets forward f) f = f.
Proof. by destruct forward, f. Qed.

Lemma set_far_data_id forward f : set_far_data forward (far_data forward f) f = f.
Proof. by destruct forward, f. Qed.

Lemma far_data_set_far_data forward v f :
  far_data forward (set_far_data forward v f) = v.
Proof. by destruct forward. Qed.

Lemma own_data_set_far_data forward v f :
  own_data forward (set_far_data forward v f) = own_data forward f.
Proof. by destruct forward. Qed.

Lemma far_data_run_kernel forward f :
  far_data forward (run_kernel forward f) = far_data forward f.
Proof. by destruct forward. Qed.

Lemma own_data_run_kernel forward f :
  own_data forward (run_kernel forward f) =
  kernel forward f (far_data forward f).
Proof. by destruct forward. Qed.

Lemma run_kernel_id forward f :
  own_data forward f = kernel forward f (far_data forward f) →
  run_kernel forward f = f.
Proof.
  unfold own_data, kernel, far_data, run_kernel, FAO_forward_eval,
    FAO_adjoint_eval. destruct forward, f; simpl; by intros <-.
Qed.

Lemma same_layout_refl h : same_layout h h.
Proof. intros p. destruct (h !! p); by constructor. Qed.

Lemma same_layout_sym h h' : same_layout h h' → same_layout h' h.
Proof.
  intros Hl p. destruct (Hl p); constructor. by apply same_shape_sym.
Qed.

Lemma same_layout_trans h1 h2 h3 :
  same_layout h1 h2 → same_layout h2 h3 → same_layout h1 h3.
Proof.
  intros H12 H23 p. specialize (H12 p). specialize (H23 p).
  destruct H12 as [f1 f2 Hs|]; inversion H23; subst; constructor.
  by eapply same_shape_trans.
Qed.

Lemma same_layout_lookup h h' p f :
  same_layout h h' → h !! p = Some f →
  ∃ f', h' !! p = Some f' ∧ same_shape f f'.
Proof.
  intros Hl Hp. specialize (Hl p). rewrite Hp in Hl.
  inversion Hl as [? f' Hs|]; subst. eauto.
Qed.

Lemma same_layout_insert h h' p f f' :
  same_layout h h' → h' !! p = Some f → same_shape f f' →
  same_layout h (<[p := f']> h').
Proof.
  intros Hl Hp Hs q. destruct (decide (q = p)) as [->|Hne].
  - rewrite lookup_insert_eq. specialize (Hl p). rewrite Hp in Hl.
    inversion Hl as [f0 ? Hs0|]; subst. constructor.
    by eapply same_shape_trans.
  - rewrite lookup_insert_ne by done. apply Hl.
Qed.

Lemma same_layout_topology h h' : same_layout h h' → same_topology h h'.
Proof.
  intros Hl p. destruct (Hl p) as [f f' Hs|]; [|done]. simpl.
  apply same_shape_fields in Hs as (Hi & Ho & _). unfold edge_lists.
  by rewrite Hi, Ho.
Qed.

Lemma edge_xfer_same_layout forward E h h' f f' i :
  same_layout h h' → same_shape f f' →
  edge_xfer forward E h' f' i = edge_xfer forward E h f i.
Proof.
  intros Hl Hs. unfold edge_xfer.
  apply (same_shape_own forward) in Hs as (-> & -> & -> & _ & _ & -> & _).
  destruct (own_edges forward f' !! i) as [e|]; [|done]. simpl.
  destruct (E !! e) as [edge|]; [|done]. simpl.
  destruct (own_sizes forward f' !! i) as [shape|]; [|done]. simpl.
  destruct (own_offsets forward f' !! e) as [off|]; [|done]. simpl.
  destruct (Hl (far_end forward edge)) as [tf tf' Ht|]; [|done]. simpl.
  by apply (same_shape_own forward) in Ht as (_ & _ & _ & -> & _).
Qed.

(** ** One copy *)

Lemma map_subscript_Some `{Countable K} {V} (dflt : V) (m : gmap K V) k v :
  m !! k = Some v → map_subscript dflt m k = (v, m).
Proof. unfold map_subscript. by intros ->. Qed.

Lemma edge_xfer_inv forward E h f i x :
  edge_xfer forward E h f i = Some x →
  ∃ e edge shape off tf toff,
    own_edges forward f !! i = Some e ∧ E !! e = Some edge ∧
    own_sizes forward f !! i = Some shape ∧
    own_offsets forward f !! e = Some off ∧
    h !! far_end forward edge = Some tf ∧
    far_offsets forward tf !! e = Some toff ∧
    x = mkXfer (far_end forward edge) (N.to_nat (get_elem_length f shape))
          (N.to_nat off) (N.to_nat toff).
Proof.
  unfold edge_xfer.
  destruct (own_edges forward f !! i) as [e|] eqn:He; [|done]. simpl.
  destruct (E !! e) as [edge|] eqn:Hedge; [|done]. simpl.
  destruct (own_sizes forward f !! i) as [shape|] eqn:Hsh; [|done]. simpl.
  destruct (own_offsets forward f !! e) as [off|] eqn:Hoff; [|done]. simpl.
  destruct (h !! far_end forward edge) as [tf|] eqn:Htf; [|done]. simpl.
  destruct (far_offsets forward tf !! e) as [toff|] eqn:Htoff; [|done]. simpl.
  intros [= <-]. by exists e, edge, shape, off, tf, toff.
Qed.

(** With its transfer defined, a copy is one [vector_subvec_memcpy] into
    the far buffer of the target. *)
Lemma propagate_xfer forward E nd h i f x tf :
  h !! nd = Some f → edge_xfer forward E h f i = Some x →
  h !! x_target x = Some tf →
  propagate forward E nd h i =
    buf ← deref (vector_subvec_memcpy (far_data forward tf) (x_to x)
                   (own_data forward f) (x_from x) (x_len x));
    Done (<[x_target x := set_far_data forward buf tf]> h).
Proof.
  intros Hf (e & edge & shape & off & tf' & toff & He & Hedge & Hsh & Hoff &
    Htf' & Htoff & ->)%edge_xfer_inv Htf. simpl in *.
  rewrite Htf' in Htf. injection Htf as ->.
  unfold propagate. rewrite Hf. simpl. rewrite He. simpl. rewrite Hedge. simpl.
  rewrite Hsh. simpl. rewrite (map_subscript_Some _ _ _ _ Hoff).
  rewrite set_own_offsets_id, (insert_id h nd f Hf), Htf'. simpl.
  rewrite (map_subscript_Some _ _ _ _ Htoff).
  rewrite set_far_offsets_id, (insert_id h _ tf Htf'), Hf. done.
Qed.

Lemma far_cell_insert forward h t tf buf p j :
  far_cell forward (<[t := set_far_data forward buf tf]> h) p j =
  if decide (p = t) then buf !! j else far_cell forward h p j.
Proof.
  unfold far_cell. destruct (decide (p = t)) as [->|Hne].
  - rewrite lookup_insert_eq. simpl. by rewrite far_data_set_far_data.
  - by rewrite lookup_insert_ne.
Qed.

Lemma edge_xfer_lt forward E h f i x :
  edge_xfer forward E h f i = Some x → i < length (own_edges forward f).
Proof.
  intros (e & _ & _ & _ & _ & _ & He & _)%edge_xfer_inv.
  by apply lookup_lt_Some in He.
Qed.

(** ** The copy loop of a visitor *)

Lemma propagate_each_effect forward E c hs fs positions : ∀ hk,
  hs !! c = Some fs →
  same_layout hs hk →
  (∀ p, own_data forward <$> hk !! p = own_data forward <$> hs !! p) →
  NoDup positions →
  (∀ i, i ∈ positions →
     ∃ x tf, edge_xfer forward E hs fs i = Some x ∧
       hs !! x_target x = Some tf ∧
       x_from x + x_len x ≤ length (own_data forward fs) ∧
       x_to x + x_len x ≤ length (far_data forward tf)) →
  (∀ i i' x x' p j, i ∈ positions → i' ∈ positions → i ≠ i' →
     edge_xfer forward E hs fs i = Some x →
     edge_xfer forward E hs fs i' = Some x' →
     x_covers x p j → ¬ x_covers x' p j) →
  ∃ h', for_each (propagate forward E c) hk positions = Done h' ∧
    same_layout hs h' ∧
    (∀ p, own_data forward <$> h' !! p = own_data forward <$> hs !! p) ∧
    (∀ p j,
       (∀ i x, i ∈ positions → edge_xfer forward E hs fs i = Some x →
          ¬ x_covers x p j) →
       far_cell forward h' p j = far_cell forward hk p j) ∧
    (∀ i x k, i ∈ positions → edge_xfer forward E hs fs i = Some x →
       k < x_len x →
       far_cell forward h' (x_target x) (x_to x + k) =
       own_data forward fs !! (x_from x + k)).
Proof.
  induction positions as [|i rest IH]; intros hk Hc Hl Hown Hnd Hx Hdisj.
  - exists hk. simpl. split; [done|]. split; [done|]. split; [done|].
    split; [done|]. intros i x k Hi. by apply elem_of_nil in Hi.
  - apply NoDup_cons in Hnd as [Hi Hnd].
    destruct (Hx i) as (x & tf & Hxi & Htf & Hfrom & Hto); [by left|].
    destruct (same_layout_lookup hs hk c fs Hl Hc) as (fk & Hfk & Hsk).
    destruct (same_layout_lookup hs hk _ tf Hl Htf) as (tfk & Htfk & Hstk).
    assert (own_data forward fk = own_data forward fs) as Hownk.
    { specialize (Hown c). rewrite Hfk, Hc in Hown. by injection Hown. }
    pose proof (same_shape_own forward _ _ Hstk)
      as (_ & _ & _ & _ & _ & _ & _ & Hlen).
    destruct (vector_subvec_memcpy (far_data forward tfk) (x_to x)
                (own_data forward fk) (x_from x) (x_len x)) as [buf|] eqn:Hcp.
    2:{ unfold vector_subvec_memcpy in Hcp.
        rewrite decide_True in Hcp; [done|]. rewrite Hownk. lia. }
    assert (propagate forward E c hk i =
            Done (<[x_target x := set_far_data forward buf tfk]> hk)) as Hstep.
    { rewrite (propagate_xfer forward E c hk i fk x tfk Hfk); [|..|done].
      - by rewrite Hcp.
      - by rewrite (edge_xfer_same_layout forward E hs hk fs fk i). }
    destruct (IH (<[x_target x := set_far_data forward buf tfk]> hk))
      as (h' & Hrun & Hl' & Hown' & Hout & Hin); [done| | |done| |..].
    { apply same_layout_insert with tfk; [done|done|].
      apply same_shape_set_far_data. by eapply memcpy_length. }
    { intros p. destruct (decide (p = x_target x)) as [->|Hne].
      - rewrite lookup_insert_eq. simpl. rewrite own_data_set_far_data.
        by rewrite <- Hown, Htfk.
      - by rewrite lookup_insert_ne. }
    { intros i' Hi'. apply Hx. by right. }
    { intros i1 i2 x1 x2 p j H1 H2. apply Hdisj; by right. }
    exists h'. simpl. rewrite Hstep. simpl. split; [done|].
    split; [done|]. split; [done|]. split.
    + intros p j Hfree. rewrite Hout.
      2:{ intros i' x' Hi'. apply Hfree. by right. }
      rewrite far_cell_insert. destruct (decide (p = x_target x)) as [->|]; [|done].
      unfold far_cell. rewrite Htfk. simpl.
      apply (memcpy_lookup_outside _ _ _ _ _ _ _ Hcp).
      intros Hj. apply (Hfree i x); [by left|done|]. by split.
    + intros i' x' k [->|Hi']%elem_of_cons Hxi' Hk.
      * rewrite Hxi in Hxi'. injection Hxi' as <-. rewrite Hout.
        2:{ intros i2 x2 Hi2 Hx2 Hcov.
            eapply (Hdisj i i2 x x2); [by left|by right|by intros ->|done|done| |done].
            split; [done|lia]. }
        rewrite far_cell_insert, decide_True by done.
        rewrite (memcpy_lookup_inside _ _ _ _ _ _ _ Hcp) by done.
        by rewrite Hownk.
      * by apply (Hin i').
Qed.

(** The effect of an evaluation visitor on node [c]: the node's own buffer
    receives the result of its kernel; no other own buffer changes; for
    every position of the edge list, the cells of the transfer in the far
    buffer of its target receive the node's values; every far cell outside
    all the transfers keeps its value. *)
Lemma node_eval_effect forward E c h f :
  h !! c = Some f →
  length (kernel forward f (far_data forward f)) = length (own_data forward f) →
  (∀ i, i < length (own_edges forward f) →
     ∃ x tf, edge_xfer forward E h f i = Some x ∧
       h !! x_target x = Some tf ∧
       x_from x + x_len x ≤ length (own_data forward f) ∧
       x_to x + x_len x ≤ length (far_data forward tf)) →
  (∀ i i' x x' p j, i ≠ i' →
     edge_xfer forward E h f i = Some x →
     edge_xfer forward E h f i' = Some x' →
     x_covers x p j → ¬ x_covers x' p j) →
  ∃ h', node_eval forward E c h = Done h' ∧
    same_layout h h' ∧
    (∀ p, own_data forward <$> h' !! p =
       if decide (p = c) then Some (kernel forward f (far_data forward f))
       else own_data forward <$> h !! p) ∧
    (∀ p j,
       (∀ i x, edge_xfer forward E h f i = Some x → ¬ x_covers x p j) →
       far_cell forward h' p j = far_cell forward h p j) ∧
    (∀ i x k, edge_xfer forward E h f i = Some x → k < x_len x →
       far_cell forward h' (x_target x) (x_to x + k) =
       kernel forward f (far_data forward f) !! (x_from x + k)).
Proof.
  intros Hc Hk Hx Hdisj.
  set (fs := run_kernel forward f). set (hs := <[c := fs]> h).
  assert (same_shape f fs) as Hsf by by apply same_shape_run_kernel.
  assert (same_layout h hs) as Hl.
  { apply same_layout_insert with f; [apply same_layout_refl|done|done]. }
  assert (∀ i, edge_xfer forward E hs fs i = edge_xfer forward E h f i) as Hxe.
  { intros i. by apply edge_xfer_same_layout. }
  pose proof (same_shape_own forward _ _ Hsf)
    as (Hedges & _ & _ & _ & _ & _ & Hlo & _).
  destruct (propagate_each_effect forward E c hs fs
              (seq 0 (length (own_edges forward f))) hs)
    as (h' & Hrun & Hl' & Hown & Hout & Hin).
  - apply lookup_insert_eq.
  - apply same_layout_refl.
  - done.
  - apply NoDup_seq.
  - intros i Hi%elem_of_seq.
    destruct (Hx i) as (x & tf & Hxi & Htf & Hfrom & Hto); [lia|].
    destruct (same_layout_lookup h hs _ tf Hl Htf) as (tfs & Htfs & Hst).
    pose proof (same_shape_own forward _ _ Hst)
      as (_ & _ & _ & _ & _ & _ & _ & Hlf).
    exists x, tfs. rewrite Hxe. split; [done|]. split; [done|].
    rewrite <- Hlo, <- Hlf. done.
  - intros i i' x x' p j _ _ Hne. rewrite !Hxe. by apply Hdisj.
  - exists h'. unfold node_eval. rewrite Hc. simpl. fold fs. fold hs.
    rewrite Hrun. split; [done|]. split; [by eapply same_layout_trans|].
    assert (∀ p j, far_cell forward hs p j = far_cell forward h p j) as Hfc.
    { intros p j. unfold far_cell, hs. destruct (decide (p = c)) as [->|Hne].
      - rewrite lookup_insert_eq, Hc. simpl. unfold fs.
        by rewrite far_data_run_kernel.
      - by rewrite lookup_insert_ne. }
    split; [|split].
    + intros p. rewrite Hown. unfold hs. destruct (decide (p = c)) as [->|Hne].
      * rewrite lookup_insert_eq. simpl. unfold fs.
        by rewrite own_data_run_kernel.
      * by rewrite lookup_insert_ne.
    + intros p j Hfree. rewrite Hout, Hfc; [done|].
      intros i x _. rewrite Hxe. apply Hfree.
    + intros i x k Hxi Hlt. rewrite (Hin i x k); [| |by rewrite Hxe|done].
      * unfold fs. by rewrite own_data_run_kernel.
      * apply elem_of_seq. apply edge_xfer_lt in Hxi. lia.
Qed.

(** ** Settled nodes *)

Lemma for_each_fixed {S X} (body : S → X → outcome S) s xs :
  (∀ x, x ∈ xs → body s x = Done s) → for_each body s xs = Done s.
Proof.
  induction xs as [|x xs IH]; intros Hall; [done|]. simpl.
  rewrite Hall by by left. simpl. apply IH. intros y Hy. apply Hall. by right.
Qed.

(** On a settled node the visitor changes nothing. *)
Lemma settled_noop forward E h c :
  settled forward E h c → node_eval forward E c h = Done h.
Proof.
  intros (f & Hc & Hown & Hx). unfold node_eval. rewrite Hc. simpl.
  rewrite (run_kernel_id forward f Hown), (insert_id h c f Hc).
  apply for_each_fixed. intros i Hi%elem_of_seq.
  destruct (Hx i) as (x & tf & Hxi & Htf & Hfrom & Hto & Hcells); [lia|].
  rewrite (propagate_xfer forward E c h i f x tf Hc Hxi Htf).
  rewrite (memcpy_noop _ _ _ _ _ Hto Hfrom Hcells). simpl.
  by rewrite set_far_data_id, insert_id.
Qed.

Lemma layout_ok_same_layout forward E h h' :
  layout_ok forward E h → same_layout h h' → layout_ok forward E h'.
Proof.
  intros [Hk Hx Hd] Hl. pose proof (same_layout_sym _ _ Hl) as Hl'. split.
  - intros u f' v Hu Hv.
    destruct (same_layout_lookup h' h u f' Hl' Hu) as (f & Hf & Hs).
    pose proof (same_shape_own forward _ _ Hs)
      as (_ & _ & _ & _ & -> & _ & -> & Hfar).
    apply (Hk u); [done|]. by rewrite <- Hfar.
  - intros u f' i Hu Hi.
    destruct (same_layout_lookup h' h u f' Hl' Hu) as (f & Hf & Hs).
    pose proof (same_shape_own forward _ _ Hs)
      as (Hedges & _ & _ & _ & _ & _ & Hown & _).
    destruct (Hx u f i Hf) as (x & tf & Hxi & Htf & Hfrom & Hto);
      [by rewrite <- Hedges|].
    destruct (same_layout_lookup h h' _ tf Hl Htf) as (tf' & Htf' & Hst).
    pose proof (same_shape_own forward _ _ Hst)
      as (_ & _ & _ & _ & _ & _ & _ & Hfar).
    exists x, tf'. split; [|split; [done|]; rewrite Hown, <- Hfar; done].
    rewrite <- Hxi. apply edge_xfer_same_layout; [done|by apply same_shape_sym].
  - intros u f1 i x u' f1' i' x' p j Hu Hxi Hu' Hxi'.
    destruct (same_layout_lookup h' h u f1 Hl' Hu) as (f & Hf & Hs).
    destruct (same_layout_lookup h' h u' f1' Hl' Hu') as (f' & Hf' & Hs').
    apply (Hd u f i x u' f' i' x' p j); [done| |done|].
    + rewrite <- Hxi. symmetry.
      apply edge_xfer_same_layout; [done|by apply same_shape_sym].
    + rewrite <- Hxi'. symmetry.
      apply edge_xfer_same_layout; [done|by apply same_shape_sym].
Qed.

Lemma xfer_dstep forward E h c f i x :
  lists_consistent E h → h !! c = Some f →
  edge_xfer forward E h f i = Some x → dstep forward E c (x_target x).
Proof.
  intros HC Hc (e & edge & shape & off & tf & toff & He & Hedge & _ & _ &
    _ & _ & ->)%edge_xfer_inv. simpl.
  assert (e ∈ outs forward h c) as Hin.
  { unfold outs. rewrite Hc. apply list_elem_of_lookup. by exists i. }
  apply (outs_spec forward E h HC) in Hin as (pr & Hpr & Hnear).
  rewrite Hedge in Hpr. injection Hpr as <-.
  apply dstep_spec. eauto.
Qed.

Lemma far_cell_eq forward h h' p :
  same_layout h h' →
  (∀ j, far_cell forward h' p j = far_cell forward h p j) →
  far_data forward <$> h' !! p = far_data forward <$> h !! p.
Proof.
  intros Hl Hcells. unfold far_cell in Hcells.
  destruct (Hl p) as [f f' Hs|]; [|done]. simpl in *. f_equal.
  by apply list_eq.
Qed.

Lemma settled_intro forward E hh h1 u fu out :
  same_layout hh h1 → hh !! u = Some fu →
  own_data forward <$> h1 !! u = Some out →
  out = kernel forward fu (far_data forward fu) →
  (∀ j, far_cell forward h1 u j = far_cell forward hh u j) →
  (∀ i, i < length (own_edges forward fu) →
     ∃ x tf, edge_xfer forward E hh fu i = Some x ∧
       hh !! x_target x = Some tf ∧
       x_from x + x_len x ≤ length (own_data forward fu) ∧
       x_to x + x_len x ≤ length (far_data forward tf) ∧
       ∀ k, k < x_len x →
         far_cell forward h1 (x_target x) (x_to x + k) = out !! (x_from x + k)) →
  settled forward E h1 u.
Proof.
  intros Hl Hu Hown Hout Hfar Hx.
  destruct (same_layout_lookup hh h1 u fu Hl Hu) as (fu1 & Hfu1 & Hs).
  pose proof (same_shape_own forward _ _ Hs)
    as (Hedges & _ & _ & _ & Hker & _ & Hlo & _).
  rewrite Hfu1 in Hown. simpl in Hown. injection Hown as Hown.
  pose proof (far_cell_eq forward hh h1 u Hl Hfar) as Hfd.
  rewrite Hfu1, Hu in Hfd. simpl in Hfd. injection Hfd as Hfd.
  exists fu1. split; [done|]. split; [by rewrite Hown, <- Hker, Hfd|].
  intros i Hi. rewrite <- Hedges in Hi.
  destruct (Hx i Hi) as (x & tf & Hxi & Htf & Hfrom & Hto & Hcells).
  destruct (same_layout_lookup hh h1 _ tf Hl Htf) as (tf1 & Htf1 & Hst).
  pose proof (same_shape_own forward _ _ Hst)
    as (_ & _ & _ & _ & _ & _ & _ & Hlf).
  exists x, tf1. split; [|split; [done|]].
  { rewrite <- Hxi. by apply edge_xfer_same_layout. }
  rewrite <- Hlo, <- Hlf, Hown. split; [done|]. split; [done|].
  intros k Hk. rewrite <- (Hcells k Hk). unfold far_cell. by rewrite Htf1.
Qed.

(** An evaluation pass over a well-formed graph with a sound layout
    returns, keeps the layout, and leaves every reachable node settled;
    the far buffer of a node without producers (the seed) is untouched. *)
Lemma eval_settles forward d h fuel :
  well_formed forward d h → idle d → layout_ok forward (edges d) h →
  size (edges d) < fuel →
  ∃ h' log,
    traverse_graph fuel (node_eval forward (edges d)) forward d h =
      Done (d, h', log) ∧
    same_layout h h' ∧
    (∀ v, reachable forward d v → settled forward (edges d) h' v) ∧
    (∀ p, (∀ w, ¬ dstep forward (edges d) w p) →
       far_data forward <$> h' !! p = far_data forward <$> h !! p) ∧
    NoDup log ∧ (∀ v, v ∈ log ↔ reachable forward d v).
Proof.
  intros Hwf Hidle Hlo Hfuel.
  set (P := λ (T : list node) (hh : gmap node FAO),
     same_layout h hh ∧
     (∀ u, u ∈ T → settled forward (edges d) hh u) ∧
     (∀ u w, u ∈ T → dstep forward (edges d) w u → w ∈ T) ∧
     (∀ p j, (∀ w, ¬ dstep forward (edges d) w p) →
        far_cell forward hh p j = far_cell forward h p j)).
  destruct (traverse_graph_run forward (node_eval forward (edges d)) d h h
              fuel P)
    as (h' & log & Hrun & HP & Hnd & Hmem); [done|done|done|..].
  - intros T hh (Hl & _). by apply same_layout_topology.
  - intros T c hh (Hl & Hset & Hclosed & Hroot) HcT Hrc Hprod.
    pose proof (same_layout_topology _ _ Hl) as Htop.
    pose proof (well_formed_same_topology forward d h hh Hwf Htop) as Hwfh.
    pose proof (layout_ok_same_layout forward _ h hh Hlo Hl) as Hloh.
    destruct Hwfh as [HC Hacyc Hseed Hfed Hsize].
    destruct (reach_live forward (edges d) hh (seed forward d) HC Hseed
                c Hrc) as [fc Hc].
    destruct (node_eval_effect forward (edges d) c hh fc Hc)
      as (h1 & Heval & Hl1 & Hown1 & Hout1 & Hin1).
    { by apply (lo_kernel _ _ _ Hloh c fc _ Hc). }
    { intros i Hi. by apply (lo_xfer _ _ _ Hloh c fc i Hc Hi). }
    { intros i i' x x' p j Hne Hxi Hxi'.
      apply (lo_disjoint _ _ _ Hloh c fc i x c fc i' x' p j); try done.
      intros [= ?]. done. }
    assert (∀ i x p j, edge_xfer forward (edges d) hh fc i = Some x →
              x_covers x p j → dstep forward (edges d) c p) as Hcov.
    { intros i x p j Hxi [<- _]. by eapply xfer_dstep. }
    exists h1. split; [done|]. split; [by eapply same_layout_trans|].
    split; [|split].
    + intros u [Hu| ->%list_elem_of_singleton]%elem_of_app.
      * assert (u ≠ c) as Hne by by intros ->.
        destruct (Hset u Hu) as (fu & Hfu & Hownu & Hxu).
        apply (settled_intro forward (edges d) hh h1 u fu (own_data forward fu));
          [done|done| |done| |].
        { by rewrite Hown1, decide_False, Hfu. }
        { intros j. apply Hout1. intros i x Hxi Hc'.
          apply HcT, (Hclosed u c Hu). by eapply Hcov. }
        intros i Hi.
        destruct (Hxu i Hi) as (x & tf & Hxi & Htf & Hfrom & Hto & Hcells).
        exists x, tf. do 4 (split; [done|]). intros k Hk.
        rewrite Hout1.
        { unfold far_cell. rewrite Htf. simpl. by apply Hcells. }
        intros i' x' Hxi' Hcov'.
        apply (lo_disjoint _ _ _ Hloh c fc i' x' u fu i x
                 (x_target x) (x_to x + k)); try done.
        { intros [= ? ?]. by apply Hne. }
        split; [done|lia].
      * apply (settled_intro forward (edges d) hh h1 c fc
                 (kernel forward fc (far_data forward fc)));
          [done|done| |done| |].
        { by rewrite Hown1, decide_True. }
        { intros j. apply Hout1. intros i x Hxi Hc'.
          apply (dstep_acyclic forward (edges d) Hacyc c).
          apply tc_once. by eapply Hcov. }
        intros i Hi.
        destruct (lo_xfer _ _ _ Hloh c fc i Hc Hi)
          as (x & tf & Hxi & Htf & Hfrom & Hto).
        exists x, tf. do 4 (split; [done|]). intros k Hk. by apply (Hin1 i).
    + intros u w [Hu| ->%list_elem_of_singleton]%elem_of_app Hw;
        apply elem_of_app; left; [by eapply Hclosed|by apply Hprod].
    + intros p j Hp. rewrite Hout1; [by apply Hroot|].
      intros i x Hxi Hc'. apply (Hp c). by eapply Hcov.
  - split; [apply same_layout_refl|].
    split; [intros u Hu; by apply elem_of_nil in Hu|].
    split; [intros u w Hu; by apply elem_of_nil in Hu|done].
  - exists h', log. destruct HP as (Hl & Hset & _ & Hroot).
    split; [done|]. split; [done|]. split; [|split; [|done]].
    + intros v Hv. by apply Hset, Hmem.
    + intros p Hp. apply far_cell_eq; [done|]. intros j. by apply Hroot.
Qed.

(** ** Soundness of the layout check *)

Lemma all_xfers_elem forward E h u f i x :
  h !! u = Some f → edge_xfer forward E h f i = Some x →
  (u, i, x) ∈ all_xfers forward E h.
Proof.
  intros Hu Hx. unfold all_xfers.
  apply list_elem_of_bind. exists (u, f). split; [|by apply elem_of_map_to_list].
  apply list_elem_of_bind. exists i. simpl. split.
  - rewrite Hx. by left.
  - apply elem_of_seq. apply edge_xfer_lt in Hx. lia.
Qed.

Lemma layout_okb_sound forward E h :
  layout_okb forward E h = true → kernels_keep_length forward h →
  layout_ok forward E h.
Proof.
  unfold layout_okb. rewrite andb_true_iff, !bool_decide_eq_true.
  intros [Hfit Hapart] Hk. split.
  - intros u f v Hu Hv. destruct (Hk u f Hu) as [Hlen Hkv].
    by rewrite Hkv, Hv.
  - intros u f i Hu Hi. specialize (Hfit u f Hu). simpl in Hfit.
    rewrite Forall_forall in Hfit.
    assert (xfer_fitsb forward E h f i = true) as Hb.
    { apply Hfit, elem_of_seq. lia. }
    unfold xfer_fitsb in Hb.
    destruct (edge_xfer forward E h f i) as [x|]; [|done].
    destruct (h !! x_target x) as [tf|] eqn:Htf; [|done].
    apply bool_decide_eq_true in Hb as [? ?]. by exists x, tf.
  - intros u f i x u' f' i' x' p j Hu Hx Hu' Hx' Hne [Ht Hr] [Ht' Hr'].
    pose proof (all_xfers_elem forward E h u f i x Hu Hx) as Ha.
    pose proof (all_xfers_elem forward E h u' f' i' x' Hu' Hx') as Hb.
    rewrite Forall_forall in Hapart. specialize (Hapart _ Ha).
    rewrite Forall_forall in Hapart. specialize (Hapart _ Hb).
    unfold xfers_apart in Hapart. simpl in Hapart.
    destruct Hapart as [?|[?|[?|?]]]; [done|congruence|lia|lia].
Qed.

Lemma map_Forall_list_to_map `{Countable K} {V} (P : K → V → Prop)
    (l : list (K * V)) :
  Forall (λ kv, P kv.1 kv.2) l → map_Forall P (list_to_map l : gmap K V).
Proof.
  intros Hall k v Hkv%elem_of_list_to_map_2.
  rewrite Forall_forall in Hall. apply (Hall (k, v) Hkv).
Qed.

Lemma chain_well_formed forward : well_formed forward chain chain_nodes.
Proof.
  destruct forward.
  - apply (well_formedb_sound true id). by vm_compute.
  - apply (well_formedb_sound false id). by vm_compute.
Qed.

Lemma chain_layout_ok forward : layout_ok forward chain_edges chain_nodes.
Proof.
  apply layout_okb_sound; [by destruct forward; vm_compute|].
  apply map_Forall_list_to_map.
  destruct forward; repeat constructor; simpl; intros; by rewrite ?length_fmap.
Qed.

(** * Claims about the evaluation pipelines *)

Lemma well_formed_same_graph forward d d' h :
  same_graph d d' → well_formed forward d h → well_formed forward d' h.
Proof.
  intros (Hs & He & HE) [HC Hacyc Hseed Hfed Hsize].
  unfold reachable, seed in *. split; unfold reachable, seed; rewrite ?HE, ?Hs, ?He; done.
Qed.

Lemma forward_eval_graph fuel t0 t1 d h d' h' :
  forward_eval fuel t0 t1 d h = Done (d', h') →
  same_graph d d' ∧ idle d' ∧
  ∃ log, traverse_graph fuel (node_eval true (edges d)) true d h =
           Done (set_eval_map ∅ (set_ready_queue [] d), h', log).
Proof.
  unfold forward_eval. rewrite node_eval_forward_eq.
  destruct (traverse_graph _ _ _ _ _) as [[[d1 h1] T1]| | |] eqn:Ht; [|done..].
  simpl. intros [= <- <-].
  pose proof (traverse_graph_frame _ _ _ _ _ _ _ _ Ht) as ->.
  split; [done|]. split; [done|]. by exists T1.
Qed.

(** Evaluating a store whose reachable nodes are all settled returns the
    same store. *)
Lemma forward_eval_settled fuel t0 t1 d h :
  well_formed true d h → idle d → size (edges d) < fuel →
  (∀ v, reachable true d v → settled true (edges d) h v) →
  ∃ d', forward_eval fuel t0 t1 d h = Done (d', h) ∧
    same_graph d d' ∧ idle d'.
Proof.
  intros Hwf Hidle Hfuel Hset.
  destruct (traverse_graph_run true (node_eval true (edges d)) d h h fuel
              (λ _ hh, hh = h))
    as (h' & log & Hrun & -> & _); [done|done|done|..].
  - intros T hh ->. apply same_topology_refl.
  - intros T c hh -> _ Hrc _. exists h. split; [|done].
    by apply settled_noop, Hset.
  - done.
  - unfold forward_eval. rewrite node_eval_forward_eq, Hrun. simpl.
    eexists. split; [done|]. destruct Hidle. by split.
Qed.

Lemma copy_input_same arr d h :
  read_buffer (get_forward_input d) h = Some arr →
  copy_input arr true d h = Done h.
Proof.
  unfold read_buffer, copy_input. simpl.
  destruct (h !! start_node d) as [f|] eqn:Hf; [|done]. simpl.
  intros [= <-]. rewrite bool_decide_eq_true_2 by done. simpl.
  unfold vector_memcpy_from_array. rewrite firstn_all. f_equal.
  apply insert_id. rewrite Hf. by destruct f.
Qed.

(** C8: on a well-formed graph with a sound layout, after one
    [forward_eval] any number of further [forward_eval] calls, with the
    global input left alone or refilled with the same content in between,
    return the very same store, hence the same global output; the call
    leaves the global input as it was and changes the length of no
    buffer. *)
Theorem forward_eval_repeatable (d : FAO_DAG) (h : gmap node FAO)
    (fuel : nat) (t0 t1 : float) (arr : list float) (calls : list call) :
  well_formed true d h → idle d → layout_ok true (edges d) h →
  size (edges d) < fuel →
  read_buffer (get_forward_input d) h = Some arr →
  Forall (λ c, (∃ t2 t3, c = CallForwardEval t2 t3) ∨
               c = CallCopyInput arr true) calls →
  ∃ d1 h1 dn hn,
    forward_eval fuel t0 t1 d h = Done (d1, h1) ∧
    for_each (run_call fuel) (d1, h1) calls = Done (dn, hn) ∧
    hn = h1 ∧
    read_buffer (get_forward_output dn) hn =
      read_buffer (get_forward_output d1) h1 ∧
    read_buffer (get_forward_input d1) h1 = Some arr ∧
    same_layout h h1.
Proof.
  intros Hwf Hidle Hlo Hfuel Harr Hcalls.
  destruct (eval_settles true d h fuel Hwf Hidle Hlo Hfuel)
    as (h1 & log & Hrun & Hl & Hset & Hseed & _).
  assert (read_buffer (get_forward_input d) h1 = Some arr) as Harr1.
  { rewrite <- Harr. unfold read_buffer. simpl.
    apply (Hseed (start_node d)). intros w Hw.
    destruct Hwf as [HC Hacyc _ Hfed _].
    apply (dstep_acyclic true (edges d) Hacyc (start_node d)).
    eapply tc_rtc_l; [|by apply tc_once].
    apply (Hfed w (start_node d) Hw). apply rtc_refl. }
  assert (∃ d1, forward_eval fuel t0 t1 d h = Done (d1, h1) ∧
                same_graph d d1 ∧ idle d1) as (d1 & Hfe & Hg1 & Hidle1).
  { unfold forward_eval. rewrite node_eval_forward_eq, Hrun. simpl.
    eexists. split; [done|]. destruct Hidle. by split. }
  pose proof (well_formed_same_topology true d h h1 Hwf
                (same_layout_topology _ _ Hl)) as Hwf1.
  assert (∀ d', same_graph d d' → idle d' →
            ∃ dn, for_each (run_call fuel) (d', h1) calls = Done (dn, h1) ∧
                  same_graph d dn) as Hloop.
  { induction Hcalls as [|c calls Hc _ IH]; intros d' Hg' Hidle'.
    - by exists d'.
    - simpl. destruct Hc as [(t2 & t3 & ->)| ->]; simpl.
      + destruct (forward_eval_settled fuel t2 t3 d' h1)
          as (d2 & Hrun2 & Hg2 & Hidle2).
        * by apply (well_formed_same_graph true d).
        * done.
        * destruct Hg' as (_ & _ & ->). done.
        * intros v Hv. destruct Hg' as (Hs' & He' & HE'). rewrite HE'.
          apply Hset. unfold reachable, seed in *. by rewrite <- HE', <- Hs'.
        * rewrite Hrun2. simpl. apply IH; [|done].
          destruct Hg' as (? & ? & ?), Hg2 as (? & ? & ?).
          split; [|split]; congruence.
      + rewrite copy_input_same; [simpl; by apply IH|].
        destruct Hg' as (Hs' & _). unfold get_forward_input.
        rewrite Hs'. done. }
  destruct (Hloop d1 Hg1 Hidle1) as (dn & Hn & Hgn).
  exists d1, h1, dn, h1. split; [done|]. split; [done|]. split; [done|].
  split; [|split; [|done]].
  - unfold get_forward_output. destruct Hg1 as (_ & -> & _), Hgn as (_ & -> & _).
    done.
  - unfold get_forward_input. by destruct Hg1 as (-> & _).
Qed.

Lemma forward_eval_repeatable_witness :
  ∃ d1 h1 dn hn,
    forward_eval 5 1 3 chain chain_nodes = Done (d1, h1) ∧
    for_each (run_call 5) (d1, h1)
      [CallForwardEval 3 4; CallCopyInput [1.5; 2]%float true;
       CallForwardEval 5 6] = Done (dn, hn) ∧
    hn = h1 ∧
    read_buffer (get_forward_output dn) hn =
      read_buffer (get_forward_output d1) h1 ∧
    read_buffer (get_forward_input d1) h1 = Some [1.5; 2]%float ∧
    same_layout chain_nodes h1.
Proof.
  apply (forward_eval_repeatable chain chain_nodes 5 1 3 [1.5; 2]%float).
  - apply chain_well_formed.
  - by split.
  - apply chain_layout_ok.
  - vm_compute. lia.
  - by vm_compute.
  - apply Forall_cons. split; [left; by eexists _, _|].
    apply Forall_cons. split; [by right|].
    apply Forall_cons. split; [left; by eexists _, _|]. by apply Forall_nil.
Defined.

(** The chain maps [x] to [-(2 x + 1)], the first time and the third. *)
Example chain_forward_eval_twice :
  match for_each (run_call 5) (chain, chain_nodes)
          [CallForwardEval 1 3; CallForwardEval 3 4; CallForwardEval 5 6] with
  | Done (d', h') =>
      read_buffer (get_forward_output d') h' = Some [-4; -5]%float ∧
      forward_evals d' = 3%Z
  | _ => False
  end ∧
  match forward_eval 5 1 3 chain chain_nodes with
  | Done (d', h') =>
      read_buffer (get_forward_output d') h' = Some [-4; -5]%float
  | _ => False
  end.
Proof. by vm_compute. Qed.

(** C3: after running the kernel of node [c], the evaluation visitor has
    copied, for every position of the node's edge list in the direction of
    travel (outbound edges and [output_data] when forward, inbound edges
    and [input_data] in reverse), exactly [x_len] scalars, the element
    count of the shape the node declares at that position, from the node's
    own buffer at its offset for the edge to the buffer of the far-end node
    at that node's offset for the same edge id: the input buffer of the
    destination when forward, the output buffer of the source in reverse.
    No other cell of a far buffer changes, nor any other own buffer. *)
Theorem eval_visitor_copies (forward : bool) (E : gmap Z (node * node))
    (c : node) (h : gmap node FAO) (f : FAO) :
  h !! c = Some f →
  length (kernel forward f (far_data forward f)) = length (own_data forward f) →
  (∀ i, i < length (own_edges forward f) →
     ∃ x tf, edge_xfer forward E h f i = Some x ∧
       h !! x_target x = Some tf ∧
       x_from x + x_len x ≤ length (own_data forward f) ∧
       x_to x + x_len x ≤ length (far_data forward tf)) →
  (∀ i i' x x' p j, i ≠ i' →
     edge_xfer forward E h f i = Some x →
     edge_xfer forward E h f i' = Some x' →
     x_covers x p j → ¬ x_covers x' p j) →
  ∃ h',
    (if forward then node_eval_forward E else node_eval_adjoint E) c h
      = Done h' ∧
    same_layout h h' ∧
    (∀ p, own_data forward <$> h' !! p =
       if decide (p = c) then Some (kernel forward f (far_data forward f))
       else own_data forward <$> h !! p) ∧
    (∀ i x k, edge_xfer forward E h f i = Some x → k < x_len x →
       far_cell forward h' (x_target x) (x_to x + k) =
       kernel forward f (far_data forward f) !! (x_from x + k)) ∧
    (∀ p j,
       (∀ i x, edge_xfer forward E h f i = Some x → ¬ x_covers x p j) →
       far_cell forward h' p j = far_cell forward h p j).
Proof.
  intros Hc Hk Hx Hd.
  destruct (node_eval_effect forward E c h f Hc Hk Hx Hd)
    as (h' & Hrun & Hl & Hown & Hout & Hin).
  exists h'. split; [|done].
  destruct forward; [by rewrite node_eval_forward_eq|
                     by rewrite node_eval_adjoint_eq].
Qed.

Lemma fan_layout_ok : layout_ok true fan_edges fan_nodes.
Proof.
  apply layout_okb_sound; [by vm_compute|].
  apply map_Forall_list_to_map. by repeat constructor.
Qed.

Lemma eval_visitor_copies_witness :
  (∃ h',
    node_eval_forward fan_edges 0 fan_nodes = Done h' ∧
    same_layout fan_nodes h' ∧
    (∀ p, own_data true <$> h' !! p =
       if decide (p = 0) then Some [7; 8; 9]%float
       else own_data true <$> fan_nodes !! p) ∧
    (∀ i x k,
       edge_xfer true fan_edges fan_nodes
         fan_sender i = Some x →
       k < x_len x →
       far_cell true h' (x_target x) (x_to x + k) =
       [7; 8; 9]%float !! (x_from x + k)) ∧
    (∀ p j,
       (∀ i x,
          edge_xfer true fan_edges fan_nodes
            fan_sender i = Some x →
          ¬ x_covers x p j) →
       far_cell true h' p j = far_cell true fan_nodes p j)).
Proof.
  apply (eval_visitor_copies true fan_edges 0 fan_nodes
           fan_sender).
  - by vm_compute.
  - by vm_compute.
  - intros i Hi. by apply (lo_xfer _ _ _ fan_layout_ok 0).
  - intros i i' x x' p j Hne Hx Hx'.
    apply (lo_disjoint _ _ _ fan_layout_ok 0 fan_sender i x 0 fan_sender
             i' x' p j); [done|done|done|done|]. intros [= ?]. done.
Defined.

(** Forward, the sender's [7; 8] and [9] land at offsets 1 and 3 of the
    input buffer of the destination; in reverse, the last node of the chain
    writes the result of its adjoint kernel into the output buffer of its
    source. *)
Example visitor_copies_examples :
  match node_eval_forward fan_edges 0 fan_nodes with
  | Done h' => input_data <$> h' !! 1 = Some [0; 7; 8; 9]%float
  | _ => False
  end ∧
  match node_eval_adjoint chain_edges 2
          (<[2 := set_output_data [5; 6]%float
                    (default (bare_node [] []) (chain_nodes !! 2))]>
             chain_nodes) with
  | Done h' =>
      input_data <$> h' !! 2 = Some [-5; -6]%float ∧
      output_data <$> h' !! 1 = Some [-5; -6]%float ∧
      input_data <$> h' !! 1 = Some [0; 0]%float
  | _ => False
  end.
Proof. by vm_compute. Qed.

(** A settled node whose only transfer carries its whole own buffer to the
    start of a far buffer of the same length: the two buffers are equal. *)
Lemma settled_whole_buffer forward E h u t fu ft :
  settled forward E h u → h !! u = Some fu → h !! t = Some ft →
  0 < length (own_edges forward fu) →
  edge_xfer forward E h fu 0 =
    Some (mkXfer t (length (own_data forward fu)) 0 0) →
  length (far_data forward ft) = length (own_data forward fu) →
  far_data forward ft = own_data forward fu.
Proof.
  intros (fu' & Hu' & _ & Hx) Hu Ht Hpos Hxfer Hlen.
  rewrite Hu in Hu'. injection Hu' as <-.
  destruct (Hx 0 Hpos) as (x & tf & Hx0 & Htf & _ & _ & Hcells).
  rewrite Hxfer in Hx0. injection Hx0 as <-. simpl in *.
  rewrite Ht in Htf. injection Htf as <-.
  apply list_eq. intros j. destruct (decide (j < length (own_data forward fu))).
  - by apply Hcells.
  - rewrite !lookup_ge_None_2; [done|lia|lia].
Qed.

Lemma seed_no_producers forward d h w :
  well_formed forward d h → ¬ dstep forward (edges d) w (seed forward d).
Proof.
  intros [_ Hacyc _ Hfed _] Hw.
  apply (dstep_acyclic forward (edges d) Hacyc (seed forward d)).
  eapply tc_rtc_l; [|by apply tc_once].
  apply (Hfed w (seed forward d) Hw). apply rtc_refl.
Qed.

(** C4: for a chain [a → b → c] that meets the invariants, each edge
    carrying the whole output buffer of its source into the whole input
    buffer of its destination, [forward_eval] leaves in the global output
    the kernels of [a], [b] and [c] applied in turn to the global input;
    on a single node without edges whose kernel is the identity, it leaves
    the global input, unchanged, in the global output. *)
Theorem forward_eval_chain :
  (∀ d h fuel t0 t1 a b c e1 e2 fa fb fc,
     well_formed true d h → idle d → layout_ok true (edges d) h →
     size (edges d) < fuel →
     start_node d = a → end_node d = c →
     h !! a = Some fa → h !! b = Some fb → h !! c = Some fc →
     output_edges fa = [e1] → edges d !! e1 = Some (a, b) →
     output_edges fb = [e2] → edges d !! e2 = Some (b, c) →
     output_edges fc = [] →
     edge_xfer true (edges d) h fa 0 =
       Some (mkXfer b (length (output_data fa)) 0 0) →
     length (input_data fb) = length (output_data fa) →
     edge_xfer true (edges d) h fb 0 =
       Some (mkXfer c (length (output_data fb)) 0 0) →
     length (input_data fc) = length (output_data fb) →
     ∃ d' h', forward_eval fuel t0 t1 d h = Done (d', h') ∧
       read_buffer (get_forward_output d') h' =
         Some (forward_kernel fc
                 (forward_kernel fb (forward_kernel fa (input_data fa))))) ∧
  (∀ d h fuel t0 t1 n fn,
     idle d → start_node d = n → end_node d = n →
     h !! n = Some fn → output_edges fn = [] →
     (∀ v, forward_kernel fn v = v) →
     ∃ d' h', forward_eval (S fuel) t0 t1 d h = Done (d', h') ∧
       read_buffer (get_forward_output d') h' = Some (input_data fn) ∧
       read_buffer (get_forward_input d') h' = Some (input_data fn)).
Proof.
  split.
  - intros d h fuel t0 t1 a b c e1 e2 fa fb fc Hwf Hidle Hlo Hfuel Hstart
      Hend Ha Hb Hc Hoa He1 Hob He2 Hoc Hxa Hlb Hxb Hlc.
    destruct (eval_settles true d h fuel Hwf Hidle Hlo Hfuel)
      as (h' & log & Hrun & Hl & Hset & Hseed & _).
    assert (reachable true d a) as Hra.
    { unfold reachable, seed. rewrite Hstart. apply rtc_refl. }
    assert (reachable true d b) as Hrb.
    { eapply rtc_r; [apply Hra|]. by exists e1. }
    assert (reachable true d c) as Hrc.
    { eapply rtc_r; [apply Hrb|]. by exists e2. }
    destruct (same_layout_lookup h h' a fa Hl Ha) as (fa' & Ha' & Hsa).
    destruct (same_layout_lookup h h' b fb Hl Hb) as (fb' & Hb' & Hsb).
    destruct (same_layout_lookup h h' c fc Hl Hc) as (fc' & Hc' & Hsc).
    pose proof (same_shape_own true _ _ Hsa)
      as (Hea & _ & _ & _ & Hka & _ & Hloa & Hlia).
    pose proof (same_shape_own true _ _ Hsb)
      as (Heb & _ & _ & _ & Hkb & _ & Hlob & Hlib).
    pose proof (same_shape_own true _ _ Hsc)
      as (_ & _ & _ & _ & Hkc & _ & _ & Hlic).
    simpl in *.
    assert (input_data fa' = input_data fa) as Hina.
    { specialize (Hseed a). rewrite Ha', Ha in Hseed. simpl in Hseed.
      assert (Some (input_data fa') = Some (input_data fa)) as [= ->]; [|done].
      apply Hseed. intros w. rewrite <- Hstart.
      apply (seed_no_producers true d h w Hwf). }
    assert (output_data fa' = forward_kernel fa (input_data fa)) as Houta.
    { destruct (Hset a Hra) as (f & Hf & Hown & _).
      rewrite Ha' in Hf. injection Hf as <-. simpl in Hown.
      by rewrite Hown, <- Hka, Hina. }
    assert (input_data fb' = output_data fa') as Hinb.
    { apply (settled_whole_buffer true (edges d) h' a b fa' fb');
        [by apply Hset|done|done|..]; simpl.
      - rewrite <- Hea. simpl. rewrite Hoa. simpl. lia.
      - rewrite (edge_xfer_same_layout true (edges d) h h' fa fa' 0 Hl Hsa).
        by rewrite <- Hloa.
      - by rewrite <- Hlib, <- Hloa. }
    assert (output_data fb' = forward_kernel fb (input_data fb')) as Houtb.
    { destruct (Hset b Hrb) as (f & Hf & Hown & _).
      rewrite Hb' in Hf. injection Hf as <-. simpl in Hown.
      by rewrite Hown, <- Hkb. }
    assert (input_data fc' = output_data fb') as Hinc.
    { apply (settled_whole_buffer true (edges d) h' b c fb' fc');
        [by apply Hset|done|done|..]; simpl.
      - rewrite <- Heb. simpl. rewrite Hob. simpl. lia.
      - rewrite (edge_xfer_same_layout true (edges d) h h' fb fb' 0 Hl Hsb).
        by rewrite <- Hlob.
      - by rewrite <- Hlic, <- Hlob. }
    assert (output_data fc' = forward_kernel fc (input_data fc')) as Houtc.
    { destruct (Hset c Hrc) as (f & Hf & Hown & _).
      rewrite Hc' in Hf. injection Hf as <-. simpl in Hown.
      by rewrite Hown, <- Hkc. }
    unfold forward_eval. rewrite node_eval_forward_eq, Hrun. simpl.
    eexists _, _. split; [done|]. unfold read_buffer. simpl.
    rewrite Hend, Hc'. simpl. by rewrite Houtc, Hinc, Houtb, Hinb, Houta.
  - intros d h fuel t0 t1 n fn [HQ HM] Hstart Hend Hn Hout Hid.
    unfold forward_eval, traverse_graph. rewrite HQ, Hstart. simpl.
    unfold traverse_body, node_eval_forward. rewrite Hn. simpl.
    rewrite Hout. simpl. rewrite lookup_insert_eq. simpl. rewrite Hout. simpl.
    assert (∀ d0 : FAO_DAG, end_node d0 = n → start_node d0 = n →
      read_buffer (get_forward_output d0) (<[n := FAO_forward_eval fn]> h)
        = Some (input_data fn) ∧
      read_buffer (get_forward_input d0) (<[n := FAO_forward_eval fn]> h)
        = Some (input_data fn)) as Hbuf.
    { intros d0 He Hs. unfold read_buffer. simpl.
      rewrite He, Hs, lookup_insert_eq. simpl. by rewrite Hid. }
    destruct fuel; simpl; eexists _, _; (split; [done|]); by apply Hbuf.
Qed.

Lemma forward_eval_chain_witness :
  (∃ d' h', forward_eval 5 1 3 chain chain_nodes = Done (d', h') ∧
     read_buffer (get_forward_output d') h' =
       Some (forward_kernel chain_c
               (forward_kernel chain_b
                  (forward_kernel chain_a (input_data chain_a))))) ∧
  (∃ d' h', forward_eval 1 1 3 single {[0 := single_node]} = Done (d', h') ∧
     read_buffer (get_forward_output d') h' = Some (input_data single_node) ∧
     read_buffer (get_forward_input d') h' = Some (input_data single_node)).
Proof.
  split.
  - apply (proj1 forward_eval_chain chain chain_nodes 5 1%float 3%float 0 1 2
             10%Z 11%Z
             chain_a chain_b chain_c);
      try (by vm_compute).
    + apply chain_well_formed.
    + apply chain_layout_ok.
    + vm_compute. lia.
  - apply (proj2 forward_eval_chain single {[0 := single_node]} 0 1%float
             3%float 0
             single_node); by vm_compute.
Defined.

Example single_node_identity :
  match forward_eval 1 1 3 single {[0 := single_node]} with
  | Done (d', h') =>
      read_buffer (get_forward_output d') h' = Some [3; 4]%float
  | _ => False
  end.
Proof. by vm_compute. Qed.

(** ** The copy length is the sender's *)

Lemma redeclare_far_fields forward s f :
  own_edges forward (redeclare_far forward s f) = own_edges forward f ∧
  own_sizes forward (redeclare_far forward s f) = own_sizes forward f ∧
  own_offsets forward (redeclare_far forward s f) = own_offsets forward f ∧
  far_offsets forward (redeclare_far forward s f) = far_offsets forward f ∧
  own_data forward (redeclare_far forward s f) = own_data forward f ∧
  far_data forward (redeclare_far forward s f) = far_data forward f ∧
  get_elem_length (redeclare_far forward s f) = get_elem_length f.
Proof. by destruct forward. Qed.

Lemma redeclare_far_setters forward s f :
  (∀ m, set_own_offsets forward m (redeclare_far forward s f) =
        redeclare_far forward s (set_own_offsets forward m f)) ∧
  (∀ m, set_far_offsets forward m (redeclare_far forward s f) =
        redeclare_far forward s (set_far_offsets forward m f)) ∧
  (∀ v, set_far_data forward v (redeclare_far forward s f) =
        redeclare_far forward s (set_far_data forward v f)) ∧
  run_kernel forward (redeclare_far forward s f) =
    redeclare_far forward s (run_kernel forward f).
Proof. by destruct forward. Qed.

Lemma propagate_redeclare forward s E nd h i :
  propagate forward E nd (redeclare_far forward s <$> h) i =
  outcome_map (fmap (redeclare_far forward s)) (propagate forward E nd h i).
Proof.
  unfold propagate, outcome_map. rewrite lookup_fmap.
  destruct (h !! nd) as [f|] eqn:Hf; [|done]. simpl.
  destruct (redeclare_far_fields forward s f)
    as (-> & -> & -> & _ & _ & _ & ->).
  destruct (own_edges forward f !! i) as [e|]; [|done]. simpl.
  destruct (E !! e) as [edge|]; [|done]. simpl.
  destruct (own_sizes forward f !! i) as [shape|]; [|done]. simpl.
  destruct (map_subscript 0%N (own_offsets forward f) e) as [noff offs].
  destruct (redeclare_far_setters forward s f) as (-> & _).
  rewrite <- fmap_insert, lookup_fmap.
  destruct (<[nd := set_own_offsets forward offs f]> h !! far_end forward edge)
    as [t|]; [|done]. simpl.
  destruct (redeclare_far_fields forward s t)
    as (_ & _ & _ & -> & _ & _ & _).
  destruct (map_subscript 0%N (far_offsets forward t) e) as [toff toffs].
  destruct (redeclare_far_setters forward s t) as (_ & -> & _).
  rewrite <- fmap_insert, lookup_fmap.
  destruct (<[far_end forward edge := set_far_offsets forward toffs t]>
              (<[nd := set_own_offsets forward offs f]> h) !! nd)
    as [src|]; [|done]. simpl.
  destruct (redeclare_far_fields forward s src)
    as (_ & _ & _ & _ & -> & _ & _).
  destruct (redeclare_far_fields forward s (set_far_offsets forward toffs t))
    as (_ & _ & _ & _ & _ & -> & _).
  destruct (vector_subvec_memcpy _ _ _ _ _) as [buf|]; [|done]. simpl.
  destruct (redeclare_far_setters forward s (set_far_offsets forward toffs t))
    as (_ & _ & -> & _).
  by rewrite <- fmap_insert.
Qed.

Lemma propagate_each_redeclare forward s E nd positions : ∀ h,
  for_each (propagate forward E nd) (redeclare_far forward s <$> h) positions
  = outcome_map (fmap (redeclare_far forward s))
      (for_each (propagate forward E nd) h positions).
Proof.
  induction positions as [|i rest IH]; intros h; [done|]. simpl.
  rewrite propagate_redeclare. unfold outcome_map at 1.
  destruct (propagate forward E nd h i) as [h1| | |]; [|done..]. simpl.
  apply IH.
Qed.

Lemma node_eval_redeclare forward s E nd h :
  node_eval forward E nd (redeclare_far forward s <$> h) =
  outcome_map (fmap (redeclare_far forward s)) (node_eval forward E nd h).
Proof.
  unfold node_eval. rewrite lookup_fmap.
  destruct (h !! nd) as [f|]; [|done]. simpl.
  destruct (redeclare_far_fields forward s f) as (-> & _).
  destruct (redeclare_far_setters forward s f) as (_ & _ & _ & ->).
  rewrite <- fmap_insert. apply propagate_each_redeclare.
Qed.

(** C10: a copy moves [x_len] scalars, the element count that the sending
    node's own conversion gives for the shape the sender declares at the
    edge's position in its own list; the shapes the receiving side
    declares are never read, since replacing them all by arbitrary ones
    changes nothing else in the result of the visitor. So nothing keeps a
    copy inside the range the receiver reserves for the edge: where the
    sender declares two scalars for an edge and the receiver one, the copy
    overwrites the cell of the receiver's next edge. *)
Theorem copy_length_is_the_senders :
  (∀ (forward : bool) (E : gmap Z (node * node)) (nd : node)
     (h : gmap node FAO) (i : nat) (f : FAO) (x : xfer) (tf : FAO),
     h !! nd = Some f → edge_xfer forward E h f i = Some x →
     h !! x_target x = Some tf →
     (∃ shape, own_sizes forward f !! i = Some shape ∧
        x_len x = N.to_nat (get_elem_length f shape)) ∧
     (if forward then propagate_forward E nd h i
      else propagate_adjoint E nd h i) =
       buf ← deref (vector_subvec_memcpy (far_data forward tf) (x_to x)
                      (own_data forward f) (x_from x) (x_len x));
       Done (<[x_target x := set_far_data forward buf tf]> h)) ∧
  (∀ (forward : bool) (s : list (list N)) (E : gmap Z (node * node))
     (nd : node) (h : gmap node FAO),
     (if forward then node_eval_forward E else node_eval_adjoint E) nd
       (redeclare_far forward s <$> h) =
     outcome_map (fmap (redeclare_far forward s))
       ((if forward then node_eval_forward E else node_eval_adjoint E) nd h)) ∧
  (∃ h', node_eval_forward fan_edges 0 mismatch_nodes = Done h' ∧
     input_sizes <$> h' !! 1 = Some [[1%N]; [1%N]] ∧
     input_offsets <$> h' !! 1 = Some (list_to_map [(20%Z, 0%N); (21%Z, 1%N)]) ∧
     output_data <$> h' !! 0 = Some [7; 8; 9]%float ∧
     input_data <$> h' !! 1 = Some [7; 8]%float).
Proof.
  split; [|split].
  - intros forward E nd h i f x tf Hf Hx Htf. split.
    + apply edge_xfer_inv in Hx
        as (e & edge & shape & off & tf' & toff & _ & _ & Hsh & _ & _ & _ & ->).
      by exists shape.
    + rewrite <- (propagate_xfer forward E nd h i f x tf Hf Hx Htf).
      by destruct forward.
  - intros forward s E nd h.
    destruct forward; apply node_eval_redeclare.
  - eexists. split; [by vm_compute|]. by vm_compute.
Qed.

Lemma copy_length_is_the_senders_witness :
  (∃ shape, own_sizes true fan_sender !! 0 = Some shape ∧
     x_len (mkXfer 1 2 0 1) = N.to_nat (get_elem_length fan_sender shape)) ∧
  propagate_forward fan_edges 0 fan_nodes 0 =
    buf ← deref (vector_subvec_memcpy (far_data true fan_receiver)
                   (x_to (mkXfer 1 2 0 1)) (own_data true fan_sender)
                   (x_from (mkXfer 1 2 0 1)) (x_len (mkXfer 1 2 0 1)));
    Done (<[x_target (mkXfer 1 2 0 1) :=
              set_far_data true buf fan_receiver]> fan_nodes).
Proof.
  apply (proj1 copy_length_is_the_senders true fan_edges 0 fan_nodes 0
           fan_sender (mkXfer 1 2 0 1) fan_receiver); by vm_compute.
Defined.

(** * Further properties of the scheduler *)

(** ** The order of the visits *)

Lemma lookup_snoc_Some {A} (l : list A) x i y :
  (l ++ [x]) !! i = Some y →
  l !! i = Some y ∨ (i = length l ∧ y = x).
Proof.
  intros Hi. destruct (decide (i < length l)) as [Hlt|Hge].
  - left. by rewrite lookup_app_l in Hi.
  - right. rewrite lookup_app_r in Hi by lia.
    destruct (i - length l) as [|k] eqn:Hk; simpl in Hi; [|done].
    injection Hi as <-. split; [lia|done].
Qed.

(** A reachable node without producers is the seed. *)
Lemma reachable_no_producers forward d c :
  reachable forward d c → (∀ u, ¬ dstep forward (edges d) u c) →
  c = seed forward d.
Proof.
  intros Hrc Hno. apply rtc_inv_r in Hrc as [->|(u & _ & Hu)]; [done|].
  by destruct (Hno u).
Qed.

(** X1: the visit log of a traversal of a well-formed graph is a
    topological order of the reachable part: it starts with the seed, and
    every producer of a visited node (forward: the source of an inbound
    edge; reverse: the destination of an outbound edge) was visited at a
    strictly earlier position. *)
Theorem visit_order_is_topological (forward : bool) (node_fn : visitor)
    (d : FAO_DAG) (h : gmap node FAO) (fuel : nat) :
  well_formed forward d h → idle d → visitor_ok h node_fn →
  size (edges d) < fuel →
  ∃ d' h' log,
    traverse_graph fuel node_fn forward d h = Done (d', h', log) ∧
    head log = Some (seed forward d) ∧
    ∀ i v u, log !! i = Some v → dstep forward (edges d) u v →
      ∃ j, j < i ∧ log !! j = Some u.
Proof.
  intros Hwf Hidle Hfn Hfuel.
  destruct (traverse_graph_run forward node_fn d h h fuel
              (λ T hh, same_topology h hh ∧
                 (T = [] ∨ head T = Some (seed forward d)) ∧
                 ∀ i v u, T !! i = Some v → dstep forward (edges d) u v →
                   ∃ j, j < i ∧ T !! j = Some u))
    as (h' & log & Hrun & (_ & Hhead & Hord) & _ & Hmem); [done|done|done|..].
  - by intros T hh [? _].
  - intros T c hh (Ht & Hhead & Hord) _ Hrc Hprod.
    destruct (Hfn c hh Ht) as (h1 & Hc & Ht1).
    { apply (same_topology_live h); [done|].
      destruct Hwf as [HC _ Hseed _ _].
      by apply (reach_live forward (edges d) h (seed forward d)). }
    exists h1. split; [done|]. split; [done|]. split.
    + right. destruct Hhead as [->|Hhead].
      * simpl. f_equal. apply reachable_no_producers; [done|].
        intros u Hu. specialize (Hprod u Hu). by apply elem_of_nil in Hprod.
      * destruct T; [done|]. done.
    + intros i v u [Hi|[-> ->]]%lookup_snoc_Some Hu.
      * destruct (Hord i v u Hi Hu) as (j & Hj & Hju).
        exists j. split; [done|]. rewrite lookup_app_l; [done|].
        by apply lookup_lt_Some in Hju.
      * apply Hprod, list_elem_of_lookup in Hu as [j Hj].
        exists j. pose proof (lookup_lt_Some _ _ _ Hj).
        split; [done|]. by rewrite lookup_app_l.
  - split; [apply same_topology_refl|]. split; [by left|].
    intros i v u Hi. by rewrite lookup_nil in Hi.
  - exists d, h', log. split; [done|]. split; [|done].
    destruct Hhead as [->|Hhead]; [|done].
    assert (seed forward d ∈ @nil node) as Hin by (apply Hmem, rtc_refl).
    by apply elem_of_nil in Hin.
Qed.

Lemma visit_order_is_topological_witness :
  ∃ d' h' log,
    traverse_graph 5 node_skip false diamond diamond_nodes
      = Done (d', h', log) ∧
    head log = Some (seed false diamond) ∧
    ∀ i v u, log !! i = Some v → dstep false (edges diamond) u v →
      ∃ j, j < i ∧ log !! j = Some u.
Proof.
  apply (visit_order_is_topological false node_skip diamond diamond_nodes 5).
  - apply diamond_well_formed.
  - done.
  - apply node_skip_ok.
  - vm_compute. lia.
Defined.

(** ** Construction and teardown *)

(** A traversal whose visitor replaces the visited node [f] by [g f],
    where [g] leaves the edge lists alone: every reachable node is replaced
    once, no other node is touched. *)
Lemma traverse_graph_update (forward : bool) (g : FAO → FAO) (d : FAO_DAG)
    (h : gmap node FAO) (fuel : nat) :
  well_formed forward d h → idle d → size (edges d) < fuel →
  (∀ f, edge_lists (g f) = edge_lists f) →
  ∃ h' log,
    traverse_graph fuel (λ nd hh, f ← deref (hh !! nd); Done (<[nd := g f]> hh))
      forward d h = Done (d, h', log) ∧
    (∀ v, reachable forward d v → h' !! v = g <$> h !! v) ∧
    (∀ v, ¬ reachable forward d v → h' !! v = h !! v).
Proof.
  intros Hwf Hidle Hfuel Hg.
  destruct (traverse_graph_run forward
              (λ nd hh, f ← deref (hh !! nd); Done (<[nd := g f]> hh))
              d h h fuel
              (λ T hh, ∀ v, hh !! v =
                 if decide (v ∈ T) then g <$> h !! v else h !! v))
    as (h' & log & Hrun & HP & _ & Hmem); [done|done|done|..].
  - intros T hh HP p. rewrite HP. destruct (decide _); [|done].
    destruct (h !! p) as [f|]; [|done]. simpl. by rewrite Hg.
  - intros T c hh HP HcT Hrc _.
    destruct Hwf as [HC _ Hseed _ _].
    destruct (reach_live forward (edges d) h (seed forward d) HC Hseed c Hrc)
      as [f Hf].
    assert (hh !! c = Some f) as Hc.
    { by rewrite HP, decide_False. }
    exists (<[c := g f]> hh). rewrite Hc. simpl. split; [done|].
    intros v. destruct (decide (v = c)) as [->|Hne].
    + rewrite lookup_insert_eq, decide_True by apply elem_of_snoc_r.
      by rewrite Hf.
    + rewrite lookup_insert_ne, HP by done.
      destruct (decide (v ∈ T)) as [Hin|Hout].
      * by rewrite decide_True by by apply elem_of_snoc_l.
      * by rewrite decide_False by by apply not_elem_of_snoc.
  - intros v. rewrite decide_False; [done|]. apply not_elem_of_nil.
  - exists h', log. split; [done|]. split; intros v Hv; rewrite HP.
    + by rewrite decide_True by by apply Hmem.
    + rewrite decide_False; [done|]. intros Hin. by apply Hv, Hmem.
Qed.

(** X2: on a well-formed graph, with [alloc_data] and [init_offset_maps]
    leaving the edge lists alone, the constructor returns an engine on the
    given start node, end node and edge table, with an empty queue, no
    arrival counters and all four statistics zero; it has applied
    [alloc_data] and then [init_offset_maps] once to every node reachable
    from the start node, and has touched no other node. *)
Theorem constructor_allocates_reachable `{FAO_lifecycle} (fuel : nat)
    (start end_ : node) (E : gmap Z (node * node)) (h : gmap node FAO) :
  well_formed true (mkDAG start end_ E [] ∅ 0 0 0 0) h →
  (∀ f, edge_lists (alloc_data f) = edge_lists f) →
  (∀ f, edge_lists (init_offset_maps f) = edge_lists f) →
  size E < fuel →
  ∃ h0,
    FAO_DAG_new fuel start end_ E h
      = Done (mkDAG start end_ E [] ∅ 0 0 0 0, h0) ∧
    (∀ v, reachable true (mkDAG start end_ E [] ∅ 0 0 0 0) v →
       h0 !! v = (λ f, init_offset_maps (alloc_data f)) <$> h !! v) ∧
    (∀ v, ¬ reachable true (mkDAG start end_ E [] ∅ 0 0 0 0) v →
       h0 !! v = h !! v).
Proof.
  intros Hwf Halloc Hinit Hfuel.
  destruct (traverse_graph_update true
              (λ f, init_offset_maps (alloc_data f))
              (mkDAG start end_ E [] ∅ 0 0 0 0) h fuel)
    as (h0 & log & Hrun & Hin & Hout); [done|done|done|..].
  { intros f. by rewrite Hinit, Halloc. }
  exists h0. split; [|done].
  unfold FAO_DAG_new, node_alloc. by rewrite Hrun.
Qed.

Lemma constructor_allocates_reachable_witness :
  ∃ h0,
    FAO_DAG_new 5 0 2 chain_edges chain_nodes = Done (chain, h0) ∧
    (∀ v, reachable true chain v →
       h0 !! v = (λ f, init_offset_maps (alloc_data f)) <$> chain_nodes !! v) ∧
    (∀ v, ¬ reachable true chain v → h0 !! v = chain_nodes !! v).
Proof.
  apply (constructor_allocates_reachable 5 0 2 chain_edges chain_nodes).
  - apply chain_well_formed.
  - done.
  - done.
  - vm_compute. lia.
Defined.

(** X3: on a well-formed graph, with [free_data] leaving the edge lists
    alone, the destructor returns the report computed from the statistics
    it found, having applied [free_data] once to every node reachable from
    the start node; a node that is not reachable from the start node is
    not freed. *)
Theorem destructor_frees_reachable `{FAO_lifecycle} (fuel : nat)
    (d : FAO_DAG) (h : gmap node FAO) :
  well_formed true d h → idle d →
  (∀ f, edge_lists (free_data f) = edge_lists f) →
  size (edges d) < fuel →
  ∃ h',
    FAO_DAG_delete fuel d h = Done (teardown_report d, h') ∧
    (∀ v, reachable true d v → h' !! v = free_data <$> h !! v) ∧
    (∀ v, ¬ reachable true d v → h' !! v = h !! v).
Proof.
  intros Hwf Hidle Hfree Hfuel.
  destruct (traverse_graph_update true free_data d h fuel)
    as (h' & log & Hrun & Hin & Hout); [done..|].
  exists h'. split; [|done].
  unfold FAO_DAG_delete, node_free. by rewrite Hrun.
Qed.

Lemma island_well_formed forward : well_formed forward chain island_nodes.
Proof.
  destruct forward.
  - apply (well_formedb_sound true id). by vm_compute.
  - apply (well_formedb_sound false id). by vm_compute.
Qed.

Lemma destructor_frees_reachable_witness :
  ∃ h',
    FAO_DAG_delete 5 chain island_nodes = Done (teardown_report chain, h') ∧
    (∀ v, reachable true chain v → h' !! v = free_data <$> island_nodes !! v) ∧
    (∀ v, ¬ reachable true chain v → h' !! v = island_nodes !! v).
Proof.
  apply (destructor_frees_reachable 5 chain island_nodes).
  - apply island_well_formed.
  - done.
  - done.
  - vm_compute. lia.
Defined.

(** The destructor empties the buffers of the three nodes of the chain and
    leaves those of the node that no edge touches. *)
Example island_is_not_freed :
  match FAO_DAG_delete 5 chain island_nodes with
  | Done (_, h') =>
      input_data <$> h' !! 0 = Some [] ∧ input_data <$> h' !! 2 = Some [] ∧
      input_data <$> h' !! 7 = Some [3; 4]%float
  | _ => False
  end.
Proof. by vm_compute. Qed.

(** * Further properties of the evaluation passes *)

(** Both evaluation entry points as one traversal. *)
Lemma eval_unfold (forward : bool) fuel t0 t1 d h h' log :
  idle d →
  traverse_graph fuel (node_eval forward (edges d)) forward d h
    = Done (d, h', log) →
  ∃ d', (if forward then forward_eval fuel t0 t1 d h
         else adjoint_eval fuel t0 t1 d h) = Done (d', h') ∧
    same_graph d d' ∧ idle d'.
Proof.
  intros Hidle Hrun. destruct forward.
  - unfold forward_eval. rewrite node_eval_forward_eq, Hrun. simpl.
    eexists. split; [done|]. destruct Hidle. by split.
  - unfold adjoint_eval. rewrite node_eval_adjoint_eq, Hrun. simpl.
    eexists. split; [done|]. destruct Hidle. by split.
Qed.

Lemma same_shape_eq forward f f' :
  same_shape f f' →
  own_data forward f = own_data forward f' →
  far_data forward f = far_data forward f' → f = f'.
Proof.
  intros Hs Hown Hfar.
  pose proof (same_shape_fields f f' Hs) as
    (? & ? & ? & ? & ? & ? & ? & ? & ?).
  destruct f, f'. unfold own_data, far_data in *. simpl in *.
  destruct forward; by subst.
Qed.


(** X4: on a well-formed graph with a sound layout, an evaluation pass in
    either direction returns, changes nothing but the content of buffers,
    and leaves every reachable node settled: its own buffer ([output_data]
    forward, [input_data] in reverse) holds its kernel applied to its far
    buffer, and for each position of its edge list the cells of the
    far-end node's buffer that the edge occupies hold the cells of the own
    buffer it is sent from. The far buffer of the seed, the global input of
    the pass, is left as it was. *)
Theorem evaluation_settles_the_graph (forward : bool) (d : FAO_DAG)
    (h : gmap node FAO) (fuel : nat) (t0 t1 : float) :
  well_formed forward d h → idle d → layout_ok forward (edges d) h →
  size (edges d) < fuel →
  ∃ d' h',
    (if forward then forward_eval fuel t0 t1 d h
     else adjoint_eval fuel t0 t1 d h) = Done (d', h') ∧
    same_layout h h' ∧
    (∀ v, reachable forward d v → settled forward (edges d) h' v) ∧
    far_data forward <$> h' !! seed forward d =
      far_data forward <$> h !! seed forward d.
Proof.
  intros Hwf Hidle Hlo Hfuel.
  destruct (eval_settles forward d h fuel Hwf Hidle Hlo Hfuel)
    as (h' & log & Hrun & Hl & Hset & Hseed & _).
  destruct (eval_unfold forward fuel t0 t1 d h h' log Hidle Hrun)
    as (d' & Heval & _).
  exists d', h'. split; [done|]. split; [done|]. split; [done|].
  apply Hseed. intros w. by apply (seed_no_producers forward d h w).
Qed.

Lemma evaluation_settles_the_graph_witness :
  ∃ d' h',
    adjoint_eval 5 1 3 chain chain_nodes = Done (d', h') ∧
    same_layout chain_nodes h' ∧
    (∀ v, reachable false chain v → settled false (edges chain) h' v) ∧
    far_data false <$> h' !! seed false chain =
      far_data false <$> chain_nodes !! seed false chain.
Proof.
  apply (evaluation_settles_the_graph false chain chain_nodes 5 1 3).
  - apply chain_well_formed.
  - done.
  - apply chain_layout_ok.
  - vm_compute. lia.
Defined.




(** Both passes leave the node that no edge touches as it was. *)
Example island_is_spared :
  match forward_eval 5 1 3 chain island_nodes,
        adjoint_eval 5 1 3 chain island_nodes with
  | Done (_, h1), Done (_, h2) =>
      input_data <$> h1 !! 7 = Some [3; 4]%float ∧
      output_data <$> h1 !! 7 = Some [0; 0]%float ∧
      input_data <$> h2 !! 7 = Some [3; 4]%float ∧
      output_data <$> h2 !! 7 = Some [0; 0]%float
  | _, _ => False
  end.
Proof. by vm_compute. Qed.

(** ** The adjoint pass *)



(** X6: for a chain [a → b → c] that meets the invariants in the reverse
    direction, each edge carrying the whole input buffer of its
    destination back into the whole output buffer of its source,
    [adjoint_eval] leaves in the global adjoint output (the input buffer
    of the start node) the adjoint kernels applied in the reverse order,
    [c] first and [a] last, to the global adjoint input (the output buffer
    of the end node). *)
Theorem adjoint_eval_chain (d : FAO_DAG) (h : gmap node FAO) (fuel : nat)
    (t0 t1 : float) (a b c : node) (e1 e2 : Z) (fa fb fc : FAO) :
  well_formed false d h → idle d → layout_ok false (edges d) h →
  size (edges d) < fuel →
  start_node d = a → end_node d = c →
  h !! a = Some fa → h !! b = Some fb → h !! c = Some fc →
  input_edges fc = [e2] → edges d !! e2 = Some (b, c) →
  input_edges fb = [e1] → edges d !! e1 = Some (a, b) →
  edge_xfer false (edges d) h fc 0 =
    Some (mkXfer b (length (input_data fc)) 0 0) →
  length (output_data fb) = length (input_data fc) →
  edge_xfer false (edges d) h fb 0 =
    Some (mkXfer a (length (input_data fb)) 0 0) →
  length (output_data fa) = length (input_data fb) →
  ∃ d' h', adjoint_eval fuel t0 t1 d h = Done (d', h') ∧
    read_buffer (get_adjoint_output d') h' =
      Some (adjoint_kernel fa
              (adjoint_kernel fb (adjoint_kernel fc (output_data fc)))) ∧
    read_buffer (get_adjoint_input d') h' = Some (output_data fc).
Proof.
  intros Hwf Hidle Hlo Hfuel Hstart Hend Ha Hb Hc Hic He2 Hib He1 Hxc Hlb
    Hxb Hla.
  destruct (eval_settles false d h fuel Hwf Hidle Hlo Hfuel)
    as (h' & log & Hrun & Hl & Hset & Hseed & _).
  assert (reachable false d c) as Hrc.
  { unfold reachable, seed. rewrite Hend. apply rtc_refl. }
  assert (reachable false d b) as Hrb.
  { eapply rtc_r; [apply Hrc|]. by exists e2. }
  assert (reachable false d a) as Hra.
  { eapply rtc_r; [apply Hrb|]. by exists e1. }
  destruct (same_layout_lookup h h' a fa Hl Ha) as (fa' & Ha' & Hsa).
  destruct (same_layout_lookup h h' b fb Hl Hb) as (fb' & Hb' & Hsb).
  destruct (same_layout_lookup h h' c fc Hl Hc) as (fc' & Hc' & Hsc).
  pose proof (same_shape_own false _ _ Hsa)
    as (_ & _ & _ & _ & Hka & _ & _ & Hloa).
  pose proof (same_shape_own false _ _ Hsb)
    as (Heb & _ & _ & _ & Hkb & _ & Hlib & Hlob).
  pose proof (same_shape_own false _ _ Hsc)
    as (Hec & _ & _ & _ & Hkc & _ & Hlic & _).
  simpl in *.
  assert (output_data fc' = output_data fc) as Houtc.
  { specialize (Hseed c). rewrite Hc', Hc in Hseed. simpl in Hseed.
    assert (Some (output_data fc') = Some (output_data fc)) as [= ->]; [|done].
    apply Hseed. intros w. rewrite <- Hend.
    apply (seed_no_producers false d h w Hwf). }
  assert (input_data fc' = adjoint_kernel fc (output_data fc)) as Hinc.
  { destruct (Hset c Hrc) as (f & Hf & Hown & _).
    rewrite Hc' in Hf. injection Hf as <-. simpl in Hown.
    by rewrite Hown, <- Hkc, Houtc. }
  assert (output_data fb' = input_data fc') as Houtb.
  { apply (settled_whole_buffer false (edges d) h' c b fc' fb');
      [by apply Hset|done|done|..]; simpl.
    - rewrite <- Hec. simpl. rewrite Hic. simpl. lia.
    - rewrite (edge_xfer_same_layout false (edges d) h h' fc fc' 0 Hl Hsc).
      by rewrite <- Hlic.
    - by rewrite <- Hlob, <- Hlic. }
  assert (input_data fb' = adjoint_kernel fb (output_data fb')) as Hinb.
  { destruct (Hset b Hrb) as (f & Hf & Hown & _).
    rewrite Hb' in Hf. injection Hf as <-. simpl in Hown.
    by rewrite Hown, <- Hkb. }
  assert (output_data fa' = input_data fb') as Houta.
  { apply (settled_whole_buffer false (edges d) h' b a fb' fa');
      [by apply Hset|done|done|..]; simpl.
    - rewrite <- Heb. simpl. rewrite Hib. simpl. lia.
    - rewrite (edge_xfer_same_layout false (edges d) h h' fb fb' 0 Hl Hsb).
      by rewrite <- Hlib.
    - by rewrite <- Hloa, <- Hlib. }
  assert (input_data fa' = adjoint_kernel fa (output_data fa')) as Hina.
  { destruct (Hset a Hra) as (f & Hf & Hown & _).
    rewrite Ha' in Hf. injection Hf as <-. simpl in Hown.
    by rewrite Hown, <- Hka. }
  unfold adjoint_eval. rewrite node_eval_adjoint_eq, Hrun. simpl.
  eexists _, _. split; [done|]. unfold read_buffer. simpl.
  rewrite Hstart, Hend, Ha', Hc'. simpl.
  by rewrite Hina, Houta, Hinb, Houtb, Hinc, Houtc.
Qed.

Lemma adjoint_eval_chain_witness :
  ∃ d' h', adjoint_eval 5 1 3 chain chain_nodes = Done (d', h') ∧
    read_buffer (get_adjoint_output d') h' =
      Some (adjoint_kernel chain_a
              (adjoint_kernel chain_b
                 (adjoint_kernel chain_c (output_data chain_c)))) ∧
    read_buffer (get_adjoint_input d') h' = Some (output_data chain_c).
Proof.
  apply (adjoint_eval_chain chain chain_nodes 5 1 3 0 1 2 10 11
           chain_a chain_b chain_c); try done.
  - apply chain_well_formed.
  - apply chain_layout_ok.
  - vm_compute. lia.
Defined.



(** * Further properties of the host interface *)

(** ** Statistics *)

Lemma int_succ_small (z : Z) :
  (- 2 ^ 31 ≤ z < 2 ^ 31 - 1)%Z → int_succ z = (z + 1)%Z.
Proof.
  intros Hz. unfold int_succ.
  rewrite Z.mod_small; lia.
Qed.

Lemma forward_eval_stats fuel t0 t1 d h d' h' :
  forward_eval fuel t0 t1 d h = Done (d', h') →
  same_graph d d' ∧
  forward_evals d' = int_succ (forward_evals d) ∧
  total_forward_eval_time d' = (total_forward_eval_time d + (t1 - t0))%float ∧
  adjoint_evals d' = adjoint_evals d ∧
  total_adjoint_eval_time d' = total_adjoint_eval_time d.
Proof.
  unfold forward_eval.
  destruct (traverse_graph _ _ _ _ _) as [[[d1 h1] T1]| | |] eqn:Ht; [|done..].
  simpl. intros [= <- <-]. by apply traverse_graph_frame in Ht as ->.
Qed.

Lemma adjoint_eval_stats fuel t0 t1 d h d' h' :
  adjoint_eval fuel t0 t1 d h = Done (d', h') →
  same_graph d d' ∧
  adjoint_evals d' = int_succ (adjoint_evals d) ∧
  total_adjoint_eval_time d' = (total_adjoint_eval_time d + (t1 - t0))%float ∧
  forward_evals d' = forward_evals d ∧
  total_forward_eval_time d' = total_forward_eval_time d.
Proof.
  unfold adjoint_eval.
  destruct (traverse_graph _ _ _ _ _) as [[[d1 h1] T1]| | |] eqn:Ht; [|done..].
  simpl. intros [= <- <-]. by apply traverse_graph_frame in Ht as ->.
Qed.

Lemma run_calls_stats fuel cs : ∀ s s',
  for_each (run_call fuel) s cs = Done s' →
  (0 ≤ forward_evals s.1)%Z → (0 ≤ adjoint_evals s.1)%Z →
  (forward_evals s.1 + Z.of_nat (length cs) < 2 ^ 31)%Z →
  (adjoint_evals s.1 + Z.of_nat (length cs) < 2 ^ 31)%Z →
  same_graph s.1 s'.1 ∧
  forward_evals s'.1 = (forward_evals s.1 + Z.of_nat (forward_calls cs))%Z ∧
  adjoint_evals s'.1 = (adjoint_evals s.1 + Z.of_nat (adjoint_calls cs))%Z ∧
  total_forward_eval_time s'.1
    = forward_time (total_forward_eval_time s.1) cs ∧
  total_adjoint_eval_time s'.1
    = adjoint_time (total_adjoint_eval_time s.1) cs.
Proof.
  induction cs as [|c cs IH]; intros s s'; simpl.
  - intros [= <-] _ _ _ _. unfold forward_calls, adjoint_calls. simpl.
    split; [done|]. split; [lia|]. split; [lia|done].
  - destruct (run_call fuel s c) as [s1| | |] eqn:Hc; [|done..]. simpl.
    intros Hrest Hf0 Ha0 Hf Ha.
    assert (same_graph s.1 s1.1 ∧
            forward_evals s1.1 =
              (forward_evals s.1 + Z.of_nat (forward_calls [c]))%Z ∧
            adjoint_evals s1.1 =
              (adjoint_evals s.1 + Z.of_nat (adjoint_calls [c]))%Z ∧
            total_forward_eval_time s1.1
              = forward_time (total_forward_eval_time s.1) [c] ∧
            total_adjoint_eval_time s1.1
              = adjoint_time (total_adjoint_eval_time s.1) [c])
      as (Hg & Hf1 & Ha1 & Htf1 & Hta1).
    { destruct s as [d h], s1 as [d1 h1], c as [t0 t1|t0 t1|arr fwd|arr fwd];
        simpl in *; unfold forward_calls, adjoint_calls; simpl.
      - apply forward_eval_stats in Hc as (? & -> & -> & -> & ->).
        rewrite int_succ_small by lia. split; [done|]. split; [lia|].
        split; [lia|done].
      - apply adjoint_eval_stats in Hc as (? & -> & -> & -> & ->).
        rewrite int_succ_small by lia. split; [done|]. split; [lia|].
        split; [lia|done].
      - destruct (copy_input _ _ _ _); [|done..]. injection Hc as <- <-.
        split; [done|]. split; [lia|]. split; [lia|done].
      - destruct (copy_output _ _ _ _); [|done..]. injection Hc as <- <-.
        split; [done|]. split; [lia|]. split; [lia|done]. }
    assert (forward_calls [c] ≤ 1 ∧ adjoint_calls [c] ≤ 1) as [Hc1 Hc2].
    { unfold forward_calls, adjoint_calls. simpl.
      destruct (is_forward_eval c), (is_adjoint_eval c); simpl; lia. }
    destruct (IH s1 s' Hrest) as (Hg' & Hf' & Ha' & Htf' & Hta');
      [lia..|].
    split.
    { destruct Hg as (? & ? & ?), Hg' as (? & ? & ?).
      split; [|split]; congruence. }
    rewrite Hf', Ha', Htf', Hta', Hf1, Ha1, Htf1, Hta1.
    unfold forward_calls, adjoint_calls. simpl.
    destruct c; simpl; (split; [lia|]; split; [lia|done]).
Qed.

(** X8: from construction on, the engine's statistics record the host's
    evaluation calls and nothing else: after any sequence of fewer than
    2^31 calls that all return, [forward_evals] and [adjoint_evals] are the
    numbers of forward and adjoint evaluations made, the two cumulative
    times are the sums of their timer differences in call order, the
    copies have changed none of the four, and the start node, end node and
    edge table are those given to the constructor. So the destructor
    reports those counts and, as averages, those sums divided by them. *)
Theorem statistics_count_the_calls `{FAO_lifecycle} (fuel : nat)
    (start end_ : node) (E : gmap Z (node * node))
    (h h0 h1 : gmap node FAO) (d0 d1 : FAO_DAG) (cs : list call) :
  FAO_DAG_new fuel start end_ E h = Done (d0, h0) →
  for_each (run_call fuel) (d0, h0) cs = Done (d1, h1) →
  (Z.of_nat (length cs) < 2 ^ 31)%Z →
  start_node d1 = start ∧ end_node d1 = end_ ∧ edges d1 = E ∧
  forward_evals d1 = Z.of_nat (forward_calls cs) ∧
  adjoint_evals d1 = Z.of_nat (adjoint_calls cs) ∧
  total_forward_eval_time d1 = forward_time 0 cs ∧
  total_adjoint_eval_time d1 = adjoint_time 0 cs ∧
  teardown_report d1 =
    mkReport (Z.of_nat (forward_calls cs))
      (forward_time 0 cs / double_of_int (Z.of_nat (forward_calls cs)))
      (Z.of_nat (adjoint_calls cs))
      (adjoint_time 0 cs / double_of_int (Z.of_nat (adjoint_calls cs))).
Proof.
  intros Hnew Hcalls Hlen.
  assert (start_node d0 = start ∧ end_node d0 = end_ ∧ edges d0 = E)
    as (Hs & He & HE).
  { unfold FAO_DAG_new in Hnew.
    destruct (traverse_graph _ _ _ _ _) as [[[d' h'] T']| | |] eqn:Ht;
      [|done..].
    simpl in Hnew. injection Hnew as <- <-.
    by apply traverse_graph_frame in Ht as ->. }
  apply FAO_DAG_new_stats in Hnew as (Hf & Htf & Ha & Hta).
  destruct (run_calls_stats fuel cs (d0, h0) (d1, h1) Hcalls)
    as ((Hs1 & He1 & HE1) & Hf1 & Ha1 & Htf1 & Hta1); simpl in *; [lia..|].
  rewrite Hf in Hf1. rewrite Ha in Ha1. rewrite Htf in Htf1.
  rewrite Hta in Hta1. simpl in Hf1, Ha1.
  split; [congruence|]. split; [congruence|]. split; [congruence|].
  do 4 (split; [done|]).
  unfold teardown_report. by rewrite Hf1, Ha1, Htf1, Hta1.
Qed.

Lemma statistics_count_the_calls_witness :
  start_node (chain_after sample_calls).1 = 0 ∧
  end_node (chain_after sample_calls).1 = 2 ∧
  edges (chain_after sample_calls).1 = chain_edges ∧
  forward_evals (chain_after sample_calls).1
    = Z.of_nat (forward_calls sample_calls) ∧
  adjoint_evals (chain_after sample_calls).1
    = Z.of_nat (adjoint_calls sample_calls) ∧
  total_forward_eval_time (chain_after sample_calls).1
    = forward_time 0 sample_calls ∧
  total_adjoint_eval_time (chain_after sample_calls).1
    = adjoint_time 0 sample_calls ∧
  teardown_report (chain_after sample_calls).1 =
    mkReport (Z.of_nat (forward_calls sample_calls))
      (forward_time 0 sample_calls
       / double_of_int (Z.of_nat (forward_calls sample_calls)))
      (Z.of_nat (adjoint_calls sample_calls))
      (adjoint_time 0 sample_calls
       / double_of_int (Z.of_nat (adjoint_calls sample_calls))).
Proof.
  apply (statistics_count_the_calls 5 0 2 chain_edges chain_nodes chain_nodes
           (chain_after sample_calls).2 chain).
  - by vm_compute.
  - by vm_compute.
  - by vm_compute.
Defined.

(** After two forward evaluations that took 2 and 3 time units and one
    adjoint evaluation that took 1, the destructor reports the averages
    2.5 and 1. *)
Example teardown_reports_averages :
  teardown_report (chain_after sample_calls).1 = mkReport 2 2.5 1 1.
Proof. by vm_compute. Qed.

(** ** Boundary copies *)

(** X9: what [copy_input] writes for one direction is what [copy_output]
    reads back for the other direction (the adjoint output is the forward
    input, the forward output is the adjoint input), into any array of the
    same length; [copy_input] changes the content of that one buffer and
    nothing else: no other node, not the other buffer of the node, and no
    length. *)
Theorem copy_input_round_trip (arr out : list float) (forward : bool)
    (d : FAO_DAG) (h h' : gmap node FAO) :
  copy_input arr forward d h = Done h' →
  length out = length arr →
  copy_output out (negb forward) d h' = Done arr ∧
  read_buffer (if forward then get_forward_input d else get_adjoint_input d) h'
    = Some arr ∧
  (∀ v, v ≠ (if forward then start_node d else end_node d) →
     h' !! v = h !! v) ∧
  read_buffer (if forward then (start_node d, OutputData)
               else (end_node d, InputData)) h' =
    read_buffer (if forward then (start_node d, OutputData)
                 else (end_node d, InputData)) h ∧
  same_layout h h'.
Proof.
  unfold copy_input, copy_output, read_buffer. intros Hin Hlen.
  destruct forward; simpl in *.
  - destruct (h !! start_node d) as [f|] eqn:Hf; [|done]. simpl in Hin.
    destruct (bool_decide _) eqn:Hb; [|done]. simpl in Hin.
    apply bool_decide_eq_true_1 in Hb. injection Hin as <-.
    unfold vector_memcpy_from_array, vector_memcpy_to_array.
    rewrite !lookup_insert_eq. simpl. rewrite <- Hb, firstn_all.
    rewrite bool_decide_eq_true_2 by done. simpl.
    rewrite <- Hlen, drop_all, app_nil_r.
    split; [done|]. split; [done|]. split; [|split].
    + intros v Hv. by rewrite lookup_insert_ne.
    + done.
    + apply (same_layout_insert h h _ f); [apply same_layout_refl|done|].
      split; [done|]. simpl in *. split; congruence.
  - destruct (h !! end_node d) as [f|] eqn:Hf; [|done]. simpl in Hin.
    destruct (bool_decide _) eqn:Hb; [|done]. simpl in Hin.
    apply bool_decide_eq_true_1 in Hb. injection Hin as <-.
    unfold vector_memcpy_from_array, vector_memcpy_to_array.
    rewrite !lookup_insert_eq. simpl. rewrite <- Hb, firstn_all.
    rewrite bool_decide_eq_true_2 by done. simpl.
    rewrite <- Hlen, drop_all, app_nil_r.
    split; [done|]. split; [done|]. split; [|split].
    + intros v Hv. by rewrite lookup_insert_ne.
    + done.
    + apply (same_layout_insert h h _ f); [apply same_layout_refl|done|].
      split; [done|]. simpl in *. split; congruence.
Qed.

Lemma copy_input_round_trip_witness :
  copy_output [0; 0]%float false chain chain_filled = Done [5; 6]%float ∧
  read_buffer (get_forward_input chain) chain_filled = Some [5; 6]%float ∧
  (∀ v, v ≠ start_node chain → chain_filled !! v = chain_nodes !! v) ∧
  read_buffer (start_node chain, OutputData) chain_filled =
    read_buffer (start_node chain, OutputData) chain_nodes ∧
  same_layout chain_nodes chain_filled.
Proof.
  apply (copy_input_round_trip [5; 6]%float [0; 0]%float true chain
           chain_nodes chain_filled).
  - by vm_compute.
  - done.
Defined.

(** * The scheduler without acyclicity *)

Lemma far_ends_bound forward (E : gmap Z (node * node)) (A : list node) :
  NoDup A → (∀ v, v ∈ A → ∃ u, dstep forward E u v) → length A ≤ size E.
Proof.
  intros Hnd Hfar.
  rewrite <- (length_map_to_list E),
    <- (length_fmap (λ kv, far_end forward kv.2) (map_to_list E)).
  apply submseteq_length, NoDup_submseteq; [done|].
  intros v (u & Hu)%Hfar. apply list_elem_of_fmap.
  destruct forward; destruct Hu as (e & He).
  - exists (e, (u, v)). split; [done|]. by apply elem_of_map_to_list.
  - exists (e, (v, u)). split; [done|]. by apply elem_of_map_to_list.
Qed.

Lemma eval_map_incr_lookup M c v :
  (default 0 (M !! c) + 1 < 2 ^ 64)%N →
  default 0%N (eval_map_incr M c !! v) =
    if decide (v = c) then (default 0 (M !! c) + 1)%N
    else default 0%N (M !! v).
Proof.
  intros Hsmall. unfold eval_map_incr. destruct (decide (v = c)) as [->|Hne].
  - rewrite lookup_insert_eq. simpl. by apply size_t_succ_small.
  - by rewrite lookup_insert_ne.
Qed.

Section any_graph.
Context (forward : bool) (E : gmap Z (node * node)) (h0 : gmap node FAO).
Context (D : nat).
Hypothesis Hres : ∀ p e, e ∈ outs forward h0 p →
  ∃ edge, E !! e = Some edge ∧ is_Some (h0 !! far_end forward edge).
Hypothesis Hdeg : ∀ p, length (outs forward h0 p) ≤ D.

#[local] Abbreviation pinv := (push_inv forward E h0).

Lemma push_inv_weaken A M b b' : pinv A M b → b ≤ b' → pinv A M b'.
Proof using Type.
  intros [Hnd Hc Hf Hl Hb] Hle. split; try done.
  intros v. specialize (Hb v). lia.
Qed.

Lemma push_inv_incr A M b c :
  pinv A M b → (N.of_nat b + 1 < 2 ^ 64)%N →
  pinv A (eval_map_incr M c) (S b).
Proof using Type.
  intros [Hnd Hc Hf Hl Hb] Hsmall.
  assert (∀ v, (default 0 (M !! v) ≤ default 0 (eval_map_incr M c !! v)
                ≤ N.of_nat (S b))%N) as Hup.
  { intros v. rewrite eval_map_incr_lookup by (specialize (Hb c); lia).
    pose proof (Hb v). pose proof (Hb c).
    destruct (decide (v = c)) as [->|_]; lia. }
  split; try done.
  - intros v Hv. specialize (Hc v Hv). specialize (Hup v). lia.
  - intros v. apply Hup.
Qed.

Lemma visit_edge_push_inv h d A b e edge :
  same_topology h0 h → edges d = E → pinv A (eval_map d) b →
  (N.of_nat b + 1 < 2 ^ 64)%N →
  E !! e = Some edge → is_Some (h0 !! far_end forward edge) →
  ∃ B M',
    visit_edge forward h d e =
      Done (set_ready_queue (ready_queue d ++ B) (set_eval_map M' d)) ∧
    pinv (A ++ B) M' (S b).
Proof using Type.
  clear Hres Hdeg. intros Ht HE Hinv Hsmall He Hlive.
  unfold visit_edge. rewrite HE, He. simpl.
  change (if forward then edge.2 else edge.1) with (far_end forward edge).
  set (v := far_end forward edge) in Hlive |- *.
  destruct (same_topology_live h0 h v Ht Hlive) as [fao Hfao].
  rewrite Hfao. simpl.
  assert ((if forward then input_edges fao else output_edges fao) =
          ins forward h0 v) as ->.
  { rewrite <- (same_topology_ins forward h0 h v Ht). unfold ins.
    by rewrite Hfao. }
  pose proof (push_inv_incr A (eval_map d) b v Hinv Hsmall) as Hinv1.
  pose proof (pi_bound _ _ _ _ _ _ Hinv v) as Hbv.
  destruct (decide _) as [Heq|Hne].
  - exists [v], (eval_map_incr (eval_map d) v). split; [done|].
    rewrite eval_map_incr_lookup, decide_True in Heq by (done || lia).
    destruct Hinv1 as [Hnd Hc Hf Hl Hb]. split; try done.
    + apply NoDup_app. split; [done|]. split; [|apply NoDup_singleton].
      intros w Hw ->%list_elem_of_singleton.
      pose proof (pi_count _ _ _ _ _ _ Hinv v Hw). lia.
    + intros w [Hw| ->%list_elem_of_singleton]%elem_of_app; [by apply Hc|].
      rewrite eval_map_incr_lookup, decide_True by (done || lia). lia.
    + intros w [Hw| ->%list_elem_of_singleton]%elem_of_app; [by apply Hf|].
      exists (near_end forward edge). unfold v.
      destruct forward, edge as [x y]; by exists e.
    + intros w [Hw| ->%list_elem_of_singleton]%elem_of_app; [by apply Hl|done].
  - exists [], (eval_map_incr (eval_map d) v). rewrite !app_nil_r.
    split; [by destruct d|done].
Qed.

Lemma visit_edges_push_inv h todo : ∀ d A b,
  same_topology h0 h → edges d = E → pinv A (eval_map d) b →
  (N.of_nat (b + length todo) < 2 ^ 64)%N →
  (∀ e, e ∈ todo →
     ∃ edge, E !! e = Some edge ∧ is_Some (h0 !! far_end forward edge)) →
  ∃ B M',
    for_each (visit_edge forward h) d todo =
      Done (set_ready_queue (ready_queue d ++ B) (set_eval_map M' d)) ∧
    pinv (A ++ B) M' (b + length todo).
Proof using Type.
  induction todo as [|e todo IH]; intros d A b Ht HE Hinv Hsmall Hall.
  - exists [], (eval_map d). simpl. rewrite !app_nil_r, Nat.add_0_r.
    split; [by destruct d|done].
  - simpl in Hsmall. destruct (Hall e) as (edge & He & Hlive); [by left|].
    destruct (visit_edge_push_inv h d A b e edge Ht HE Hinv)
      as (B1 & M1 & Hrun & Hinv1); [lia|done|done|].
    simpl. rewrite Hrun. simpl.
    destruct (IH (set_ready_queue (ready_queue d ++ B1) (set_eval_map M1 d))
                (A ++ B1) (S b))
      as (B2 & M2 & Hrun2 & Hinv2); [done|done|done|lia| |].
    { intros e' He'. apply Hall. by right. }
    exists (B1 ++ B2), M2. rewrite Hrun2. simpl.
    rewrite !app_assoc. split; [done|].
    replace (b + S (length todo)) with (S b + length todo) by lia.
    by rewrite <- app_assoc in Hinv2 |- *.
Qed.

Lemma traverse_body_push_inv node_fn c rest d h h1 A b :
  edges d = E → ready_queue d = c :: rest → pinv A (eval_map d) b →
  is_Some (h0 !! c) →
  node_fn c h = Done h1 → same_topology h0 h1 →
  (N.of_nat (b + D + 1) < 2 ^ 64)%N →
  ∃ B M',
    traverse_body node_fn forward c rest d h =
      Done (set_ready_queue (rest ++ B) (set_eval_map M' d), h1) ∧
    pinv (A ++ B) M' (b + D + 1).
Proof using Hres Hdeg.
  intros HE HQ Hinv Hlive Hfn Ht Hsmall.
  destruct (same_topology_live h0 h1 c Ht Hlive) as [fao Hfao].
  unfold traverse_body. rewrite Hfn. simpl. rewrite Hfao. simpl.
  assert ((if forward then output_edges fao else input_edges fao) =
          outs forward h0 c) as ->.
  { rewrite <- (same_topology_outs forward h0 h1 c Ht). unfold outs.
    by rewrite Hfao. }
  pose proof (Hdeg c) as Hlen.
  destruct (visit_edges_push_inv h1 (outs forward h0 c)
              (set_eval_map (eval_map_incr (eval_map d) c)
                 (set_ready_queue rest d)) A (S b))
    as (B & M' & Hrun & Hinv'); [done|done| |lia| |].
  { apply push_inv_incr; [done|lia]. }
  { intros e He. by apply (Hres c). }
  exists B, M'. rewrite Hrun. simpl. split; [done|].
  apply (push_inv_weaken _ _ _ _ Hinv'). lia.
Qed.

Lemma traverse_loop_push_inv node_fn root :
  visitor_ok h0 node_fn → is_Some (h0 !! root) →
  (N.of_nat ((size E + 1) * (D + 1)) < 2 ^ 64)%N →
  ∀ fuel d h T A,
  edges d = E → T ++ ready_queue d = root :: A →
  pinv A (eval_map d) (length T * (D + 1)) →
  same_topology h0 h →
  for_each (λ s v, node_fn v s) h0 T = Done h →
  size E + 1 ≤ fuel + length T →
  ∃ A' M' h',
    traverse_loop fuel node_fn forward d h T =
      Done (set_ready_queue [] (set_eval_map M' d), h', root :: A') ∧
    pinv A' M' (length (root :: A') * (D + 1)) ∧
    for_each (λ s v, node_fn v s) h0 (root :: A') = Done h'.
Proof using Hres Hdeg.
  intros Hfn Hroot Hbig.
  induction fuel as [|fuel IH]; intros d h T A HE Hseq Hinv Ht Hlog Hfuel.
  - assert (length (T ++ ready_queue d) = S (length A)) as Hlen
      by by rewrite Hseq.
    pose proof (far_ends_bound forward E A (pi_nodup _ _ _ _ _ _ Hinv)
                  (pi_far _ _ _ _ _ _ Hinv)) as HA.
    rewrite length_app in Hlen. simpl.
    destruct (ready_queue d) as [|c rest] eqn:HQ; simpl in Hlen; [|lia].
    rewrite app_nil_r in Hseq. subst T.
    exists A, (eval_map d), h. by rewrite <- HQ, set_sched_id.
  - simpl. destruct (ready_queue d) as [|c rest] eqn:HQ.
    + rewrite app_nil_r in Hseq. subst T.
      exists A, (eval_map d), h. by rewrite <- HQ, set_sched_id.
    + assert (length (T ++ c :: rest) = S (length A)) as Hlen
        by by rewrite Hseq.
      pose proof (far_ends_bound forward E A (pi_nodup _ _ _ _ _ _ Hinv)
                    (pi_far _ _ _ _ _ _ Hinv)) as HA.
      rewrite length_app in Hlen. simpl in Hlen.
      assert (is_Some (h0 !! c)) as Hlive.
      { assert (c ∈ root :: A) as [->|Hc]%elem_of_cons.
        { rewrite <- Hseq. apply elem_of_app. right. by left. }
        - done.
        - by apply (pi_live _ _ _ _ _ _ Hinv). }
      destruct (Hfn c h Ht (same_topology_live h0 h c Ht Hlive))
        as (h1 & Hc & Ht1).
      destruct (traverse_body_push_inv node_fn c rest d h h1 A
                  (length T * (D + 1)) HE HQ Hinv Hlive Hc Ht1)
        as (B & M1 & Hrun & Hinv1); [nia|].
      rewrite Hrun. simpl.
      destruct (IH (set_ready_queue (rest ++ B) (set_eval_map M1 d)) h1
                  (T ++ [c]) (A ++ B))
        as (A' & M' & h' & Hrun' & Hinv' & Hlog'); [done|..].
      { simpl. change (root :: A ++ B) with ((root :: A) ++ B).
        by rewrite <- Hseq, <- !app_assoc. }
      { simpl. rewrite length_app. simpl.
        apply (push_inv_weaken _ _ _ _ Hinv1). nia. }
      { done. }
      { by rewrite for_each_snoc, Hlog. }
      { rewrite length_app. simpl. lia. }
      exists A', M', h'. by rewrite Hrun'.
Qed.

End any_graph.

(** X10: the traversal needs no acyclicity to terminate. On any graph
    whose listed edge ids resolve to nodes of the store, with a visitor
    that returns and leaves the edge lists alone, [traverse_graph] returns
    within as many iterations as the seed plus one per edge, leaving the
    engine as it found it: the seed is visited first, and among the later
    visits no node occurs twice and each is at the far end of some edge;
    the visitor was applied along the log, in order. *)
Theorem traversal_terminates_on_any_graph (forward : bool)
    (node_fn : visitor) (d : FAO_DAG) (h : gmap node FAO) (fuel D : nat) :
  idle d → visitor_ok h node_fn → is_Some (h !! seed forward d) →
  (∀ p e, e ∈ outs forward h p →
     ∃ edge, edges d !! e = Some edge ∧
       is_Some (h !! far_end forward edge)) →
  (∀ p, length (outs forward h p) ≤ D) →
  (N.of_nat ((size (edges d) + 1) * (D + 1)) < 2 ^ 64)%N →
  size (edges d) < fuel →
  ∃ h' A,
    traverse_graph fuel node_fn forward d h
      = Done (d, h', seed forward d :: A) ∧
    NoDup A ∧ length A ≤ size (edges d) ∧
    (∀ v, v ∈ A → ∃ u, dstep forward (edges d) u v) ∧
    for_each (λ s v, node_fn v s) h (seed forward d :: A) = Done h'.
Proof.
  intros [HQ HM] Hfn Hseed Hres Hdeg Hbig Hfuel.
  destruct (traverse_loop_push_inv forward (edges d) h D Hres Hdeg node_fn
              (seed forward d) Hfn Hseed Hbig fuel
              (set_ready_queue (ready_queue d ++ [seed forward d]) d)
              h [] [])
    as (A & M' & h' & Hrun & Hinv & Hlog).
  - done.
  - simpl. by rewrite HQ.
  - simpl. rewrite HM. split; try done.
    + apply NoDup_nil_2.
    + intros v Hv. by apply elem_of_nil in Hv.
    + intros v Hv. by apply elem_of_nil in Hv.
    + intros v Hv. by apply elem_of_nil in Hv.
  - apply same_topology_refl.
  - done.
  - simpl. lia.
  - exists h', A. unfold traverse_graph.
    change (if forward then start_node d else end_node d)
      with (seed forward d). rewrite Hrun. simpl.
    destruct Hinv as [Hnd _ Hfar _ _].
    split; [|split; [done|split; [by eapply far_ends_bound|done]]].
    do 3 f_equal. destruct d; simpl in *. by subst.
Qed.

Lemma edges_resolveb_sound forward E h D :
  edges_resolveb forward E h D = true →
  (∀ p e, e ∈ outs forward h p →
     ∃ edge, E !! e = Some edge ∧ is_Some (h !! far_end forward edge)) ∧
  (∀ p, length (outs forward h p) ≤ D).
Proof.
  unfold edges_resolveb. rewrite bool_decide_eq_true. intros Hall.
  assert (∀ p f, h !! p = Some f → outs forward h p = own_edges forward f)
    as Houts.
  { intros p f Hp. unfold outs, own_edges. by rewrite Hp. }
  split.
  - intros p e He. destruct (h !! p) as [f|] eqn:Hp.
    + rewrite (Houts p f Hp) in He. destruct (Hall p f Hp) as [_ Hres].
      rewrite Forall_forall in Hres. specialize (Hres e He).
      unfold edge_resolvesb in Hres.
      destruct (E !! e) as [edge|]; [|done].
      exists edge. split; [done|]. by apply bool_decide_eq_true in Hres.
    + unfold outs in He. rewrite Hp in He. by apply elem_of_nil in He.
  - intros p. destruct (h !! p) as [f|] eqn:Hp.
    + rewrite (Houts p f Hp). by destruct (Hall p f Hp).
    + unfold outs. rewrite Hp. simpl. lia.
Qed.

Lemma traversal_terminates_on_any_graph_witness :
  ∃ h' A,
    traverse_graph 4 node_skip true lasso lasso_nodes
      = Done (lasso, h', seed true lasso :: A) ∧
    NoDup A ∧ length A ≤ size (edges lasso) ∧
    (∀ v, v ∈ A → ∃ u, dstep true (edges lasso) u v) ∧
    for_each (λ s v, node_skip v s) lasso_nodes (seed true lasso :: A)
      = Done h'.
Proof.
  destruct (edges_resolveb_sound true lasso_edges lasso_nodes 2)
    as [Hres Hdeg]; [by vm_compute|].
  apply (traversal_terminates_on_any_graph true node_skip lasso lasso_nodes
           4 2).
  - done.
  - apply node_skip_ok.
  - by eexists.
  - apply Hres.
  - apply Hdeg.
  - by vm_compute.
  - vm_compute. lia.
Defined.

(** On the lasso the start node is visited twice: it lists two inbound
    edges, and its counter, already incremented by its own visit, equals
    that count when the first of them arrives. On a cyclic graph the count
    check alone does not keep the seed from running again. *)
Example lasso_visits_the_start_twice :
  traverse_graph 4 node_skip true lasso lasso_nodes
    = Done (lasso, lasso_nodes, [0; 1; 0]).
Proof. by vm_compute. Qed.

(** * Edge behaviour of the scheduler *)

(** ** Edge ids that do not resolve *)

Lemma visit_edge_outcome forward h d e :
  (∃ d', visit_edge forward h d e = Done d' ∧ edges d' = edges d) ∨
  visit_edge forward h d e = Undefined.
Proof.
  unfold visit_edge. destruct (edges d !! e) as [pr|]; [|by right]. simpl.
  destruct (h !! _) as [fao|]; [|by right]. simpl.
  destruct (decide _); left; by eexists.
Qed.

Lemma visit_edges_dangling forward h todo : ∀ d e,
  e ∈ todo →
  edges d !! e = None ∨
    (∃ edge, edges d !! e = Some edge ∧ h !! far_end forward edge = None) →
  for_each (visit_edge forward h) d todo = Undefined.
Proof.
  induction todo as [|x todo IH]; intros d e He Hbad.
  { by apply elem_of_nil in He. }
  simpl.
  destruct (visit_edge_outcome forward h d x) as [(d' & Hrun & HE)|Hrun];
    rewrite Hrun; simpl; [|done].
  apply elem_of_cons in He as [->|He].
  - unfold visit_edge in Hrun. destruct Hbad as [Hnone|(edge & Hsome & Hfar)].
    + by rewrite Hnone in Hrun.
    + rewrite Hsome in Hrun. simpl in Hrun.
      change (if forward then edge.2 else edge.1)
        with (far_end forward edge) in Hrun.
      by rewrite Hfar in Hrun.
  - apply (IH d' e He). by rewrite HE.
Qed.

(** X11: an edge id that does not resolve makes the traversal undefined.
    If the seed lists, in the direction of travel, an edge id that the edge
    table lacks ([edges[edge_idx]] then yields a pair of null pointers), or
    whose far end is not a node object, the traversal dereferences a bad
    pointer during the very first iteration, whatever the visitor is. *)
Theorem unresolved_edge_is_undefined (forward : bool) (node_fn : visitor)
    (d : FAO_DAG) (h h1 : gmap node FAO) (f : FAO) (e : Z) (fuel : nat) :
  ready_queue d = [] →
  node_fn (seed forward d) h = Done h1 →
  h1 !! seed forward d = Some f →
  e ∈ (if forward then output_edges f else input_edges f) →
  edges d !! e = None ∨
    (∃ edge, edges d !! e = Some edge ∧ h1 !! far_end forward edge = None) →
  traverse_graph (S fuel) node_fn forward d h = Undefined.
Proof.
  intros HQ Hfn Hf He Hbad. unfold traverse_graph.
  change (if forward then start_node d else end_node d)
    with (seed forward d). rewrite HQ. simpl.
  unfold traverse_body. rewrite Hfn. simpl. rewrite Hf. simpl.
  erewrite visit_edges_dangling; [done|exact He|exact Hbad].
Qed.

Lemma unresolved_edge_is_undefined_witness :
  traverse_graph 3 node_skip true single dangling_nodes = Undefined.
Proof.
  apply (unresolved_edge_is_undefined true node_skip single dangling_nodes
           dangling_nodes (bare_node [] [99%Z]) 99 2).
  - done.
  - done.
  - done.
  - by left.
  - by left.
Defined.

(** ** The two directions *)

Lemma rtc_dstep_flip E x y :
  rtc (dstep false E) x y → rtc (dstep true E) y x.
Proof.
  induction 1 as [|x y z Hxy _ IH]; [done|].
  eapply rtc_r; [apply IH|]. apply Hxy.
Qed.

Lemma rtc_dstep_unflip E x y :
  rtc (dstep true E) x y → rtc (dstep false E) y x.
Proof.
  induction 1 as [|x y z Hxy _ IH]; [done|].
  eapply rtc_r; [apply IH|]. apply Hxy.
Qed.

(** On a graph that is well formed in both directions and whose end node
    is reachable from its start node, the same nodes are reachable in
    both directions. *)
Lemma reachable_both_ways d h v :
  well_formed true d h → well_formed false d h →
  reachable true d (end_node d) →
  reachable true d v ↔ reachable false d v.
Proof.
  intros [_ _ _ Hfed _] [_ _ _ Hfed' _] Hend.
  assert (reachable false d (start_node d)) as Hstart.
  { by apply rtc_dstep_unflip. }
  split.
  - intros Hv.
    apply (rtc_ind_r (R := dstep true (edges d))
             (λ z, reachable false d z) (seed true d));
      [exact Hstart| |exact Hv].
    intros y z _ Hyz IH. apply (Hfed' z y); [apply Hyz|done].
  - intros Hv.
    apply (rtc_ind_r (R := dstep false (edges d))
             (λ z, reachable true d z) (seed false d));
      [exact Hend| |exact Hv].
    intros y z _ Hyz IH. apply (Hfed z y); [apply Hyz|done].
Qed.

(** X12: on a graph that is well formed in both directions and whose end
    node is reachable from its start node, a forward and a reverse
    traversal visit the same nodes, each once: their logs are permutations
    of one another. So an adjoint pass touches exactly the nodes that the
    constructor's forward pass allocated. *)
Theorem both_directions_visit_the_same_nodes (fn_forward fn_reverse : visitor)
    (d : FAO_DAG) (h : gmap node FAO) (fuel : nat) :
  well_formed true d h → well_formed false d h → idle d →
  reachable true d (end_node d) →
  visitor_ok h fn_forward → visitor_ok h fn_reverse →
  size (edges d) < fuel →
  ∃ h1 h2 log1 log2,
    traverse_graph fuel fn_forward true d h = Done (d, h1, log1) ∧
    traverse_graph fuel fn_reverse false d h = Done (d, h2, log2) ∧
    log1 ≡ₚ log2.
Proof.
  intros Hwf Hwf' Hidle Hend Hfn1 Hfn2 Hfuel.
  assert (∀ forward node_fn, well_formed forward d h →
            visitor_ok h node_fn →
            ∃ h' log, traverse_graph fuel node_fn forward d h
                        = Done (d, h', log) ∧
              NoDup log ∧ ∀ v, v ∈ log ↔ reachable forward d v) as Hrun.
  { intros forward node_fn Hw Hfn.
    destruct (traverse_graph_run forward node_fn d h h fuel
                (λ _ hh, same_topology h hh))
      as (h' & log & Hr & _ & Hnd & Hmem); [done|done|done|done|..].
    - intros T c hh Ht _ Hrc _.
      destruct (Hfn c hh Ht) as (h1 & Hc & Ht1); [|by exists h1].
      apply (same_topology_live h); [done|].
      destruct Hw as [HC _ Hseed _ _].
      by apply (reach_live forward (edges d) h (seed forward d)).
    - apply same_topology_refl.
    - by exists h', log. }
  destruct (Hrun true fn_forward Hwf Hfn1) as (h1 & log1 & Hr1 & Hnd1 & Hm1).
  destruct (Hrun false fn_reverse Hwf' Hfn2) as (h2 & log2 & Hr2 & Hnd2 & Hm2).
  exists h1, h2, log1, log2. split; [done|]. split; [done|].
  apply NoDup_Permutation; [done|done|].
  intros v. rewrite Hm1, Hm2. by apply (reachable_both_ways d h).
Qed.

Lemma both_directions_visit_the_same_nodes_witness :
  ∃ h1 h2 log1 log2,
    traverse_graph 5 node_skip true diamond diamond_nodes
      = Done (diamond, h1, log1) ∧
    traverse_graph 5 node_skip false diamond diamond_nodes
      = Done (diamond, h2, log2) ∧
    log1 ≡ₚ log2.
Proof.
  apply (both_directions_visit_the_same_nodes node_skip node_skip diamond
           diamond_nodes 5).
  - apply diamond_well_formed.
  - apply diamond_well_formed.
  - done.
  - apply (rtc_l _ _ 1); [by exists 0%Z|].
    apply (rtc_l _ _ 3); [by exists 2%Z|]. apply rtc_refl.
  - apply node_skip_ok.
  - apply node_skip_ok.
  - vm_compute. lia.
Defined.

(** * The host's pipeline *)






(** Doubling, adding one and negating 5 and 6 gives -11 and -13; the
    adjoint pipeline negates, copies and doubles. *)
Example chain_pipeline_values :
  match for_each (run_call 5) (chain, chain_nodes)
          [CallCopyInput [5; 6]%float true; CallForwardEval 1 3;
           CallCopyInput [5; 6]%float false; CallAdjointEval 3 4] with
  | Done (d', h') =>
      copy_output [0; 0]%float false d' h' = Done [-10; -12]%float
  | _ => False
  end ∧
  match for_each (run_call 5) (chain, chain_nodes)
          [CallCopyInput [5; 6]%float true; CallForwardEval 1 3] with
  | Done (d', h') =>
      copy_output [0; 0]%float true d' h' = Done [-11; -13]%float
  | _ => False
  end.
Proof. by vm_compute. Qed.

(** * Safety of the host interface *)





(** * Independence from earlier buffer contents *)

Lemma fully_fed_same_layout forward d h h' :
  same_layout h h' → fully_fed forward d h → fully_fed forward d h'.
Proof.
  intros Hl Hfed v f' j Hrv Hne Hv' Hj.
  pose proof (same_layout_sym _ _ Hl) as Hl'.
  destruct (same_layout_lookup h' h v f' Hl' Hv') as (f & Hv & Hs).
  pose proof (same_shape_own forward _ _ Hs)
    as (_ & _ & _ & _ & _ & _ & _ & Hlf).
  destruct (Hfed v f j Hrv Hne Hv) as (u & fu & i & x & Hu & Hxu & Hcov);
    [lia|].
  destruct (same_layout_lookup h h' u fu Hl Hu) as (fu' & Hu' & Hsu).
  exists u, fu', i, x. split; [done|]. split; [|done].
  by rewrite (edge_xfer_same_layout forward (edges d) h h' fu fu' i Hl Hsu).
Qed.

(** Two settled stores with the same layout and the same global input
    agree on every reachable node, when every far buffer is written in
    full. *)
Lemma settled_agree forward d h1 h2 :
  well_formed forward d h1 → same_layout h1 h2 →
  (∀ v, reachable forward d v → settled forward (edges d) h1 v) →
  (∀ v, reachable forward d v → settled forward (edges d) h2 v) →
  far_data forward <$> h1 !! seed forward d =
    far_data forward <$> h2 !! seed forward d →
  fully_fed forward d h1 →
  ∀ v, reachable forward d v → h1 !! v = h2 !! v.
Proof.
  intros Hwf Hl Hs1 Hs2 Hseed Hfed v.
  induction (dstep_wf forward (edges d) (wf_acyclic _ _ _ Hwf) v)
    as [v _ IH].
  intros Hrv.
  destruct (Hs1 v Hrv) as (f1 & Hv1 & Hown1 & _).
  destruct (Hs2 v Hrv) as (f2 & Hv2 & Hown2 & _).
  destruct (same_layout_lookup h1 h2 v f1 Hl Hv1) as (f2' & Hv2' & Hs).
  rewrite Hv2 in Hv2'. injection Hv2' as <-.
  rewrite Hv1, Hv2. f_equal.
  pose proof (same_shape_own forward f1 f2 Hs)
    as (_ & _ & _ & _ & Hk & _ & _ & Hlf).
  assert (far_data forward f1 = far_data forward f2) as Hfar.
  { destruct (decide (v = seed forward d)) as [->|Hne].
    { rewrite Hv1, Hv2 in Hseed. by injection Hseed. }
    apply list_eq. intros j.
    destruct (decide (j < length (far_data forward f1))) as [Hj|Hj];
      [|rewrite !lookup_ge_None_2; [done|lia|lia]].
    destruct (Hfed v f1 j Hrv Hne Hv1 Hj)
      as (u & fu & i & x & Hu & Hxu & [Htgt Hcov]).
    assert (dstep forward (edges d) u v) as Huv.
    { rewrite <- Htgt.
      apply (xfer_dstep forward (edges d) h1 u fu i x); [|done|done].
      apply (wf_lists _ _ _ Hwf). }
    assert (reachable forward d u) as Hru.
    { by apply (wf_fed _ _ _ Hwf u v). }
    specialize (IH u Huv Hru).
    destruct (Hs1 u Hru) as (fu1 & Hu1 & _ & Hxs1).
    rewrite Hu in Hu1. injection Hu1 as <-.
    destruct (Hs2 u Hru) as (fu2 & Hu2 & _ & Hxs2).
    rewrite <- IH, Hu in Hu2. injection Hu2 as <-.
    pose proof (edge_xfer_lt _ _ _ _ _ _ Hxu) as Hi.
    destruct (Hxs1 i Hi) as (x1 & tf1 & Hx1 & Ht1 & _ & _ & Hc1).
    destruct (Hxs2 i Hi) as (x2 & tf2 & Hx2 & Ht2 & _ & _ & Hc2).
    rewrite Hxu in Hx1. injection Hx1 as <-.
    rewrite (edge_xfer_same_layout forward (edges d) h1 h2 fu fu i Hl
               (same_shape_refl fu)), Hxu in Hx2.
    injection Hx2 as <-.
    rewrite Htgt, Hv1 in Ht1. injection Ht1 as <-.
    rewrite Htgt, Hv2 in Ht2. injection Ht2 as <-.
    replace j with (x_to x + (j - x_to x)) by lia.
    rewrite Hc1, Hc2 by lia. done. }
  apply (same_shape_eq forward); [done| |done].
  by rewrite Hown1, Hown2, Hk, Hfar.
Qed.

(** X15: an evaluation pass keeps nothing of what the buffers held before
    it, apart from the global input. On a well-formed graph with a sound
    layout in which every far buffer is written in full, two passes in the
    same direction from stores that differ only in buffer contents and
    agree on the global input leave every reachable node the same: all
    stale contents are overwritten. *)
Theorem evaluation_depends_on_input_only (forward : bool) (d : FAO_DAG)
    (h h2 : gmap node FAO) (fuel : nat) (t0 t1 t2 t3 : float) :
  well_formed forward d h → idle d → layout_ok forward (edges d) h →
  size (edges d) < fuel →
  fully_fed forward d h → same_layout h h2 →
  far_data forward <$> h2 !! seed forward d =
    far_data forward <$> h !! seed forward d →
  ∃ d1 h1 d2 h2',
    (if forward then forward_eval fuel t0 t1 d h
     else adjoint_eval fuel t0 t1 d h) = Done (d1, h1) ∧
    (if forward then forward_eval fuel t2 t3 d h2
     else adjoint_eval fuel t2 t3 d h2) = Done (d2, h2') ∧
    ∀ v, reachable forward d v → h1 !! v = h2' !! v.
Proof.
  intros Hwf Hidle Hlo Hfuel Hfed Hl Hin.
  destruct (eval_settles forward d h fuel Hwf Hidle Hlo Hfuel)
    as (h1 & log1 & Hrun1 & Hl1 & Hset1 & Hseed1 & _).
  destruct (eval_settles forward d h2 fuel)
    as (h2' & log2 & Hrun2 & Hl2 & Hset2 & Hseed2 & _); [|done|..|done|].
  { apply (well_formed_same_topology forward d h); [done|].
    by apply same_layout_topology. }
  { by apply (layout_ok_same_layout forward _ h). }
  destruct (eval_unfold forward fuel t0 t1 d h h1 log1 Hidle Hrun1)
    as (d1 & Hev1 & _).
  destruct (eval_unfold forward fuel t2 t3 d h2 h2' log2 Hidle Hrun2)
    as (d2 & Hev2 & _).
  exists d1, h1, d2, h2'. split; [done|]. split; [done|].
  apply (settled_agree forward d h1 h2'); [|..|done|done| |].
  - apply (well_formed_same_topology forward d h); [done|].
    by apply same_layout_topology.
  - apply (same_layout_trans h1 h h2'); [by apply same_layout_sym|].
    by apply (same_layout_trans h h2 h2').
  - rewrite Hseed1, Hseed2, Hin; [done|..];
      intros w; by apply (seed_no_producers forward d h w).
  - by apply (fully_fed_same_layout forward d h).
Qed.

Lemma chain_fully_fed : fully_fed true chain chain_nodes.
Proof.
  intros v f j Hrv Hne Hv Hj. unfold chain_nodes in Hv.
  apply elem_of_list_to_map_2 in Hv.
  rewrite !elem_of_cons, elem_of_nil in Hv.
  destruct Hv as [[= -> ->]|[[= -> ->]|[[= -> ->]|[]]]].
  - done.
  - exists 0, chain_a, 0, (mkXfer 1 2 0 0).
    split; [done|]. split; [by vm_compute|]. split; [done|].
    simpl in *. lia.
  - exists 1, chain_b, 0, (mkXfer 2 2 0 0).
    split; [done|]. split; [by vm_compute|]. split; [done|].
    simpl in *. lia.
Qed.

Lemma chain_stale_same_layout : same_layout chain_nodes chain_stale.
Proof.
  apply (same_layout_insert _ _ 1 chain_b); [|done|by split].
  apply (same_layout_insert _ _ 2 chain_c); [|done|by split].
  apply same_layout_refl.
Qed.

Lemma evaluation_depends_on_input_only_witness :
  ∃ d1 h1 d2 h2',
    forward_eval 5 1 3 chain chain_nodes = Done (d1, h1) ∧
    forward_eval 5 3 4 chain chain_stale = Done (d2, h2') ∧
    ∀ v, reachable true chain v → h1 !! v = h2' !! v.
Proof.
  apply (evaluation_depends_on_input_only true chain chain_nodes chain_stale
           5 1 3 3 4).
  - apply chain_well_formed.
  - done.
  - apply chain_layout_ok.
  - vm_compute. lia.
  - apply chain_fully_fed.
  - apply chain_stale_same_layout.
  - done.
Defined.

(** * Offset maps during evaluation *)

Lemma offsets_grow_refl m : offsets_grow m m.
Proof. intros e. by left. Qed.

Lemma offsets_grow_trans m1 m2 m3 :
  offsets_grow m1 m2 → offsets_grow m2 m3 → offsets_grow m1 m3.
Proof.
  intros H12 H23 e.
  destruct (H12 e) as [Ha|[Ha Hb]], (H23 e) as [Hc|[Hc Hd]].
  - left. congruence.
  - right. split; congruence.
  - right. split; congruence.
  - congruence.
Qed.

Lemma map_subscript_grows (m : gmap Z N) e :
  offsets_grow m (map_subscript 0%N m e).2.
Proof.
  unfold map_subscript. destruct (m !! e) as [v|] eqn:He; simpl.
  - apply offsets_grow_refl.
  - intros k. destruct (decide (k = e)) as [->|Hne].
    + right. by rewrite lookup_insert_eq.
    + left. by rewrite lookup_insert_ne.
Qed.

Lemma offsets_kept_refl f : offsets_kept f f.
Proof. split; apply offsets_grow_refl. Qed.

Lemma offsets_kept_trans f1 f2 f3 :
  offsets_kept f1 f2 → offsets_kept f2 f3 → offsets_kept f1 f3.
Proof. intros [? ?] [? ?]. split; by eapply offsets_grow_trans. Qed.

#[export] Instance offsets_only_grow_refl : Reflexive offsets_only_grow.
Proof.
  intros h p. destruct (h !! p); constructor. apply offsets_kept_refl.
Qed.

#[export] Instance offsets_only_grow_trans : Transitive offsets_only_grow.
Proof.
  intros h1 h2 h3 H12 H23 p. specialize (H12 p). specialize (H23 p).
  destruct H12 as [f1 f2 Ha|]; inversion H23 as [? f3 Hb|]; subst;
    constructor. by eapply offsets_kept_trans.
Qed.

Lemma offsets_only_grow_insert h p f f' :
  h !! p = Some f → offsets_kept f f' → offsets_only_grow h (<[p := f']> h).
Proof.
  intros Hp Hk q. destruct (decide (q = p)) as [->|Hne].
  - rewrite lookup_insert_eq, Hp. by constructor.
  - rewrite lookup_insert_ne by done.
    destruct (h !! q); constructor. apply offsets_kept_refl.
Qed.

Lemma offsets_kept_set_own forward f m :
  offsets_grow (own_offsets forward f) m →
  offsets_kept f (set_own_offsets forward m f).
Proof.
  destruct forward, f; simpl; intros Hm; split; simpl;
    done || apply offsets_grow_refl.
Qed.

Lemma offsets_kept_set_far forward f m :
  offsets_grow (far_offsets forward f) m →
  offsets_kept f (set_far_offsets forward m f).
Proof.
  destruct forward, f; simpl; intros Hm; split; simpl;
    done || apply offsets_grow_refl.
Qed.

Lemma offsets_kept_set_far_data forward f v :
  offsets_kept f (set_far_data forward v f).
Proof. destruct forward, f; split; apply offsets_grow_refl. Qed.

Lemma offsets_kept_run_kernel forward f : offsets_kept f (run_kernel forward f).
Proof. destruct forward, f; split; apply offsets_grow_refl. Qed.

Lemma propagate_offsets forward E nd h i h' :
  propagate forward E nd h i = Done h' → offsets_only_grow h h'.
Proof.
  unfold propagate.
  destruct (h !! nd) as [f|] eqn:Hf; [|done]. simpl.
  destruct (own_edges forward f !! i) as [e|]; [|done]. simpl.
  destruct (E !! e) as [edge|]; [|done]. simpl.
  destruct (own_sizes forward f !! i) as [shape|]; [|done]. simpl.
  pose proof (map_subscript_grows (own_offsets forward f) e) as Hg1.
  destruct (map_subscript 0%N (own_offsets forward f) e) as [off offs].
  simpl in Hg1.
  set (h1 := <[nd := set_own_offsets forward offs f]> h).
  assert (offsets_only_grow h h1) as H1.
  { apply (offsets_only_grow_insert h nd f); [done|].
    by apply offsets_kept_set_own. }
  destruct (h1 !! far_end forward edge) as [t|] eqn:Ht; [|done]. simpl.
  pose proof (map_subscript_grows (far_offsets forward t) e) as Hg2.
  destruct (map_subscript 0%N (far_offsets forward t) e) as [toff toffs].
  simpl in Hg2.
  set (t1 := set_far_offsets forward toffs t).
  set (h2 := <[far_end forward edge := t1]> h1).
  assert (offsets_only_grow h1 h2) as H2.
  { apply (offsets_only_grow_insert h1 _ t); [done|].
    by apply offsets_kept_set_far. }
  destruct (h2 !! nd) as [src|]; [|done]. simpl.
  destruct (vector_subvec_memcpy _ _ _ _ _) as [buf|]; [|done]. simpl.
  intros [= <-].
  etrans; [exact H1|]. etrans; [exact H2|].
  apply (offsets_only_grow_insert h2 _ t1); [apply lookup_insert_eq|].
  apply offsets_kept_set_far_data.
Qed.

Lemma for_each_rel {S X} (R : relation S) `{!Reflexive R, !Transitive R}
    (body : S → X → outcome S) xs : ∀ s s',
  (∀ s1 x s2, body s1 x = Done s2 → R s1 s2) →
  for_each body s xs = Done s' → R s s'.
Proof.
  induction xs as [|x xs IH]; intros s s' Hbody; simpl.
  - by intros [= <-].
  - destruct (body s x) as [s1| | |] eqn:Hx; [|done..]. simpl. intros Hrest.
    etrans; [by eapply Hbody|]. by apply IH.
Qed.

Lemma node_eval_offsets forward E c h h' :
  node_eval forward E c h = Done h' → offsets_only_grow h h'.
Proof.
  unfold node_eval. destruct (h !! c) as [f|] eqn:Hf; [|done]. simpl.
  intros Hrun. etrans.
  - apply (offsets_only_grow_insert h c f (run_kernel forward f) Hf).
    apply offsets_kept_run_kernel.
  - apply (for_each_rel offsets_only_grow _ _ _ _
             (λ s1 x s2, propagate_offsets forward E c s1 x s2) Hrun).
Qed.

(** A relation that every call of the visitor respects holds between the
    store a traversal starts from and the one it returns. *)
Lemma traverse_loop_rel (R : relation (gmap node FAO))
    `{!Reflexive R, !Transitive R} node_fn forward :
  (∀ c h1 h2, node_fn c h1 = Done h2 → R h1 h2) →
  ∀ fuel d h T d' h' T',
  traverse_loop fuel node_fn forward d h T = Done (d', h', T') → R h h'.
Proof.
  intros Hfn. induction fuel as [|fuel IH]; intros d h T d' h' T'; simpl.
  - destruct (ready_queue d); [|done]. by intros [= _ <- _].
  - destruct (ready_queue d) as [|c rest]; [by intros [= _ <- _]|].
    unfold traverse_body.
    destruct (node_fn c h) as [h2| | |] eqn:Hc; [|done..]. simpl.
    destruct (h2 !! c) as [fao|]; [|done]. simpl.
    destruct (for_each _ _ _) as [d3| | |]; [|done..]. simpl.
    intros Hrest. etrans; [by eapply Hfn|]. by eapply IH.
Qed.

Lemma traverse_graph_rel (R : relation (gmap node FAO))
    `{!Reflexive R, !Transitive R} node_fn forward fuel d h d' h' log :
  (∀ c h1 h2, node_fn c h1 = Done h2 → R h1 h2) →
  traverse_graph fuel node_fn forward d h = Done (d', h', log) → R h h'.
Proof.
  intros Hfn. unfold traverse_graph.
  destruct (traverse_loop _ _ _ _ _ _) as [[[d1 h1] T1]| | |] eqn:Hl;
    [|done..].
  simpl. intros [= _ <- _]. by eapply (traverse_loop_rel R).
Qed.

(** X16: evaluation never rewrites an offset. Whatever the graph, if an
    evaluation pass returns, every node is still there and each of its two
    offset maps holds the entries it held, unchanged, plus at most entries
    of value zero for edge ids it lacked: reading a missing offset with
    [operator[]] yields 0 and records it. *)
Theorem evaluation_keeps_offsets (forward : bool) (fuel : nat)
    (t0 t1 : float) (d d' : FAO_DAG) (h h' : gmap node FAO) :
  (if forward then forward_eval fuel t0 t1 d h
   else adjoint_eval fuel t0 t1 d h) = Done (d', h') →
  offsets_only_grow h h'.
Proof.
  destruct forward.
  - unfold forward_eval. rewrite node_eval_forward_eq.
    destruct (traverse_graph _ _ _ _ _) as [[[d1 h1] T1]| | |] eqn:Ht;
      [|done..].
    simpl. intros [= _ <-].
    apply (traverse_graph_rel offsets_only_grow _ _ _ _ _ _ _ _
             (node_eval_offsets true (edges d)) Ht).
  - unfold adjoint_eval. rewrite node_eval_adjoint_eq.
    destruct (traverse_graph _ _ _ _ _) as [[[d1 h1] T1]| | |] eqn:Ht;
      [|done..].
    simpl. intros [= _ <-].
    apply (traverse_graph_rel offsets_only_grow _ _ _ _ _ _ _ _
             (node_eval_offsets false (edges d)) Ht).
Qed.

Lemma evaluation_keeps_offsets_witness :
  offsets_only_grow chain_unset chain_unset_evaluated.
Proof.
  apply (evaluation_keeps_offsets true 5 1 3 chain
           (mkDAG 0 2 chain_edges [] ∅ 1 0 2 0)
           chain_unset chain_unset_evaluated).
  by vm_compute.
Defined.

(** With no offset map filled in, the pass over the chain still returns:
    each copy runs from offset 0 to offset 0, which is right for buffers
    that serve one edge, and the maps end up holding those zeros. *)
Example chain_unset_forward_eval :
  output_data <$> chain_unset_evaluated !! 2 = Some [-4; -5]%float ∧
  output_offsets <$> chain_unset_evaluated !! 0 = Some {[10%Z := 0%N]} ∧
  input_offsets <$> chain_unset_evaluated !! 1 = Some {[10%Z := 0%N]} ∧
  output_offsets <$> chain_unset_evaluated !! 1 = Some {[11%Z := 0%N]} ∧
  input_offsets <$> chain_unset_evaluated !! 2 = Some {[11%Z := 0%N]}.
Proof. by vm_compute. Qed.
